(** * ROR13 hash-based function resolver

    A shallow embedding of
    [techniques/dynamic-function-resolution/POC/ror13_resolver.c]
    and the properties of its hash engine, module enumerator, export
    scanner and resolution cache.

    Conventions of the embedding.
    - A [DWORD] is a [Z] in [0, 2^32); every C operation that can leave
      that range is followed by an explicit reduction modulo [2^32].
    - [char] is the signed 8-bit type it is on the Windows targets the
      file is written for (it includes [windows.h] and uses the MSVC
      segment-register intrinsics): the conversion [(DWORD)( *str)]
      sign-extends.
    - An argument of type [const char*] is modelled by the bytes found
      at the pointer, the terminating NUL left implicit at the end of
      the list; a [PUNICODE_STRING] by the [Length] field and the code
      units found at [Buffer].
    - An address at which memory is read is computed in [Z]: a process
      maps addresses of its address space only, so such a sum has not
      wrapped where the read succeeds.  The one pointer sum that is
      returned without being read through, module base plus function
      offset, is reduced to the width of a pointer ([FARPROC]).
    - Code that walks raw process memory runs in the [outcome] monad:
      a read of an unmapped address is [Fault] (the access violation
      the process would take), and the two loops that need not
      terminate, the walk of the module list and the read of a string
      up to its terminator, take a [fuel] argument. *)

From Stdlib Require Import ZArith List Lia Bool.
From Stdlib Require Import Strings.String Strings.Byte.
From stdpp Require Import base list.

Local Open Scope Z_scope.

(** ** Machine integers *)

Definition DWORD (z : Z) : Z := z mod 2 ^ 32.

Definition NULL : Z := 0.

(** The unsigned value of a byte, 0..255. *)
Definition byte_value (b : byte) : Z := Z.of_N (Byte.to_N b).

(** A byte read through a [char] lvalue: signed, -128..127. *)
Definition char_value (b : byte) : Z :=
  if 128 <=? byte_value b then byte_value b - 256 else byte_value b.

(** A 32-bit value read through a [LONG] lvalue. *)
Definition LONG (z : Z) : Z :=
  if 2 ^ 31 <=? z then z - 2 ^ 32 else z.

(** ** Hash engine *)

(** [(hash >> 13) | (hash << (32 - 13))] on a [DWORD]: the left shift
    is truncated to 32 bits. *)
Definition ror13 (hash : Z) : Z :=
  Z.lor (Z.shiftr hash 13) (DWORD (Z.shiftl hash (32 - 13))).

(** The body of the [while ( *str)] loop of [ror13_hash]: test the
    current character, rotate, add, advance. *)
Fixpoint ror13_loop (hash : Z) (str : list byte) : Z :=
  match str with
  | [] => hash
  | c :: str' =>
      if char_value c =? 0 then hash
      else
        let hash := ror13 hash in
        let hash := DWORD (hash + DWORD (char_value c)) in
        ror13_loop hash str'
  end.

Definition ror13_hash (str : list byte) : Z := ror13_loop 0 str.

(** The fields of [UNICODE_STRING] the code reads: [Length] is the size
    of the string in bytes, [Buffer] the 16-bit code units. *)
Record UNICODE_STRING := {
  Length : Z;
  Buffer : list Z
}.

(** [if (c >= 'a' && c <= 'z') c -= 0x20;] *)
Definition to_upper (c : Z) : Z :=
  if (97 <=? c) && (c <=? 122) then c - 32 else c.

(** The [for] loop of [unicode_ror13_hash]; [n] counts the iterations
    still to run, [ptr] is the buffer from index [i] on. *)
Fixpoint unicode_ror13_loop (n : nat) (ptr : list Z) (hash : Z) : Z :=
  match n, ptr with
  | S n', c :: ptr' =>
      let c := to_upper c in
      let hash := ror13 hash in
      let hash := DWORD (hash + c) in
      unicode_ror13_loop n' ptr' hash
  | _, _ => hash
  end.

Definition unicode_ror13_hash (str : UNICODE_STRING) : Z :=
  unicode_ror13_loop (Z.to_nat (Length str / 2)) (Buffer str) 0.

(** String literals of the source, as the bytes and as the counted
    wide string the loader would hold. *)
Definition cstring (s : string) : list byte := list_byte_of_string s.

Definition wide (bs : list byte) : list Z := map byte_value bs.

Definition unicode_string (ws : list Z) : UNICODE_STRING :=
  {| Length := 2 * Z.of_nat (length ws); Buffer := ws |}.

(** The constants the source hard-codes for its callers. *)
Definition HASH_KERNEL32 : Z := 0x6A4ABC5B.
Definition HASH_VIRTUALALLOC : Z := 0x91AFCA54.
Definition HASH_CREATETHREAD : Z := 0x3F9287AE.

(** *** The reference algorithm of the specification

    Rotation right of a 32-bit word, written arithmetically: the low
    [n] bits move to the top. *)
Definition rotr32 (x n : Z) : Z :=
  x / 2 ^ n + (x mod 2 ^ n) * 2 ^ (32 - n).

(** "Accumulator starts at 0; for each character, rotate right by 13,
    then add the character's unsigned value with 32-bit wraparound." *)
Definition reference_step (acc c : Z) : Z := (rotr32 acc 13 + c) mod 2 ^ 32.

Definition reference_fold (cs : list Z) : Z := fold_left reference_step cs 0.

(** The characters of a C string: everything before the first NUL. *)
Fixpoint c_chars (str : list byte) : list byte :=
  match str with
  | [] => []
  | c :: str' => if byte_value c =? 0 then [] else c :: c_chars str'
  end.

(** What [(DWORD)(char)b] is: the unsigned value below 128, and the
    unsigned value plus [0xFFFFFF00] from 128 on. *)
Definition sign_extended (b : byte) : Z :=
  if byte_value b <? 128 then byte_value b else byte_value b + 0xFFFFFF00.

(** A character that is ASCII and not a lower-case letter. *)
Definition plain_ascii (c : byte) : Prop :=
  byte_value c < 128 /\ ~ (97 <= byte_value c <= 122).

(** Upper-casing of a chosen subset of the positions of a wide string. *)
Fixpoint upcase_some (mask : list bool) (ws : list Z) : list Z :=
  match mask, ws with
  | b :: mask', c :: ws' => (if b then to_upper c else c) :: upcase_some mask' ws'
  | _, _ => ws
  end.

(** ** Process memory

    The address space is a partial map from addresses to bytes; the
    resolver only reads it.  Multi-byte reads are little-endian. *)

Inductive outcome (A : Type) : Type :=
| Ret (a : A)      (* the call returns [a] *)
| Fault            (* a read of unmapped memory, or an array index out of bounds *)
| OutOfFuel.       (* the loop did not finish within the fuel given *)

Arguments Ret {A} a.
Arguments Fault {A}.
Arguments OutOfFuel {A}.

Definition bind {A B : Type} (c : outcome A) (k : A -> outcome B) : outcome B :=
  match c with
  | Ret a => k a
  | Fault => Fault
  | OutOfFuel => OutOfFuel
  end.

Notation "'do' x <- c ; k" := (bind c (fun x => k))
  (at level 10, x name, c at level 100, k at level 200).

Definition memory := Z -> option byte.

Definition load8 (m : memory) (a : Z) : outcome Z :=
  match m a with
  | Some b => Ret (byte_value b)
  | None => Fault
  end.

Fixpoint load_le (n : nat) (m : memory) (a : Z) : outcome Z :=
  match n with
  | O => Ret 0
  | S n' =>
      do lo <- load8 m a ;
      do hi <- load_le n' m (a + 1) ;
      Ret (lo + 256 * hi)
  end.

Definition load16 : memory -> Z -> outcome Z := load_le 2.
Definition load32 : memory -> Z -> outcome Z := load_le 4.

(** The characters at a [char*], up to the terminator. *)
Fixpoint load_cstr (fuel : nat) (m : memory) (a : Z) : outcome (list byte) :=
  match fuel with
  | O => OutOfFuel
  | S fuel' =>
      match m a with
      | None => Fault
      | Some c =>
          if byte_value c =? 0 then Ret []
          else do str <- load_cstr fuel' m (a + 1) ; Ret (c :: str)
      end
  end.

(** [n] consecutive 16-bit code units at a [WCHAR*]. *)
Fixpoint load_wchars (n : nat) (m : memory) (a : Z) : outcome (list Z) :=
  match n with
  | O => Ret []
  | S n' =>
      do c <- load16 m a ;
      do ws <- load_wchars n' m (a + 2) ;
      Ret (c :: ws)
  end.

(** ** Structure layout

    The resolver reaches into structures declared by the platform
    headers.  The field offsets and the pointer size depend on the
    target; they are collected here, with the two instances the
    [#ifdef _WIN64] of the source selects between. *)

Record layout := {
  pointer_bytes : nat;                   (* sizeof(void* ) *)
  PEB_Ldr : Z;                           (* offsetof(PEB, Ldr) *)
  LDR_InMemoryOrderModuleList : Z;       (* offsetof(PEB_LDR_DATA, InMemoryOrderModuleList) *)
  ENTRY_InMemoryOrderLinks : Z;          (* offsetof(LDR_DATA_TABLE_ENTRY, InMemoryOrderLinks) *)
  ENTRY_DllBase : Z;                     (* offsetof(LDR_DATA_TABLE_ENTRY, DllBase) *)
  ENTRY_BaseDllName : Z;                 (* offsetof(LDR_DATA_TABLE_ENTRY, BaseDllName) *)
  USTR_Buffer : Z;                       (* offsetof(UNICODE_STRING, Buffer) *)
  NT_ExportDirectoryRVA : Z              (* offsetof(IMAGE_NT_HEADERS,
                                            OptionalHeader.DataDirectory[0].VirtualAddress) *)
}.

Definition win64 : layout := {|
  pointer_bytes := 8;
  PEB_Ldr := 0x18;
  LDR_InMemoryOrderModuleList := 0x20;
  ENTRY_InMemoryOrderLinks := 0x10;
  ENTRY_DllBase := 0x30;
  ENTRY_BaseDllName := 0x58;
  USTR_Buffer := 0x08;
  NT_ExportDirectoryRVA := 0x88
|}.

Definition win32 : layout := {|
  pointer_bytes := 4;
  PEB_Ldr := 0x0C;
  LDR_InMemoryOrderModuleList := 0x14;
  ENTRY_InMemoryOrderLinks := 0x08;
  ENTRY_DllBase := 0x18;
  ENTRY_BaseDllName := 0x2C;
  USTR_Buffer := 0x04;
  NT_ExportDirectoryRVA := 0x78
|}.

(** Offsets that are the same on both targets. *)
Definition LIST_Flink : Z := 0.
Definition USTR_Length : Z := 0.
Definition DOS_e_magic : Z := 0.
Definition DOS_e_lfanew : Z := 0x3C.
Definition NT_Signature : Z := 0.
Definition EXP_NumberOfNames : Z := 0x18.
Definition EXP_AddressOfFunctions : Z := 0x1C.
Definition EXP_AddressOfNames : Z := 0x20.
Definition EXP_AddressOfNameOrdinals : Z := 0x24.

Definition IMAGE_DOS_SIGNATURE : Z := 0x5A4D.
Definition IMAGE_NT_SIGNATURE : Z := 0x00004550.

(** A process as the resolver sees it: the PEB pointer the segment
    register gives ([gs:[0x60]] or [fs:[0x30]]) and the address space. *)
Record process := {
  peb : Z;
  mem : memory
}.

Section Resolver.

Variable L : layout.

Definition load_ptr (m : memory) (a : Z) : outcome Z :=
  load_le (pointer_bytes L) m a.

(** The [UNICODE_STRING] at address [p], with the code units its
    [Buffer] points to. *)
Definition load_unicode_string (m : memory) (p : Z) : outcome UNICODE_STRING :=
  do len <- load16 m (p + USTR_Length) ;
  do ptr <- load_ptr m (p + USTR_Buffer L) ;
  do ws <- load_wchars (Z.to_nat (len / 2)) m ptr ;
  Ret {| Length := len; Buffer := ws |}.

(** ** Module lookup *)

(** The [while (pListEntry != pListHead)] loop. *)
Fixpoint module_walk (fuel : nat) (m : memory) (pListHead pListEntry : Z)
    (module_hash : Z) : outcome Z :=
  match fuel with
  | O => OutOfFuel
  | S fuel' =>
      if pListEntry =? pListHead then Ret NULL
      else
        let pEntry := pListEntry - ENTRY_InMemoryOrderLinks L in
        do name <- load_unicode_string m (pEntry + ENTRY_BaseDllName L) ;
        let hash := unicode_ror13_hash name in
        if hash =? module_hash then
          load_ptr m (pEntry + ENTRY_DllBase L)
        else
          do next <- load_ptr m (pListEntry + LIST_Flink) ;
          module_walk fuel' m pListHead next module_hash
  end.

Definition find_module_by_hash (fuel : nat) (p : process) (module_hash : Z)
    : outcome Z :=
  let pPeb := peb p in
  do pLdr <- load_ptr (mem p) (pPeb + PEB_Ldr L) ;
  let pListHead := pLdr + LDR_InMemoryOrderModuleList L in
  do pListEntry <- load_ptr (mem p) (pListHead + LIST_Flink) ;
  module_walk fuel (mem p) pListHead pListEntry module_hash.

(** ** Function lookup *)

(** The value of a pointer sum returned as [FARPROC]: address
    arithmetic is done at the width of a pointer, so the sum of a
    module base and a 32-bit offset wraps around on the 32-bit
    target. *)
Definition FARPROC (z : Z) : Z := z mod 2 ^ (8 * Z.of_nat (pointer_bytes L)).

(** The [for (DWORD i = 0; i < NumberOfNames; i++)] loop; [n] is the
    number of iterations still to run. *)
Fixpoint export_scan (fuel : nat) (m : memory) (hModule : Z)
    (pNames pFunctions pOrdinals : Z) (function_hash : Z)
    (n : nat) (i : Z) : outcome Z :=
  match n with
  | O => Ret NULL
  | S n' =>
      do name_rva <- load32 m (pNames + 4 * i) ;
      do funcName <- load_cstr fuel m (hModule + name_rva) ;
      let hash := ror13_hash funcName in
      if hash =? function_hash then
        do ordinal <- load16 m (pOrdinals + 2 * i) ;
        do func_rva <- load32 m (pFunctions + 4 * ordinal) ;
        Ret (FARPROC (hModule + func_rva))
      else
        export_scan fuel m hModule pNames pFunctions pOrdinals function_hash
          n' (i + 1)
  end.

Definition find_function_by_hash (fuel : nat) (m : memory) (hModule : Z)
    (function_hash : Z) : outcome Z :=
  if hModule =? NULL then Ret NULL
  else
    let pDosHeader := hModule in
    do e_magic <- load16 m (pDosHeader + DOS_e_magic) ;
    if negb (e_magic =? IMAGE_DOS_SIGNATURE) then Ret NULL
    else
      do e_lfanew <- load32 m (pDosHeader + DOS_e_lfanew) ;
      let pNtHeaders := hModule + LONG e_lfanew in
      do signature <- load32 m (pNtHeaders + NT_Signature) ;
      if negb (signature =? IMAGE_NT_SIGNATURE) then Ret NULL
      else
        do export_rva <- load32 m (pNtHeaders + NT_ExportDirectoryRVA L) ;
        if export_rva =? 0 then Ret NULL
        else
          let pExportDir := hModule + export_rva in
          do names <- load32 m (pExportDir + EXP_AddressOfNames) ;
          do functions <- load32 m (pExportDir + EXP_AddressOfFunctions) ;
          do ordinals <- load32 m (pExportDir + EXP_AddressOfNameOrdinals) ;
          let pNames := hModule + names in
          let pFunctions := hModule + functions in
          let pOrdinals := hModule + ordinals in
          do number <- load32 m (pExportDir + EXP_NumberOfNames) ;
          export_scan fuel m hModule pNames pFunctions pOrdinals
            function_hash (Z.to_nat number) 0.

(** ** Cached resolver *)

Definition MAX_CACHE_ENTRIES : Z := 256.

Record CACHE_ENTRY := {
  module_hash : Z;
  function_hash : Z;
  address : Z
}.

(** The two globals of the resolver: the array, always
    [MAX_CACHE_ENTRIES] long, and the number of slots in use. *)
Record cache := {
  g_cache : list CACHE_ENTRY;
  g_cache_count : Z
}.

Definition zero_entry : CACHE_ENTRY :=
  {| module_hash := 0; function_hash := 0; address := NULL |}.

(** Static storage is zero-initialised. *)
Definition initial_cache : cache :=
  {| g_cache := replicate (Z.to_nat MAX_CACHE_ENTRIES) zero_entry;
     g_cache_count := 0 |}.

(** Array accesses; an index outside the array is undefined behaviour
    in C and modelled as a fault. *)
Definition array_get {A : Type} (arr : list A) (i : Z) : outcome A :=
  if 0 <=? i then
    match arr !! Z.to_nat i with
    | Some x => Ret x
    | None => Fault
    end
  else Fault.

Definition array_set {A : Type} (arr : list A) (i : Z) (x : A) : outcome (list A) :=
  if (0 <=? i) && (i <? Z.of_nat (length arr)) then Ret (<[Z.to_nat i := x]> arr)
  else Fault.

(** The [for (int i = 0; i < g_cache_count; i++)] loop; [n] is the
    number of iterations still to run. *)
Fixpoint cache_scan (n : nat) (i : Z) (arr : list CACHE_ENTRY)
    (mh fh : Z) : outcome (option Z) :=
  match n with
  | O => Ret None
  | S n' =>
      do e <- array_get arr i ;
      if (module_hash e =? mh) && (function_hash e =? fh) then
        Ret (Some (address e))
      else cache_scan n' (i + 1) arr mh fh
  end.

(** Instrumentation, not program state: how many times the resolver
    has called the module enumerator and the export scanner. *)
Record probe := {
  module_walks : nat;
  export_scans : nat
}.

Definition count_module_walk (k : probe) : probe :=
  {| module_walks := S (module_walks k); export_scans := export_scans k |}.

Definition count_export_scan (k : probe) : probe :=
  {| module_walks := module_walks k; export_scans := S (export_scans k) |}.

(** The cache check at the head of [resolve_cached]. *)
Definition cache_lookup (st : cache) (mh fh : Z) : outcome (option Z) :=
  cache_scan (Z.to_nat (g_cache_count st)) 0 (g_cache st) mh fh.

(** [mh] and [fh] are the parameters [module_hash] and [function_hash]
    of the source, renamed apart from the fields of [CACHE_ENTRY]. *)
Definition resolve_cached (fuel : nat) (p : process) (mh fh : Z)
    (st : cache) (k : probe) : outcome (Z * cache * probe) :=
  do hit <- cache_lookup st mh fh ;
  match hit with
  | Some cached => Ret (cached, st, k)
  | None =>
      let k := count_module_walk k in
      do hModule <- find_module_by_hash fuel p mh ;
      let k := count_export_scan k in
      do addr <- find_function_by_hash fuel (mem p) hModule fh ;
      if negb (addr =? NULL) && (g_cache_count st <? MAX_CACHE_ENTRIES) then
        let e := {| module_hash := mh; function_hash := fh; address := addr |} in
        do arr <- array_set (g_cache st) (g_cache_count st) e ;
        Ret (addr, {| g_cache := arr; g_cache_count := g_cache_count st + 1 |}, k)
      else Ret (addr, st, k)
  end.

(** ** Views of the structures in memory

    What it means for the address space to hold a loader list or an
    export directory with given contents.  These predicates are used
    to state the theorems; the code never builds the views. *)

(** A module as the enumerator sees it, under the field names of
    [LDR_DATA_TABLE_ENTRY]. *)
Record ModuleRecord := {
  DllBase : Z;
  BaseDllName : UNICODE_STRING
}.

(** The entries linked from [pListEntry] up to, not including, the
    link [stop]; none of them is the list head. *)
Inductive module_segment (m : memory) (pListHead stop : Z)
    : Z -> list ModuleRecord -> Prop :=
| segment_end : module_segment m pListHead stop stop []
| segment_link (pListEntry next : Z) (md : ModuleRecord) (mods : list ModuleRecord) :
    pListEntry <> pListHead ->
    load_unicode_string m
      (pListEntry - ENTRY_InMemoryOrderLinks L + ENTRY_BaseDllName L)
      = Ret (BaseDllName md) ->
    load_ptr m (pListEntry - ENTRY_InMemoryOrderLinks L + ENTRY_DllBase L)
      = Ret (DllBase md) ->
    load_ptr m (pListEntry + LIST_Flink) = Ret next ->
    module_segment m pListHead stop next mods ->
    module_segment m pListHead stop pListEntry (md :: mods).

(** The list anchor: the head of the in-memory-order list and the
    first link on it. *)
Definition list_anchor (p : process) (pListHead first : Z) : Prop :=
  exists pLdr,
    load_ptr (mem p) (peb p + PEB_Ldr L) = Ret pLdr /\
    pListHead = pLdr + LDR_InMemoryOrderModuleList L /\
    load_ptr (mem p) (pListHead + LIST_Flink) = Ret first.

(** The process has exactly the modules [mods] on its circular
    in-memory-order list, in that order. *)
Definition loaded_modules (p : process) (mods : list ModuleRecord) : Prop :=
  exists pListHead first,
    list_anchor p pListHead first /\
    module_segment (mem p) pListHead pListHead first mods.

Definition module_matches (target : Z) (md : ModuleRecord) : Prop :=
  unicode_ror13_hash (BaseDllName md) = target.

(** A NUL-terminated string at an address. *)
Inductive cstr_at (m : memory) : Z -> list byte -> Prop :=
| cstr_end (a : Z) (c : byte) :
    m a = Some c -> byte_value c = 0 -> cstr_at m a []
| cstr_char (a : Z) (c : byte) (str : list byte) :
    m a = Some c -> byte_value c <> 0 -> cstr_at m (a + 1) str ->
    cstr_at m a (c :: str).

(** A named export: its name, the ordinal the name maps to, and the
    offset stored in the function slot of that ordinal. *)
Record ExportEntry := {
  exp_name : list byte;
  exp_ordinal : Z;
  exp_rva : Z
}.

(** The three parallel arrays hold [exps] from index [i] on. *)
Inductive export_entries (m : memory) (hModule pNames pFunctions pOrdinals : Z)
    : Z -> list ExportEntry -> Prop :=
| exports_end (i : Z) :
    export_entries m hModule pNames pFunctions pOrdinals i []
| exports_entry (i name_rva : Z) (e : ExportEntry) (exps : list ExportEntry) :
    load32 m (pNames + 4 * i) = Ret name_rva ->
    cstr_at m (hModule + name_rva) (exp_name e) ->
    load16 m (pOrdinals + 2 * i) = Ret (exp_ordinal e) ->
    load32 m (pFunctions + 4 * exp_ordinal e) = Ret (exp_rva e) ->
    export_entries m hModule pNames pFunctions pOrdinals (i + 1) exps ->
    export_entries m hModule pNames pFunctions pOrdinals i (e :: exps).

(** The first header carries its signature and says where the second
    header is. *)
Definition dos_header (m : memory) (hModule pNtHeaders : Z) : Prop :=
  load16 m (hModule + DOS_e_magic) = Ret IMAGE_DOS_SIGNATURE /\
  exists e_lfanew,
    load32 m (hModule + DOS_e_lfanew) = Ret e_lfanew /\
    pNtHeaders = hModule + LONG e_lfanew.

(** Both headers carry their signatures and the export directory is at
    offset [export_rva]. *)
Definition pe_headers (m : memory) (hModule export_rva : Z) : Prop :=
  exists pNtHeaders,
    dos_header m hModule pNtHeaders /\
    load32 m (pNtHeaders + NT_Signature) = Ret IMAGE_NT_SIGNATURE /\
    load32 m (pNtHeaders + NT_ExportDirectoryRVA L) = Ret export_rva.

(** A valid image at [hModule] whose export directory names exactly
    [exps], in stored order. *)
Definition export_directory (m : memory) (hModule : Z) (exps : list ExportEntry)
    : Prop :=
  exists export_rva names functions ordinals,
    pe_headers m hModule export_rva /\
    export_rva <> 0 /\
    load32 m (hModule + export_rva + EXP_AddressOfNames) = Ret names /\
    load32 m (hModule + export_rva + EXP_AddressOfFunctions) = Ret functions /\
    load32 m (hModule + export_rva + EXP_AddressOfNameOrdinals) = Ret ordinals /\
    load32 m (hModule + export_rva + EXP_NumberOfNames)
      = Ret (Z.of_nat (length exps)) /\
    export_entries m hModule (hModule + names) (hModule + functions)
      (hModule + ordinals) 0 exps.

Definition export_matches (target : Z) (e : ExportEntry) : Prop :=
  ror13_hash (exp_name e) = target.

(** The fuel covers reading the name of the export. *)
Definition name_fits (fuel : nat) (e : ExportEntry) : Prop :=
  (length (exp_name e) < fuel)%nat.

(** ** Cache invariant and reachable states *)

(** The slots in use, in insertion order. *)
Definition entries (st : cache) : list CACHE_ENTRY :=
  take (Z.to_nat (g_cache_count st)) (g_cache st).

Definition cache_wf (st : cache) : Prop :=
  0 <= g_cache_count st <= MAX_CACHE_ENTRIES /\
  length (g_cache st) = Z.to_nat MAX_CACHE_ENTRIES.

(** Every slot in use holds a resolved address. *)
Definition cache_inv (st : cache) : Prop :=
  cache_wf st /\ Forall (fun e => address e <> NULL) (entries st).

(** The states the globals can be in: the initial one and whatever a
    returning call of [resolve_cached] leaves, in any process state. *)
Inductive reachable : cache -> Prop :=
| reach_initial : reachable initial_cache
| reach_resolve (st st' : cache) (fuel : nat) (p : process) (mh fh a : Z)
    (k k' : probe) :
    reachable st ->
    resolve_cached fuel p mh fh st k = Ret (a, st', k') ->
    reachable st'.

End Resolver.

(** ** A concrete process

    A 64-bit address space with two loaded modules, laid out field by
    field, for evaluating the resolver end to end. *)

Module Demo.

Definition byte_of (z : Z) : byte :=
  match Byte.of_N (Z.to_N (z mod 256)) with
  | Some b => b
  | None => x00
  end.

Fixpoint le_bytes (n : nat) (z : Z) : list byte :=
  match n with
  | O => []
  | S n' => byte_of z :: le_bytes n' (z / 256)
  end.

Definition u16 := le_bytes 2.
Definition u32 := le_bytes 4.
Definition u64 := le_bytes 8.

Definition utf16 (s : string) : list byte :=
  flat_map (fun c => [c; x00]) (cstring s).

Definition asciz (s : string) : list byte := cstring s ++ [x00].

(** Memory made of disjoint byte ranges, each given by its first
    address and its contents. *)
Fixpoint mapped (ranges : list (Z * list byte)) (a : Z) : option byte :=
  match ranges with
  | [] => None
  | (base, bytes) :: ranges' =>
      if (base <=? a) && (a <? base + Z.of_nat (length bytes))
      then nth_error bytes (Z.to_nat (a - base))
      else mapped ranges' a
  end.

Definition loader_data : list (Z * list byte) :=
  [ (0x7018, u64 0x8000);                       (* PEB.Ldr *)
    (0x8020, u64 0x9010);                       (* list head: Flink *)
    (* first entry, at 0x9000 *)
    (0x9010, u64 0xA010);                       (* InMemoryOrderLinks.Flink *)
    (0x9030, u64 0x10000);                      (* DllBase *)
    (0x9058, u16 24 ++ u16 26);                 (* BaseDllName.Length, MaximumLength *)
    (0x9060, u64 0x9100);                       (* BaseDllName.Buffer *)
    (0x9100, utf16 "KERNEL32.DLL");
    (* second entry, at 0xA000 *)
    (0xA010, u64 0x8020);                       (* Flink: back to the head *)
    (0xA030, u64 0x20000);
    (0xA058, u16 20 ++ u16 22);
    (0xA060, u64 0xA100);
    (0xA100, utf16 "USER32.dll") ].

Definition kernel32_image : list (Z * list byte) :=
  [ (0x10000, u16 IMAGE_DOS_SIGNATURE);
    (0x1003C, u32 0x80);                        (* e_lfanew *)
    (0x10080, u32 IMAGE_NT_SIGNATURE);
    (0x10108, u32 0x200);                       (* export directory RVA *)
    (0x10218, u32 2);                           (* NumberOfNames *)
    (0x1021C, u32 0x300);                       (* AddressOfFunctions *)
    (0x10220, u32 0x340);                       (* AddressOfNames *)
    (0x10224, u32 0x360);                       (* AddressOfNameOrdinals *)
    (0x10300, u32 0x5000 ++ u32 0x6000);        (* function RVAs *)
    (0x10340, u32 0x400 ++ u32 0x410);          (* name RVAs *)
    (0x10360, u16 1 ++ u16 0);                  (* name ordinals *)
    (0x10400, asciz "CreateThread");
    (0x10410, asciz "VirtualAlloc") ].

Definition user32_image : list (Z * list byte) :=
  [ (0x20000, u16 IMAGE_DOS_SIGNATURE);
    (0x2003C, u32 0x80);
    (0x20080, u32 IMAGE_NT_SIGNATURE);
    (0x20108, u32 0x200);
    (0x20218, u32 1);
    (0x2021C, u32 0x300);
    (0x20220, u32 0x340);
    (0x20224, u32 0x360);
    (0x20300, u32 0x1234);
    (0x20340, u32 0x400);
    (0x20360, u16 0);
    (0x20400, asciz "MessageBoxA") ].

Definition proc : process :=
  {| peb := 0x7000;
     mem := mapped (loader_data ++ kernel32_image ++ user32_image) |}.

Definition kernel32 : ModuleRecord :=
  {| DllBase := 0x10000;
     BaseDllName := unicode_string (wide (cstring "KERNEL32.DLL")) |}.

Definition user32 : ModuleRecord :=
  {| DllBase := 0x20000;
     BaseDllName := unicode_string (wide (cstring "USER32.dll")) |}.

Definition kernel32_exports : list ExportEntry :=
  [ {| exp_name := cstring "CreateThread"; exp_ordinal := 1; exp_rva := 0x6000 |};
    {| exp_name := cstring "VirtualAlloc"; exp_ordinal := 0; exp_rva := 0x5000 |} ].

(** The same machine word for "no loader data": the PEB is readable,
    its [Ldr] field is null, and nothing is mapped at low addresses. *)
Definition proc_null_ldr : process :=
  {| peb := 0x7000; mem := mapped [ (0x7018, u64 0) ] |}.

(** An image whose first signature is wrong, and one whose second is. *)
Definition bad_dos : memory := mapped [ (0x10000, u16 0x4D5A) ].

Definition bad_nt : memory :=
  mapped [ (0x10000, u16 IMAGE_DOS_SIGNATURE); (0x1003C, u32 0x80);
           (0x10080, u32 0x4550FFFF) ].

(** A valid image without an export directory. *)
Definition no_exports : memory :=
  mapped [ (0x10000, u16 IMAGE_DOS_SIGNATURE); (0x1003C, u32 0x80);
           (0x10080, u32 IMAGE_NT_SIGNATURE); (0x10108, u32 0) ].

(** The list head is readable but the entry it links to is not. *)
Definition proc_torn : process :=
  {| peb := 0x7000;
     mem := mapped [ (0x7018, u64 0x8000); (0x8020, u64 0x9010) ] |}.

(** The process before the second module is loaded: the first entry
    links back to the head. *)
Definition proc_early : process :=
  {| peb := 0x7000;
     mem := mapped ((0x9010, u64 0x8020) :: loader_data ++ kernel32_image) |}.

Definition probe0 : probe := {| module_walks := 0; export_scans := 0 |}.

(** A cache with every slot in use. *)
Definition full_cache : cache :=
  {| g_cache :=
       replicate (Z.to_nat MAX_CACHE_ENTRIES)
         {| module_hash := 1; function_hash := 1; address := 0x1000 |};
     g_cache_count := MAX_CACHE_ENTRIES |}.

Definition h_kernel32 : Z := unicode_ror13_hash (BaseDllName kernel32).
Definition h_user32 : Z := unicode_ror13_hash (BaseDllName user32).
Definition h_VirtualAlloc : Z := ror13_hash (cstring "VirtualAlloc").
Definition h_CreateThread : Z := ror13_hash (cstring "CreateThread").
Definition h_MessageBoxA : Z := ror13_hash (cstring "MessageBoxA").

End Demo.


(** ** Further concrete processes *)

Module Demo2.

(** The single entry of the list links to itself instead of the list
    head. *)
Definition proc_cycle : process :=
  {| peb := 0x7000;
     mem := Demo.mapped ((0x9010, Demo.u64 0x9010) :: Demo.loader_data) |}.

(** The cache after VirtualAlloc has been resolved from the empty
    cache, and after CreateThread has been resolved next. *)
Definition cache_one : cache :=
  {| g_cache :=
       <[0%nat := {| module_hash := Demo.h_kernel32;
                     function_hash := Demo.h_VirtualAlloc;
                     address := 0x15000 |}]> (g_cache initial_cache);
     g_cache_count := 1 |}.

Definition cache_two : cache :=
  {| g_cache :=
       <[1%nat := {| module_hash := Demo.h_kernel32;
                     function_hash := Demo.h_CreateThread;
                     address := 0x16000 |}]> (g_cache cache_one);
     g_cache_count := 2 |}.

Definition probe1 : probe := {| module_walks := 1; export_scans := 1 |}.
Definition probe2 : probe := {| module_walks := 2; export_scans := 2 |}.

End Demo2.

(** An image of the 32-bit target, loaded at [0x10000000], whose one
    export has the offset [0xF0000000]: base and offset add up to
    [2^32]. *)
Module Demo32.

Definition base : Z := 0x10000000.

Definition image : memory :=
  Demo.mapped
    [ (0x10000000, Demo.u16 IMAGE_DOS_SIGNATURE);
      (0x1000003C, Demo.u32 0x80);                   (* e_lfanew *)
      (0x10000080, Demo.u32 IMAGE_NT_SIGNATURE);
      (0x100000F8, Demo.u32 0x200);                  (* export directory RVA *)
      (0x10000218, Demo.u32 1);                      (* NumberOfNames *)
      (0x1000021C, Demo.u32 0x300);                  (* AddressOfFunctions *)
      (0x10000220, Demo.u32 0x340);                  (* AddressOfNames *)
      (0x10000224, Demo.u32 0x360);                  (* AddressOfNameOrdinals *)
      (0x10000300, Demo.u32 0xF0000000);             (* function RVA *)
      (0x10000340, Demo.u32 0x400);                  (* name RVA *)
      (0x10000360, Demo.u16 0);                      (* name ordinal *)
      (0x10000400, Demo.asciz "VirtualAlloc") ].

Definition exports : list ExportEntry :=
  [ {| exp_name := cstring "VirtualAlloc"; exp_ordinal := 0;
       exp_rva := 0xF0000000 |} ].

End Demo32.


(** ** The resolver without its cache, and one process at a time *)

Section CacheViews.

Variable L : layout.

(** The pair a cache slot is filed under. *)
Definition cache_key (e : CACHE_ENTRY) : Z * Z :=
  (module_hash e, function_hash e).

(** The two lookups [resolve_cached] makes when the cache does not
    answer (its lines "Not in cache, resolve"). *)
Definition resolve_uncached (fuel : nat) (p : process) (mh fh : Z) : outcome Z :=
  do hModule <- find_module_by_hash L fuel p mh ;
  find_function_by_hash L fuel (mem p) hModule fh.

(** The caches reached by calls that are all made in the process
    state [p]. *)
Inductive reachable_in (p : process) : cache -> Prop :=
| reach_in_initial : reachable_in p initial_cache
| reach_in_resolve (st st' : cache) (fuel : nat) (mh fh a : Z) (k k' : probe) :
    reachable_in p st ->
    resolve_cached L fuel p mh fh st k = Ret (a, st', k') ->
    reachable_in p st'.

(** The slot holds what the two lookups give in [p], for every fuel
    from some point on. *)
Definition agrees_with (p : process) (e : CACHE_ENTRY) : Prop :=
  exists fuel0 : nat,
    forall fuel : nat,
      (fuel0 <= fuel)%nat ->
      resolve_uncached fuel p (module_hash e) (function_hash e)
      = Ret (address e).

End CacheViews.


(** ** The position-independent example
    ([techniques/position-independent-code/POC/simple_pic_messagebox.c])

    Its [ror13_hash] is, character for character, the one of the
    resolver, and the loop of its [resolve_by_hash] is the loop of
    [find_function_by_hash]; both are reused. *)

Section PicMessageBox.

Variable L : layout.

(** [get_kernel32]: the module base of the second entry of the list. *)
Definition get_kernel32 (p : process) : outcome Z :=
  let pPeb := peb p in
  do pLdr <- load_ptr L (mem p) (pPeb + PEB_Ldr L) ;
  let pListHead := pLdr + LDR_InMemoryOrderModuleList L in
  do pListEntry <- load_ptr L (mem p) (pListHead + LIST_Flink) ;
  do pListEntry <- load_ptr L (mem p) (pListEntry + LIST_Flink) ;
  let pEntry := pListEntry - ENTRY_InMemoryOrderLinks L in
  load_ptr L (mem p) (pEntry + ENTRY_DllBase L).

(** [resolve_by_hash]: the export scan with no check before it. *)
Definition resolve_by_hash (fuel : nat) (m : memory) (hModule : Z)
    (function_hash : Z) : outcome Z :=
  let pDosHeader := hModule in
  do e_lfanew <- load32 m (pDosHeader + DOS_e_lfanew) ;
  let pNtHeaders := hModule + LONG e_lfanew in
  do export_rva <- load32 m (pNtHeaders + NT_ExportDirectoryRVA L) ;
  let pExportDir := hModule + export_rva in
  do names <- load32 m (pExportDir + EXP_AddressOfNames) ;
  do functions <- load32 m (pExportDir + EXP_AddressOfFunctions) ;
  do ordinals <- load32 m (pExportDir + EXP_AddressOfNameOrdinals) ;
  let pNames := hModule + names in
  let pFunctions := hModule + functions in
  let pOrdinals := hModule + ordinals in
  do number <- load32 m (pExportDir + EXP_NumberOfNames) ;
  export_scan L fuel m hModule pNames pFunctions pOrdinals
    function_hash (Z.to_nat number) 0.

End PicMessageBox.


(** ** Memory that is written *)

Definition byte_of_Z (z : Z) : byte :=
  match Byte.of_N (Z.to_N (z mod 256)) with
  | Some b => b
  | None => x00
  end.

Definition load_byte (m : memory) (a : Z) : outcome byte :=
  match m a with
  | Some b => Ret b
  | None => Fault
  end.

Definition update (m : memory) (a : Z) (b : byte) : memory :=
  fun x => if x =? a then Some b else m x.

(** A write to an unmapped address faults like a read. *)
Definition store_byte (m : memory) (a : Z) (b : byte) : outcome memory :=
  match m a with
  | Some _ => Ret (update m a b)
  | None => Fault
  end.

Fixpoint store_le (n : nat) (m : memory) (a v : Z) : outcome memory :=
  match n with
  | O => Ret m
  | S n' =>
      do m' <- store_byte m a (byte_of_Z v) ;
      store_le n' m' (a + 1) (v / 256)
  end.

Definition store32 : memory -> Z -> Z -> outcome memory := store_le 4.

(** The [n] bytes a little-endian store of [v] writes. *)
Fixpoint le_bytes (n : nat) (v : Z) : list byte :=
  match n with
  | O => []
  | S n' => byte_of_Z v :: le_bytes n' (v / 256)
  end.

(** The bytes [bs] lie at address [a]. *)
Fixpoint bytes_at (m : memory) (a : Z) (bs : list byte) : Prop :=
  match bs with
  | [] => True
  | b :: bs' => m a = Some b /\ bytes_at m (a + 1) bs'
  end.

(** The [n] bytes at address [a] are mapped. *)
Fixpoint writable (m : memory) (a : Z) (n : nat) : Prop :=
  match n with
  | O => True
  | S n' => m a <> None /\ writable m (a + 1) n'
  end.

(** The same two, as tests. *)
Fixpoint check_bytes (m : memory) (a : Z) (bs : list byte) : bool :=
  match bs with
  | [] => true
  | b :: bs' =>
      match m a with
      | Some c => Byte.eqb c b && check_bytes m (a + 1) bs'
      | None => false
      end
  end.

Fixpoint check_writable (m : memory) (a : Z) (n : nat) : bool :=
  match n with
  | O => true
  | S n' =>
      match m a with
      | Some _ => check_writable m (a + 1) n'
      | None => false
      end
  end.

(** ** The capability example
    ([techniques/pico/POC/simple_pico_capability.c]) *)

(** [*str] for a string given by its characters: the terminator once
    the characters are used up. *)
Definition char_at (str : list byte) : Z :=
  match str with
  | [] => 0
  | c :: _ => char_value c
  end.

(** [my_strcmp]: advance while the characters are equal and not NUL,
    then return the difference of the two current characters. *)
Fixpoint my_strcmp (a b : list byte) : Z :=
  match a with
  | [] => char_at a - char_at b
  | _ :: a' =>
      if negb (char_at a =? 0) && (char_at a =? char_at b)
      then my_strcmp a' (tail b)
      else char_at a - char_at b
  end.

(** The [for] loop of [my_memcpy]; [n] is the number of iterations
    still to run. *)
Fixpoint my_memcpy_loop (n : nat) (m : memory) (d s i : Z) : outcome memory :=
  match n with
  | O => Ret m
  | S n' =>
      do c <- load_byte m (s + i) ;
      do m' <- store_byte m (d + i) c ;
      my_memcpy_loop n' m' d s (i + 1)
  end.

Definition my_memcpy (m : memory) (dest src n : Z) : outcome (Z * memory) :=
  do m' <- my_memcpy_loop (Z.to_nat n) m dest src 0 ;
  Ret (dest, m').

(** Where the linker has put the globals and the literals the
    capability uses. *)
Record pico_image := {
  g_config : Z;                  (* &g_config *)
  config_bin_start : Z;          (* _binary_config_bin_start *)
  config_bin_size : Z;           (* &_binary_config_bin_size *)
  str_explorer : Z;              (* the literal "explorer.exe" *)
  str_nul : Z                    (* the literal "\x00" *)
}.

(** The two string literals of the file, terminator included. *)
Definition lit_explorer : list byte := cstring "explorer.exe" ++ [x00].
Definition lit_nul : list byte := [x00; x00].

(** [CONFIG]: two [DWORD]s and a [char[256]]. *)
Definition CONFIG_sleep_time : Z := 0.
Definition CONFIG_max_iterations : Z := 4.
Definition CONFIG_target_process : Z := 8.
Definition sizeof_CONFIG : Z := 264.

Definition capability_init (img : pico_image) (m : memory) : outcome (Z * memory) :=
  do size <- load32 m (config_bin_size img) ;
  if sizeof_CONFIG <=? size then
    do r <- my_memcpy m (g_config img) (config_bin_start img) sizeof_CONFIG ;
    Ret (1, snd r)
  else
    do m <- store32 m (g_config img + CONFIG_sleep_time) 1000 ;
    do m <- store32 m (g_config img + CONFIG_max_iterations) 10 ;
    do r <- my_memcpy m (g_config img + CONFIG_target_process)
              (str_explorer img) 13 ;
    Ret (1, snd r).

(** The loop of [capability_execute].  [Sleep] is the one effect; its
    arguments are collected in call order.  The loop ends by itself,
    but its bound is read from memory, so it takes fuel. *)
Fixpoint execute_loop (fuel : nat) (img : pico_image) (m : memory) (i : Z)
    (sleeps : list Z) : outcome (list Z) :=
  match fuel with
  | O => OutOfFuel
  | S fuel' =>
      do max_iterations <- load32 m (g_config img + CONFIG_max_iterations) ;
      if i <? max_iterations then
        do sleep_time <- load32 m (g_config img + CONFIG_sleep_time) ;
        let sleeps := sleeps ++ [sleep_time] in
        do max_iterations <- load32 m (g_config img + CONFIG_max_iterations) ;
        if DWORD (max_iterations - 1) <=? i then Ret sleeps
        else execute_loop fuel' img m (DWORD (i + 1)) sleeps
      else Ret sleeps
  end.

Definition capability_execute (fuel : nat) (img : pico_image) (m : memory)
    : outcome (Z * list Z) :=
  do sleeps <- execute_loop fuel img m 0 [] ;
  Ret (1, sleeps).

Definition capability_cleanup (img : pico_image) (m : memory)
    : outcome (Z * memory) :=
  do r <- my_memcpy m (g_config img) (str_nul img) sizeof_CONFIG ;
  Ret (1, snd r).

(** [go]: the memory it leaves and the sleeps it has made. *)
Definition go (fuel : nat) (img : pico_image) (m : memory)
    : outcome (memory * list Z) :=
  do r <- capability_init img m ;
  if fst r =? 0 then Ret (snd r, [])
  else
    do e <- capability_execute fuel img (snd r) ;
    do c <- capability_cleanup img (snd r) ;
    Ret (snd c, snd e).

(** A concrete image: the configuration blob is absent (its size is
    0), and the literal ["\x00"] is followed in memory by the literal
    ["explorer.exe"] and further read-only data. *)
Module PicoDemo.

Definition img : pico_image :=
  {| g_config := 0x4000;
     config_bin_start := 0x6000;
     config_bin_size := 0x3000;
     str_explorer := 0x5002;
     str_nul := 0x5000 |}.

Definition rodata : list byte :=
  lit_nul ++ lit_explorer ++ repeat x2a 249.

Definition memory0 : memory :=
  Demo.mapped [ (0x3000, Demo.u32 0);
                (0x4000, repeat x00 264);
                (0x5000, rodata) ].

(** The same image with a blob of the size of [CONFIG] appended. *)
Definition blob : list byte :=
  Demo.u32 250 ++ Demo.u32 3 ++ Demo.asciz "notepad.exe" ++ repeat x00 244.

Definition memory_blob : memory :=
  Demo.mapped [ (0x3000, Demo.u32 264);
                (0x4000, repeat x00 264);
                (0x5000, rodata);
                (0x6000, blob) ].

End PicoDemo.


(** ** The gadget finder
    ([techniques/edr-evasion/call-stack-spoofing/POC/gadget_loader.c])

    The two finders differ in where the pattern comes from and in the
    [stack_cleanup] they report; the code between is the same and is
    modelled once ([scan_text]).  A [BYTE*] pattern is modelled by the
    bytes at the pointer, [None] for the null pointer.  [memcmp] and
    [memcpy] are the C library's: the comparison reads both sides up
    to the first difference, and a read past the end of the pattern
    array is a fault.  The copy into [gadget.pattern] is a copy into
    the struct: past the 16 bytes of the field it runs on over the
    fields that follow, and it is a fault once it leaves the struct. *)

Module Gadget.

Record GADGET_INFO := {
  address : Z;
  pattern : list byte;            (* BYTE pattern[16] *)
  pattern_length : Z;
  stack_cleanup : Z
}.

(** [GADGET_INFO gadget = {0};] *)
Definition zero_gadget : GADGET_INFO :=
  {| address := NULL; pattern := repeat x00 16;
     pattern_length := 0; stack_cleanup := 0 |}.

(** Offsets in [IMAGE_NT_HEADERS] and [IMAGE_SECTION_HEADER]; they are
    the same on both targets. *)
Definition NT_NumberOfSections : Z := 0x06.
Definition NT_SizeOfOptionalHeader : Z := 0x14.
Definition NT_OptionalHeader : Z := 0x18.
Definition sizeof_SECTION_HEADER : Z := 40.
Definition SECTION_Name : Z := 0.
Definition SECTION_VirtualSize : Z := 8.
Definition SECTION_VirtualAddress : Z := 12.

Definition text_name : list byte := cstring ".text".

(** [call r10; xor eax,eax; add rsp,0x28; ret] *)
Definition call_r10_pattern : list byte :=
  [x41; xff; xd2; x33; xc0; x48; x83; xc4; x28; xc3].

(** [memcmp(a, bs, sizeof bs) == 0] *)
Fixpoint memcmp_equal (m : memory) (a : Z) (bs : list byte) : outcome bool :=
  match bs with
  | [] => Ret true
  | b :: bs' =>
      do x <- load_byte m a ;
      if Byte.eqb x b then memcmp_equal m (a + 1) bs' else Ret false
  end.

(** The first [n] bytes of the array behind a pointer. *)
Definition first_bytes (bs : list byte) (n : Z) : outcome (list byte) :=
  if (0 <=? n) && (n <=? Z.of_nat (length bs)) then Ret (take (Z.to_nat n) bs)
  else Fault.

(** The bytes [src] written over the beginning of [dst]. *)
Definition overlay (src dst : list byte) : list byte :=
  take (length dst) (src ++ drop (length src) dst).

(** The value of little-endian bytes. *)
Definition le_value (bs : list byte) : Z :=
  fold_right (fun b hi => byte_value b + 256 * hi) 0 bs.

(** The loop over the section table; [n] is the number of iterations
    still to run.  The result is [text_section]. *)
Fixpoint find_text_section (n : nat) (m : memory) (section i : Z) : outcome Z :=
  match n with
  | O => Ret NULL
  | S n' =>
      let entry := section + sizeof_SECTION_HEADER * i in
      do same <- memcmp_equal m (entry + SECTION_Name) text_name ;
      if same then Ret entry
      else find_text_section n' m section (i + 1)
  end.

Section Finder.

Variable L : layout.

Definition SIZE_T (z : Z) : Z := z mod 2 ^ (8 * Z.of_nat (pointer_bytes L)).

(** The scan [for (SIZE_T i = 0; i < size - pattern_len; i++)]: the
    address of the first match, if the loop finds one. *)
Fixpoint gadget_scan (fuel : nat) (m : memory) (start bound : Z)
    (pattern : list byte) (pattern_len : Z) (i : Z) : outcome (option Z) :=
  match fuel with
  | O => OutOfFuel
  | S fuel' =>
      if i <? bound then
        do bytes <- first_bytes pattern pattern_len ;
        do same <- memcmp_equal m (start + i) bytes ;
        if same then Ret (Some (start + i))
        else gadget_scan fuel' m start bound pattern pattern_len (SIZE_T (i + 1))
      else Ret None
  end.

(** From the headers to the end of the scan. *)
Definition scan_text (fuel : nat) (m : memory) (hModule : Z)
    (pattern : list byte) (pattern_len : Z) : outcome (option Z) :=
  let dos_header := hModule in
  do e_lfanew <- load32 m (dos_header + DOS_e_lfanew) ;
  let nt_headers := hModule + LONG e_lfanew in
  do optional_size <- load16 m (nt_headers + NT_SizeOfOptionalHeader) ;
  let section := nt_headers + NT_OptionalHeader + optional_size in
  do sections <- load16 m (nt_headers + NT_NumberOfSections) ;
  do text_section <- find_text_section (Z.to_nat sections) m section 0 ;
  if text_section =? NULL then Ret None
  else
    do virtual_address <- load32 m (text_section + SECTION_VirtualAddress) ;
    let start := hModule + virtual_address in
    do size <- load32 m (text_section + SECTION_VirtualSize) ;
    gadget_scan fuel m start (SIZE_T (size - pattern_len)) pattern pattern_len 0.

(** The padding that rounds [sizeof(GADGET_INFO)] up to a multiple of
    the pointer size: 4 bytes on the 64-bit target, none on the
    32-bit one. *)
Definition GADGET_padding : nat := (pointer_bytes L - 4) mod pointer_bytes L.

(** [memcpy(gadget.pattern, pattern, pattern_len)].  In the struct the
    16-byte field is followed by [pattern_length] (a [size_t]),
    [stack_cleanup] (a [DWORD]) and the padding: a copy of more than
    16 bytes overwrites them from their low bytes on. *)
Definition copy_pattern (gadget : GADGET_INFO) (pattern : list byte)
    (pattern_len : Z) : outcome GADGET_INFO :=
  let w := pointer_bytes L in
  do bytes <- first_bytes pattern pattern_len ;
  if (length bytes <=? 16 + w + 4 + GADGET_padding)%nat then
    Ret {| address := gadget.(address);
           pattern := overlay bytes gadget.(Gadget.pattern);
           pattern_length :=
             le_value (overlay (drop 16 bytes)
                         (le_bytes w gadget.(pattern_length)));
           stack_cleanup :=
             le_value (overlay (drop (16 + w) bytes)
                         (le_bytes 4 gadget.(stack_cleanup))) |}
  else Fault.

Definition find_gadget_by_pattern (fuel : nat) (m : memory) (hModule : Z)
    (pattern : option (list byte)) (pattern_len : Z) : outcome GADGET_INFO :=
  match pattern with
  | None => Ret zero_gadget
  | Some pattern =>
      if hModule =? NULL then Ret zero_gadget
      else
        do found <- scan_text fuel m hModule pattern pattern_len ;
        match found with
        | Some a =>
            copy_pattern
              {| address := a; pattern := repeat x00 16;
                 pattern_length := pattern_len; stack_cleanup := 0 |}
              pattern pattern_len
        | None => Ret zero_gadget
        end
  end.

Definition find_call_r10_gadget (fuel : nat) (m : memory) (hModule : Z)
    : outcome GADGET_INFO :=
  let pattern := call_r10_pattern in
  if hModule =? NULL then Ret zero_gadget
  else
    do found <- scan_text fuel m hModule pattern (Z.of_nat (length pattern)) ;
    match found with
    | Some a =>
        copy_pattern
          {| address := a; pattern := repeat x00 16;
             pattern_length := Z.of_nat (length pattern);
             stack_cleanup := 0x28 |}
          pattern (Z.of_nat (length pattern))
    | None => Ret zero_gadget
    end.

(** *** Views *)

(** A section header: its 8-byte name, its size in memory and its
    offset from the module base. *)
Record SectionHeader := {
  sec_name : list byte;
  sec_size : Z;
  sec_rva : Z
}.

(** The section table holds [secs] from index [i] on. *)
Inductive section_table (m : memory) (section : Z)
    : Z -> list SectionHeader -> Prop :=
| sections_end (i : Z) : section_table m section i []
| sections_entry (i : Z) (s : SectionHeader) (secs : list SectionHeader) :
    length (sec_name s) = 8%nat ->
    bytes_at m (section + sizeof_SECTION_HEADER * i + SECTION_Name) (sec_name s) ->
    load32 m (section + sizeof_SECTION_HEADER * i + SECTION_VirtualSize)
      = Ret (sec_size s) ->
    load32 m (section + sizeof_SECTION_HEADER * i + SECTION_VirtualAddress)
      = Ret (sec_rva s) ->
    section_table m section (i + 1) secs ->
    section_table m section i (s :: secs).

(** An image at [hModule] with the section table [secs] at a
    positive address. *)
Definition sectioned_image (m : memory) (hModule : Z)
    (secs : list SectionHeader) : Prop :=
  exists e_lfanew optional_size,
    load32 m (hModule + DOS_e_lfanew) = Ret e_lfanew /\
    load16 m (hModule + LONG e_lfanew + NT_SizeOfOptionalHeader)
      = Ret optional_size /\
    load16 m (hModule + LONG e_lfanew + NT_NumberOfSections)
      = Ret (Z.of_nat (length secs)) /\
    0 < hModule + LONG e_lfanew + NT_OptionalHeader + optional_size /\
    section_table m (hModule + LONG e_lfanew + NT_OptionalHeader + optional_size)
      0 secs.

(** The name begins with [".text"]. *)
Definition is_text (s : SectionHeader) : Prop :=
  take 5 (sec_name s) = text_name.

(** The pattern lies at offset [j] of the bytes [code]. *)
Definition occurs_at (code pat : list byte) (j : nat) : Prop :=
  take (length pat) (drop j code) = pat.

End Finder.

End Gadget.

Module GadgetDemo.

Definition name8 (s : string) : list byte :=
  take 8 (cstring s ++ repeat x00 8).

(** An image with a [.rdata] and a [.text] section of 32 bytes; the
    pattern lies at offset 5 and again in the last ten bytes of the
    section, and once more after its end. *)
Definition headers (text_name : string) (text_size : Z) : list (Z * list byte) :=
  [ (0x3003C, Demo.u32 0x80);
    (0x30086, Demo.u16 2);                      (* NumberOfSections *)
    (0x30094, Demo.u16 0xF0);                   (* SizeOfOptionalHeader *)
    (0x30188, name8 ".rdata" ++ Demo.u32 0x100 ++ Demo.u32 0x2000);
    (0x301B0, name8 text_name ++ Demo.u32 text_size ++ Demo.u32 0x1000) ].

Definition base : Z := 0x30000.

Definition sec_rdata : Gadget.SectionHeader :=
  {| Gadget.sec_name := name8 ".rdata"; Gadget.sec_size := 0x100;
     Gadget.sec_rva := 0x2000 |}.

Definition sec_text (text_name : string) (text_size : Z) : Gadget.SectionHeader :=
  {| Gadget.sec_name := name8 text_name; Gadget.sec_size := text_size;
     Gadget.sec_rva := 0x1000 |}.

Definition filler (n : nat) : list byte := repeat x90 n.

Definition code_two : list byte :=
  filler 5 ++ Gadget.call_r10_pattern ++ filler 7 ++ Gadget.call_r10_pattern.

Definition code_last : list byte := filler 22 ++ Gadget.call_r10_pattern.

Definition image_two : memory :=
  Demo.mapped (headers ".text" 32 ++ [ (0x31000, code_two) ]).

Definition image_last : memory :=
  Demo.mapped (headers ".textbss" 32 ++ [ (0x31000, code_last) ]).

(** A [.text] of 4 bytes, shorter than the pattern, with the pattern
    in the bytes that follow the section. *)
Definition code_short : list byte := filler 8 ++ Gadget.call_r10_pattern.

Definition image_short : memory :=
  Demo.mapped (headers ".text" 4 ++ [ (0x31000, code_short) ]).

(** An image whose sections are [.rdata] and [.code]. *)
Definition image_none : memory :=
  Demo.mapped (headers ".code" 32 ++ [ (0x31000, code_two) ]).

End GadgetDemo.

(** * Properties *)

(** ** Hash engine *)

Section HashFacts.

Lemma DWORD_range (z : Z) : 0 <= DWORD z < 2 ^ 32.
Proof. unfold DWORD. apply Z.mod_pos_bound. lia. Qed.

Lemma DWORD_small (z : Z) : 0 <= z < 2 ^ 32 -> DWORD z = z.
Proof. intros H. unfold DWORD. apply Z.mod_small. exact H. Qed.

(** Two words with no bit in common are or-ed by adding them. *)
Lemma lor_disjoint_add (hi lo k : Z) :
  0 <= k -> 0 <= hi < 2 ^ k -> Z.lor hi (lo * 2 ^ k) = hi + lo * 2 ^ k.
Proof.
  intros Hk Hhi.
  assert (Hland : Z.land hi (lo * 2 ^ k) = 0).
  { apply Z.bits_inj'. intros n Hn.
    rewrite Z.land_spec, Z.bits_0.
    destruct (Z.lt_ge_cases n k) as [Hlt | Hge].
    - rewrite (Z.mul_pow2_bits_low lo k n) by lia. apply andb_false_r.
    - rewrite <- (Z.mod_small hi (2 ^ k)) by lia.
      rewrite Z.mod_pow2_bits_high by lia. reflexivity. }
  pose proof (Z.add_lor_land hi (lo * 2 ^ k)) as Hadd.
  rewrite Hland in Hadd. lia.
Qed.

(** The shift-and-or expression of the source is the rotation. *)
Lemma ror13_rotr32 (x : Z) : 0 <= x < 2 ^ 32 -> ror13 x = rotr32 x 13.
Proof.
  intros Hx. unfold ror13, rotr32, DWORD.
  rewrite Z.shiftr_div_pow2, Z.shiftl_mul_pow2 by lia.
  replace (2 ^ 32) with (2 ^ 13 * 2 ^ (32 - 13)) by reflexivity.
  rewrite Z.mul_mod_distr_r by lia.
  apply lor_disjoint_add; [lia |].
  split.
  - apply Z.div_pos; lia.
  - apply Z.div_lt_upper_bound; lia.
Qed.

(** [rotr32] moves bit [i + 13] (modulo 32) to bit [i]. *)
Lemma rotr32_13_bits (x i : Z) :
  0 <= x < 2 ^ 32 -> 0 <= i < 32 ->
  Z.testbit (rotr32 x 13) i = Z.testbit x ((i + 13) mod 32).
Proof.
  intros Hx Hi. unfold rotr32.
  assert (Hq : 0 <= x / 2 ^ 13 < 2 ^ 19).
  { split; [apply Z.div_pos; lia | apply Z.div_lt_upper_bound; lia]. }
  rewrite <- (lor_disjoint_add (x / 2 ^ 13) (x mod 2 ^ 13) (32 - 13)) by lia.
  rewrite Z.lor_spec.
  destruct (Z.lt_ge_cases i 19) as [Hlt | Hge].
  - rewrite Z.mul_pow2_bits_low by lia. rewrite orb_false_r.
    rewrite Z.div_pow2_bits by lia.
    rewrite Z.mod_small by lia. reflexivity.
  - rewrite Z.mul_pow2_bits by lia.
    replace (Z.testbit (x / 2 ^ 13) i) with false.
    + simpl orb. rewrite Z.mod_pow2_bits_low by lia.
      f_equal.
      replace (i + 13) with ((i - 19) + 1 * 32) by lia.
      rewrite Z.mod_add by lia. rewrite Z.mod_small; lia.
    + symmetry. rewrite <- (Z.mod_small (x / 2 ^ 13) (2 ^ 19)) by lia.
      apply Z.mod_pow2_bits_high. lia.
Qed.

Lemma rotr32_range (x : Z) : 0 <= x < 2 ^ 32 -> 0 <= rotr32 x 13 < 2 ^ 32.
Proof.
  intros Hx. unfold rotr32.
  assert (0 <= x / 2 ^ 13 < 2 ^ 19).
  { split; [apply Z.div_pos; lia | apply Z.div_lt_upper_bound; lia]. }
  assert (0 <= x mod 2 ^ 13 < 2 ^ 13) by (apply Z.mod_pos_bound; lia).
  change (2 ^ (32 - 13)) with 524288. change (2 ^ 32) with 4294967296.
  change (2 ^ 19) with 524288 in *. change (2 ^ 13) with 8192 in *.
  lia.
Qed.

Lemma byte_value_range (b : byte) : 0 <= byte_value b < 256.
Proof.
  unfold byte_value. pose proof (Byte.to_N_bounded b) as H. lia.
Qed.

(** [(DWORD)(char)b], computed. *)
Lemma DWORD_char_value (b : byte) : DWORD (char_value b) = sign_extended b.
Proof.
  pose proof (byte_value_range b) as Hb.
  unfold char_value, sign_extended, DWORD.
  destruct (Z.leb_spec 128 (byte_value b)), (Z.ltb_spec (byte_value b) 128);
    try lia.
  - replace (byte_value b - 256) with (byte_value b + 0xFFFFFF00 + (-1) * 2 ^ 32) by lia.
    rewrite Z.mod_add by lia. apply Z.mod_small. lia.
  - apply Z.mod_small. lia.
Qed.

Lemma char_value_zero (b : byte) : (char_value b =? 0) = (byte_value b =? 0).
Proof.
  pose proof (byte_value_range b) as Hb. unfold char_value.
  destruct (Z.leb_spec 128 (byte_value b));
    destruct (Z.eqb_spec (byte_value b) 0);
    destruct (Z.eqb_spec (byte_value b - 256) 0); try reflexivity; lia.
Qed.

(** The loop of [ror13_hash], from any accumulator, as the fold of the
    reference step over the sign-extended characters. *)
Lemma ror13_loop_fold (str : list byte) (hash : Z) :
  0 <= hash < 2 ^ 32 ->
  ror13_loop hash str
  = fold_left reference_step (map sign_extended (c_chars str)) hash.
Proof.
  revert hash. induction str as [| c str IH]; intros hash Hh; simpl.
  - reflexivity.
  - rewrite char_value_zero.
    destruct (byte_value c =? 0); [reflexivity |].
    simpl. rewrite IH by apply DWORD_range.
    f_equal. unfold reference_step.
    rewrite DWORD_char_value, ror13_rotr32 by exact Hh. reflexivity.
Qed.

Lemma reference_fold_range (cs : list Z) (acc : Z) :
  0 <= acc < 2 ^ 32 -> 0 <= fold_left reference_step cs acc < 2 ^ 32.
Proof.
  revert acc. induction cs as [| c cs IH]; intros acc Hacc; simpl.
  - exact Hacc.
  - apply IH. unfold reference_step. apply Z.mod_pos_bound. lia.
Qed.

Lemma sign_extended_ascii (str : list byte) :
  Forall (fun c => byte_value c < 128) str ->
  map sign_extended (c_chars str) = map byte_value (c_chars str).
Proof.
  induction 1 as [| c str Hc _ IH]; simpl; [reflexivity |].
  destruct (byte_value c =? 0); [reflexivity |].
  simpl. rewrite IH. f_equal. unfold sign_extended.
  destruct (Z.ltb_spec (byte_value c) 128); [reflexivity | lia].
Qed.

(** Upper-casing is idempotent, so folding a unit before the hash folds
    it changes nothing. *)
Lemma to_upper_idempotent (c : Z) : to_upper (to_upper c) = to_upper c.
Proof.
  unfold to_upper.
  destruct ((97 <=? c) && (c <=? 122)) eqn:E.
  - apply andb_true_iff in E as [H1 H2].
    apply Z.leb_le in H1. apply Z.leb_le in H2.
    replace (97 <=? c - 32) with false; [reflexivity |].
    symmetry. apply Z.leb_gt. lia.
  - rewrite E. reflexivity.
Qed.

Lemma unicode_ror13_loop_upcase (n : nat) (mask : list bool) (ws : list Z) (hash : Z) :
  unicode_ror13_loop n (upcase_some mask ws) hash = unicode_ror13_loop n ws hash.
Proof.
  revert mask ws hash. induction n as [| n IH]; intros mask ws hash.
  - destruct (upcase_some mask ws), ws; reflexivity.
  - destruct mask as [| b mask], ws as [| c ws]; try reflexivity.
    simpl. rewrite IH.
    destruct b; [rewrite to_upper_idempotent |]; reflexivity.
Qed.

(** On characters that are ASCII and not lower case the two loops run
    in lockstep, up to the terminator of the narrow string. *)
Lemma narrow_wide_loop (str : list byte) (hash : Z) :
  Forall plain_ascii str ->
  ror13_loop hash str
  = unicode_ror13_loop (length (c_chars str)) (wide (c_chars str)) hash.
Proof.
  intros H. revert hash.
  induction H as [| c str [Hc Hl] _ IH]; intros hash; simpl; [reflexivity |].
  rewrite char_value_zero.
  destruct (Z.eqb_spec (byte_value c) 0); [reflexivity |].
  simpl. rewrite IH. f_equal. f_equal. f_equal.
  rewrite DWORD_char_value. unfold sign_extended, to_upper.
  destruct (Z.ltb_spec (byte_value c) 128); [| lia].
  destruct (Z.leb_spec 97 (byte_value c)), (Z.leb_spec (byte_value c) 122);
    simpl; try reflexivity; lia.
Qed.

Lemma c_chars_no_nul (str : list byte) :
  Forall (fun c => byte_value c <> 0) str -> c_chars str = str.
Proof.
  induction 1 as [| c str Hc _ IH]; simpl; [reflexivity |].
  destruct (Z.eqb_spec (byte_value c) 0); [contradiction |].
  rewrite IH. reflexivity.
Qed.

End HashFacts.

(** C1. The hash functions evaluated on the three golden inputs.
    [ror13_hash "VirtualAlloc"] is the constant the source hard-codes,
    [0x91AFCA54].  The other two are not: [ror13_hash "CreateThread"]
    is [0xCA2BD06B] where the source has [HASH_CREATETHREAD =
    0x3F9287AE], and [unicode_ror13_hash] of ["KERNEL32.DLL"] is
    [0x6E2BCA17] where the source has [HASH_KERNEL32 = 0x6A4ABC5B]. *)
Theorem golden_vectors :
  ror13_hash (cstring "VirtualAlloc") = HASH_VIRTUALALLOC /\
  ror13_hash (cstring "CreateThread") = 0xCA2BD06B /\
  ror13_hash (cstring "CreateThread") <> HASH_CREATETHREAD /\
  unicode_ror13_hash (unicode_string (wide (cstring "KERNEL32.DLL"))) = 0x6E2BCA17 /\
  unicode_ror13_hash (unicode_string (wide (cstring "KERNEL32.DLL"))) <> HASH_KERNEL32.
Proof.
  repeat split; try (vm_compute; reflexivity); vm_compute; discriminate.
Qed.

(** C2, as stated, fails on a byte of 128 or more: the source adds the
    sign-extended [char], [0xFFFFFF80] for the byte [0x80], where the
    reference fold adds the unsigned value [0x80]. *)
Lemma ror13_hash_unsigned_counterexample :
  ror13_hash [x80] <> reference_fold (map byte_value (c_chars [x80])).
Proof. vm_compute. discriminate. Qed.

(** C2 (amended). For every NUL-terminated byte string, [ror13_hash] is
    the fold that starts the 32-bit accumulator at 0 and, for each
    character in order, rotates the accumulator right by 13 bits and
    adds the character converted from [char] to 32 bits, with
    wraparound: the unsigned value of a byte below 128, the unsigned
    value plus [0xFFFFFF00] of a byte from 128 on.  On strings whose
    bytes are all below 128 this is the fold over the unsigned values.
    The result is always a 32-bit value, and the hash is
    case-sensitive. *)
Theorem ror13_hash_reference (str : list byte) :
  ror13_hash str = reference_fold (map sign_extended (c_chars str)) /\
  (Forall (fun c => byte_value c < 128) str ->
   ror13_hash str = reference_fold (map byte_value (c_chars str))) /\
  0 <= ror13_hash str < 2 ^ 32 /\
  ror13_hash (cstring "Sleep") <> ror13_hash (cstring "sleep").
Proof.
  assert (Hfold : ror13_hash str = reference_fold (map sign_extended (c_chars str))).
  { unfold ror13_hash, reference_fold. apply ror13_loop_fold. lia. }
  split; [exact Hfold |]. split; [| split].
  - intros Hascii. rewrite Hfold. rewrite sign_extended_ascii by exact Hascii.
    reflexivity.
  - rewrite Hfold. apply reference_fold_range. lia.
  - vm_compute. discriminate.
Qed.

Lemma ror13_hash_reference_witness :
  ror13_hash (cstring "VirtualAlloc")
  = reference_fold (map byte_value (c_chars (cstring "VirtualAlloc"))).
Proof.
  apply (proj1 (proj2 (ror13_hash_reference (cstring "VirtualAlloc")))).
  repeat constructor.
Defined.

(** C3. [unicode_ror13_hash] is case-insensitive over ASCII letters:
    whatever the [Length] and the code units, upper-casing the units
    in ['a'..'z'] at any chosen set of positions leaves the hash
    unchanged; in particular ["KERNEL32.DLL"] and ["kernel32.dll"]
    hash alike. *)
Theorem unicode_ror13_hash_case_insensitive :
  (forall (len : Z) (ws : list Z) (mask : list bool),
      unicode_ror13_hash {| Length := len; Buffer := upcase_some mask ws |}
      = unicode_ror13_hash {| Length := len; Buffer := ws |}) /\
  unicode_ror13_hash (unicode_string (wide (cstring "KERNEL32.DLL")))
  = unicode_ror13_hash (unicode_string (wide (cstring "kernel32.dll"))).
Proof.
  split.
  - intros len ws mask. unfold unicode_ror13_hash. simpl.
    apply unicode_ror13_loop_upcase.
  - vm_compute. reflexivity.
Qed.

(** C10. On an ASCII string without lower-case letters (every
    character below 128 and outside ['a'..'z']) the narrow hash of the
    bytes is the wide hash of the same characters as 16-bit units.
    The characters of the narrow string are those before its
    terminator; for a list of bytes without NUL that is the whole
    list. *)
Theorem narrow_wide_agree (str : list byte) :
  Forall plain_ascii str ->
  ror13_hash str = unicode_ror13_hash (unicode_string (wide (c_chars str))) /\
  (Forall (fun c => byte_value c <> 0) str ->
   ror13_hash str = unicode_ror13_hash (unicode_string (wide str))).
Proof.
  intros H.
  assert (Hchars : ror13_hash str
                   = unicode_ror13_hash (unicode_string (wide (c_chars str)))).
  { unfold ror13_hash, unicode_ror13_hash, unicode_string.
    cbn [Length Buffer].
    replace (Z.to_nat (2 * Z.of_nat (length (wide (c_chars str))) / 2))
      with (length (c_chars str)).
    - apply narrow_wide_loop. exact H.
    - unfold wide. rewrite length_map.
      rewrite Z.mul_comm, Z.div_mul by lia. lia. }
  split; [exact Hchars |].
  intros Hnul. rewrite Hchars, c_chars_no_nul by exact Hnul. reflexivity.
Qed.

(** The module name the hash generator of the source feeds to the
    narrow hash. *)
Lemma narrow_wide_agree_witness :
  ror13_hash (cstring "KERNEL32.DLL")
  = unicode_ror13_hash (unicode_string (wide (cstring "KERNEL32.DLL"))).
Proof.
  apply (narrow_wide_agree (cstring "KERNEL32.DLL")).
  - repeat constructor; vm_compute; try discriminate;
      intros [H1 H2]; try (apply H1; reflexivity); apply H2; reflexivity.
  - repeat constructor; vm_compute; discriminate.
Defined.

(** ** Module enumerator *)

Section ModuleFacts.

Variable L : layout.

Lemma module_walk_head (fuel : nat) (m : memory) (pListHead target : Z) :
  module_walk L (S fuel) m pListHead pListHead target = Ret NULL.
Proof. simpl. rewrite Z.eqb_refl. reflexivity. Qed.

(** Walking over a run of entries that do not match costs one unit of
    fuel each and leaves the walk at the end of the run. *)
Lemma module_walk_skip (m : memory) (pListHead stop first target : Z)
    (pre : list ModuleRecord) :
  module_segment L m pListHead stop first pre ->
  Forall (fun md => ~ module_matches target md) pre ->
  forall fuel : nat,
    module_walk L (length pre + fuel) m pListHead first target
    = module_walk L fuel m pListHead stop target.
Proof.
  induction 1 as [| e next md mods Hne Hname Hbase Hnext _ IH];
    intros Hpre fuel.
  - reflexivity.
  - inversion Hpre as [| ? ? Hmd Hrest]; subst.
    cbn [length Nat.add module_walk].
    destruct (Z.eqb_spec e pListHead) as [| _]; [contradiction |].
    rewrite Hname. cbn [bind].
    destruct (Z.eqb_spec (unicode_ror13_hash (BaseDllName md)) target) as [Heq | _].
    + exfalso. apply Hmd. exact Heq.
    + rewrite Hnext. cbn [bind]. apply IH. exact Hrest.
Qed.

(** A segment can be cut at any entry. *)
Lemma module_segment_split (m : memory) (pListHead stop first : Z)
    (pre post : list ModuleRecord) :
  module_segment L m pListHead stop first (pre ++ post) ->
  exists mid,
    module_segment L m pListHead mid first pre /\
    module_segment L m pListHead stop mid post.
Proof.
  revert first. induction pre as [| md pre IH]; intros first H.
  - exists first. split; [constructor | exact H].
  - inversion H as [| e next md' mods Hne Hname Hbase Hnext Hrest]; subst.
    destruct (IH next Hrest) as (mid & Hpre & Hpost).
    exists mid. split; [| exact Hpost].
    econstructor; eassumption.
Qed.

Lemma module_walk_match (fuel : nat) (m : memory) (pListHead stop e target : Z)
    (md : ModuleRecord) (post : list ModuleRecord) :
  module_segment L m pListHead stop e (md :: post) ->
  module_matches target md ->
  module_walk L (S fuel) m pListHead e target = Ret (DllBase md).
Proof.
  intros H Hmd.
  inversion H as [| ? next ? ? Hne Hname Hbase Hnext _]; subst.
  cbn [module_walk].
  destruct (Z.eqb_spec e pListHead) as [| _]; [contradiction |].
  rewrite Hname. cbn [bind].
  unfold module_matches in Hmd. rewrite Hmd, Z.eqb_refl.
  exact Hbase.
Qed.

Lemma find_module_by_hash_anchor (fuel : nat) (p : process)
    (pListHead first target : Z) :
  list_anchor L p pListHead first ->
  find_module_by_hash L fuel p target
  = module_walk L fuel (mem p) pListHead first target.
Proof.
  intros (pLdr & HLdr & -> & Hfirst).
  unfold find_module_by_hash. rewrite HLdr. cbn [bind].
  rewrite Hfirst. reflexivity.
Qed.

Lemma find_module_by_hash_found (fuel : nat) (p : process) (target : Z)
    (pre post : list ModuleRecord) (md : ModuleRecord) :
  loaded_modules L p (pre ++ md :: post) ->
  (length pre < fuel)%nat ->
  Forall (fun x => ~ module_matches target x) pre ->
  module_matches target md ->
  find_module_by_hash L fuel p target = Ret (DllBase md).
Proof.
  intros (pListHead & first & Hanchor & Hseg) Hfuel Hpre Hmd.
  rewrite (find_module_by_hash_anchor _ _ _ _ _ Hanchor).
  destruct (module_segment_split _ _ _ _ _ _ Hseg) as (mid & Hs1 & Hs2).
  replace fuel with (length pre + S (fuel - S (length pre)))%nat by lia.
  rewrite (module_walk_skip _ _ _ _ _ _ Hs1 Hpre).
  eapply module_walk_match; eassumption.
Qed.

Lemma find_module_by_hash_not_found (fuel : nat) (p : process) (target : Z)
    (mods : list ModuleRecord) :
  loaded_modules L p mods ->
  (length mods < fuel)%nat ->
  Forall (fun x => ~ module_matches target x) mods ->
  find_module_by_hash L fuel p target = Ret NULL.
Proof.
  intros (pListHead & first & Hanchor & Hseg) Hfuel Hnone.
  rewrite (find_module_by_hash_anchor _ _ _ _ _ Hanchor).
  replace fuel with (length mods + S (fuel - S (length mods)))%nat by lia.
  rewrite (module_walk_skip _ _ _ _ _ _ Hseg Hnone).
  apply module_walk_head.
Qed.

Lemma find_function_by_hash_null (fuel : nat) (m : memory) (target : Z) :
  find_function_by_hash L fuel m NULL target = Ret NULL.
Proof. reflexivity. Qed.

(** C4. On a process whose list holds the modules [mods], with fuel
    for one full traversal, [find_module_by_hash] returns the base of
    the first module in list order whose base name hashes (with the
    wide hash) to the target; when no module matches it returns NULL,
    the not-found outcome, and a [resolve_cached] call that consults it
    (a call the cache does not answer) returns that NULL and leaves
    the cache as it was. *)
Theorem find_module_first_match (p : process) (mods : list ModuleRecord)
    (target : Z) (fuel : nat) :
  loaded_modules L p mods ->
  (length mods < fuel)%nat ->
  (forall pre md post,
      mods = pre ++ md :: post ->
      Forall (fun x => ~ module_matches target x) pre ->
      module_matches target md ->
      find_module_by_hash L fuel p target = Ret (DllBase md)) /\
  (Forall (fun x => ~ module_matches target x) mods ->
   find_module_by_hash L fuel p target = Ret NULL /\
   forall (fh : Z) (st : cache) (k : probe),
     cache_lookup st target fh = Ret None ->
     resolve_cached L fuel p target fh st k
     = Ret (NULL, st, count_export_scan (count_module_walk k))).
Proof.
  intros Hmods Hfuel. split.
  - intros pre md post -> Hpre Hmd.
    rewrite length_app in Hfuel. simpl in Hfuel.
    eapply find_module_by_hash_found; try eassumption. lia.
  - intros Hnone.
    assert (Hnf : find_module_by_hash L fuel p target = Ret NULL)
      by (eapply find_module_by_hash_not_found; eassumption).
    split; [exact Hnf |].
    intros fh st k Hmiss. unfold resolve_cached.
    rewrite Hmiss. cbn [bind]. rewrite Hnf. cbn [bind].
    rewrite find_function_by_hash_null. reflexivity.
Qed.

(** C5 (amended). [find_module_by_hash] validates nothing it reads.
    When the [Ldr] field of the PEB cannot be read, when the list head
    it designates cannot be read (a null [Ldr] with nothing mapped at
    low addresses is such a case), or when the walk, having passed
    entries that do not match, reaches a link whose entry name cannot
    be read, the read is attempted all the same and the call faults:
    no value, NULL or other, is returned. *)
Theorem find_module_unchecked_reads (p : process) (target : Z) (fuel : nat) :
  (load_ptr L (mem p) (peb p + PEB_Ldr L) = Fault ->
   find_module_by_hash L fuel p target = Fault) /\
  (forall pLdr,
      load_ptr L (mem p) (peb p + PEB_Ldr L) = Ret pLdr ->
      load_ptr L (mem p) (pLdr + LDR_InMemoryOrderModuleList L + LIST_Flink) = Fault ->
      find_module_by_hash L fuel p target = Fault) /\
  (forall pListHead first e pre,
      list_anchor L p pListHead first ->
      module_segment L (mem p) pListHead e first pre ->
      Forall (fun x => ~ module_matches target x) pre ->
      e <> pListHead ->
      load_unicode_string L (mem p)
        (e - ENTRY_InMemoryOrderLinks L + ENTRY_BaseDllName L) = Fault ->
      (length pre < fuel)%nat ->
      find_module_by_hash L fuel p target = Fault).
Proof.
  split; [| split].
  - intros H. unfold find_module_by_hash. rewrite H. reflexivity.
  - intros pLdr H1 H2. unfold find_module_by_hash.
    rewrite H1. cbn [bind]. rewrite H2. reflexivity.
  - intros pListHead first e pre Hanchor Hseg Hpre Hne Hname Hfuel.
    rewrite (find_module_by_hash_anchor _ _ _ _ _ Hanchor).
    replace fuel with (length pre + S (fuel - S (length pre)))%nat by lia.
    rewrite (module_walk_skip _ _ _ _ _ _ Hseg Hpre).
    cbn [module_walk].
    destruct (Z.eqb_spec e pListHead) as [| _]; [contradiction |].
    rewrite Hname. reflexivity.
Qed.

End ModuleFacts.

(** ** Export scanner *)

Section ExportFacts.

Variable L : layout.

Lemma load_cstr_at (m : memory) (a : Z) (str : list byte) :
  cstr_at m a str ->
  forall fuel : nat, (length str < fuel)%nat -> load_cstr fuel m a = Ret str.
Proof.
  induction 1 as [a c Hc Hz | a c str Hc Hnz _ IH]; intros fuel Hfuel.
  - destruct fuel as [| fuel]; [simpl in Hfuel; lia |].
    simpl. rewrite Hc, Hz. reflexivity.
  - destruct fuel as [| fuel]; [simpl in Hfuel; lia |].
    simpl in Hfuel. simpl. rewrite Hc.
    destruct (Z.eqb_spec (byte_value c) 0) as [| _]; [contradiction |].
    rewrite IH by lia. reflexivity.
Qed.

Lemma export_entries_split (m : memory) (hModule pNames pFunctions pOrdinals i : Z)
    (pre post : list ExportEntry) :
  export_entries m hModule pNames pFunctions pOrdinals i (pre ++ post) ->
  export_entries m hModule pNames pFunctions pOrdinals i pre /\
  export_entries m hModule pNames pFunctions pOrdinals
    (i + Z.of_nat (length pre)) post.
Proof.
  revert i. induction pre as [| e pre IH]; intros i H.
  - simpl. rewrite Z.add_0_r. split; [constructor | exact H].
  - inversion H as [| ? name_rva ? ? Hn Hs Ho Hf Hrest]; subst.
    destruct (IH _ Hrest) as [Hpre Hpost]. split.
    + econstructor; eassumption.
    + replace (i + Z.of_nat (length (e :: pre)))
        with (i + 1 + Z.of_nat (length pre)) by (simpl length; lia).
      exact Hpost.
Qed.

(** Scanning over names that do not match moves the index on by their
    number. *)
Lemma export_scan_skip (fuel : nat) (m : memory)
    (hModule pNames pFunctions pOrdinals target i : Z) (pre : list ExportEntry) :
  export_entries m hModule pNames pFunctions pOrdinals i pre ->
  Forall (fun e => ~ export_matches target e) pre ->
  Forall (name_fits fuel) pre ->
  forall n : nat,
    export_scan L fuel m hModule pNames pFunctions pOrdinals target
      (length pre + n) i
    = export_scan L fuel m hModule pNames pFunctions pOrdinals target
        n (i + Z.of_nat (length pre)).
Proof.
  induction 1 as [i | i name_rva e exps Hn Hs Ho Hf _ IH];
    intros Hpre Hfit n.
  - simpl. rewrite Z.add_0_r. reflexivity.
  - inversion Hpre as [| ? ? He Hrest]; subst.
    inversion Hfit as [| ? ? Hfe Hfrest]; subst.
    cbn [length Nat.add export_scan].
    rewrite Hn. cbn [bind].
    rewrite (load_cstr_at _ _ _ Hs fuel Hfe). cbn [bind].
    destruct (Z.eqb_spec (ror13_hash (exp_name e)) target) as [Heq | _].
    + exfalso. apply He. exact Heq.
    + rewrite IH by assumption. f_equal. lia.
Qed.

Lemma export_scan_match (fuel : nat) (m : memory)
    (hModule pNames pFunctions pOrdinals target i : Z)
    (e : ExportEntry) (post : list ExportEntry) (n : nat) :
  export_entries m hModule pNames pFunctions pOrdinals i (e :: post) ->
  export_matches target e ->
  name_fits fuel e ->
  export_scan L fuel m hModule pNames pFunctions pOrdinals target (S n) i
  = Ret (FARPROC L (hModule + exp_rva e)).
Proof.
  intros H He Hfit.
  inversion H as [| ? name_rva ? ? Hn Hs Ho Hf _]; subst.
  cbn [export_scan]. rewrite Hn. cbn [bind].
  rewrite (load_cstr_at _ _ _ Hs fuel Hfit). cbn [bind].
  unfold export_matches in He. rewrite He, Z.eqb_refl.
  rewrite Ho. cbn [bind]. rewrite Hf. reflexivity.
Qed.

(** With both signatures in place the scanner is past its checks. *)
Lemma find_function_by_hash_headers (fuel : nat) (m : memory)
    (hModule export_rva target : Z) :
  hModule <> NULL ->
  pe_headers L m hModule export_rva ->
  find_function_by_hash L fuel m hModule target
  = if export_rva =? 0 then Ret NULL
    else
      do names <- load32 m (hModule + export_rva + EXP_AddressOfNames) ;
      do functions <- load32 m (hModule + export_rva + EXP_AddressOfFunctions) ;
      do ordinals <- load32 m (hModule + export_rva + EXP_AddressOfNameOrdinals) ;
      do number <- load32 m (hModule + export_rva + EXP_NumberOfNames) ;
      export_scan L fuel m hModule (hModule + names) (hModule + functions)
        (hModule + ordinals) target (Z.to_nat number) 0.
Proof.
  intros Hnull (pNt & (Hmagic & e_lfanew & Hlfanew & ->) & Hsig & Hrva).
  unfold find_function_by_hash.
  destruct (Z.eqb_spec hModule NULL) as [| _]; [contradiction |].
  rewrite Hmagic. cbn [bind]. rewrite Z.eqb_refl. cbn [negb].
  rewrite Hlfanew. cbn [bind]. rewrite Hsig. cbn [bind].
  rewrite Z.eqb_refl. cbn [negb]. rewrite Hrva. reflexivity.
Qed.

Lemma find_function_by_hash_directory (fuel : nat) (m : memory)
    (hModule target : Z) (exps : list ExportEntry) :
  hModule <> NULL ->
  export_directory L m hModule exps ->
  exists pNames pFunctions pOrdinals,
    export_entries m hModule pNames pFunctions pOrdinals 0 exps /\
    find_function_by_hash L fuel m hModule target
    = export_scan L fuel m hModule pNames pFunctions pOrdinals target
        (length exps) 0.
Proof.
  intros Hnull (rva & names & functions & ordinals &
                Hhdr & Hrva & Hn & Hf & Ho & Hcount & Hentries).
  exists (hModule + names), (hModule + functions), (hModule + ordinals).
  split; [exact Hentries |].
  rewrite (find_function_by_hash_headers _ _ _ _ _ Hnull Hhdr).
  destruct (Z.eqb_spec rva 0) as [| _]; [contradiction |].
  rewrite Hn. cbn [bind]. rewrite Hf. cbn [bind]. rewrite Ho. cbn [bind].
  rewrite Hcount. cbn [bind]. rewrite Nat2Z.id. reflexivity.
Qed.

(** C6. [find_function_by_hash] on a module reference other than NULL:
    a first signature (at the fixed offset of [e_magic]) other than
    [IMAGE_DOS_SIGNATURE] gives NULL; so does, once the first header is
    right, a second signature (at the offset [e_lfanew] read from the
    first header) other than [IMAGE_NT_SIGNATURE]; so does, once both
    are right, an export directory offset of zero.  Otherwise, on an
    image whose directory names the exports [exps] in stored order, it
    returns the module base plus the offset found through the ordinal
    of the first entry whose name hashes (with the narrow hash) to the
    target, whatever the order of the names, and NULL when no name of
    the whole array matches.  The sum is a pointer sum: it is taken
    at the width of a pointer, and is the plain sum whenever that
    lies inside the address space.  All the failures are the one NULL
    return of the source. *)
Theorem find_function_by_hash_scan (m : memory) (hModule target : Z) (fuel : nat) :
  hModule <> NULL ->
  (forall e_magic,
      load16 m (hModule + DOS_e_magic) = Ret e_magic ->
      e_magic <> IMAGE_DOS_SIGNATURE ->
      find_function_by_hash L fuel m hModule target = Ret NULL) /\
  (forall pNtHeaders signature,
      dos_header m hModule pNtHeaders ->
      load32 m (pNtHeaders + NT_Signature) = Ret signature ->
      signature <> IMAGE_NT_SIGNATURE ->
      find_function_by_hash L fuel m hModule target = Ret NULL) /\
  (pe_headers L m hModule 0 ->
   find_function_by_hash L fuel m hModule target = Ret NULL) /\
  (forall exps,
      export_directory L m hModule exps ->
      Forall (name_fits fuel) exps ->
      (forall pre e post,
          exps = pre ++ e :: post ->
          Forall (fun x => ~ export_matches target x) pre ->
          export_matches target e ->
          find_function_by_hash L fuel m hModule target
          = Ret (FARPROC L (hModule + exp_rva e)) /\
          (0 <= hModule + exp_rva e < 2 ^ (8 * Z.of_nat (pointer_bytes L)) ->
           find_function_by_hash L fuel m hModule target
           = Ret (hModule + exp_rva e))) /\
      (Forall (fun x => ~ export_matches target x) exps ->
       find_function_by_hash L fuel m hModule target = Ret NULL)).
Proof.
  intros Hnull. split; [| split; [| split; [| intros exps Hdir Hfit; split]]].
  - intros e_magic Hmagic Hbad. unfold find_function_by_hash.
    destruct (Z.eqb_spec hModule NULL) as [| _]; [contradiction |].
    rewrite Hmagic. cbn [bind].
    destruct (Z.eqb_spec e_magic IMAGE_DOS_SIGNATURE) as [| _]; [contradiction |].
    reflexivity.
  - intros pNt signature (Hmagic & e_lfanew & Hlfanew & ->) Hsig Hbad.
    unfold find_function_by_hash.
    destruct (Z.eqb_spec hModule NULL) as [| _]; [contradiction |].
    rewrite Hmagic. cbn [bind]. rewrite Z.eqb_refl. cbn [negb].
    rewrite Hlfanew. cbn [bind]. rewrite Hsig. cbn [bind].
    destruct (Z.eqb_spec signature IMAGE_NT_SIGNATURE) as [| _]; [contradiction |].
    reflexivity.
  - intros Hhdr.
    rewrite (find_function_by_hash_headers _ _ _ _ _ Hnull Hhdr). reflexivity.
  - intros pre e post -> Hpre He.
    assert (Hres : find_function_by_hash L fuel m hModule target
                   = Ret (FARPROC L (hModule + exp_rva e))).
    { destruct (find_function_by_hash_directory fuel m hModule target _ Hnull Hdir)
        as (pN & pF & pO & Hentries & ->).
      apply export_entries_split in Hentries as [Hs1 Hs2].
      apply Forall_app in Hfit as [Hfit1 Hfit2].
      rewrite length_app. cbn [length].
      rewrite (export_scan_skip _ _ _ _ _ _ _ _ _ Hs1 Hpre Hfit1).
      eapply export_scan_match; [exact Hs2 | exact He |].
      inversion Hfit2; assumption. }
    split; [exact Hres |].
    intros Hin. rewrite Hres. unfold FARPROC. rewrite Z.mod_small by exact Hin.
    reflexivity.
  - intros Hnone.
    destruct (find_function_by_hash_directory fuel m hModule target _ Hnull Hdir)
      as (pN & pF & pO & Hentries & ->).
    rewrite <- (Nat.add_0_r (length exps)).
    rewrite (export_scan_skip _ _ _ _ _ _ _ _ _ Hentries Hnone Hfit).
    reflexivity.
Qed.

End ExportFacts.

(** ** Resolution cache *)

Section CacheFacts.

Variable L : layout.

Lemma array_get_Ret {A : Type} (arr : list A) (i : Z) (x : A) :
  array_get arr i = Ret x <-> 0 <= i /\ arr !! Z.to_nat i = Some x.
Proof.
  unfold array_get. destruct (Z.leb_spec 0 i) as [Hi | Hi].
  - destruct (arr !! Z.to_nat i) as [y |]; split.
    + intros [= ->]. split; [exact Hi | reflexivity].
    + intros [_ [= ->]]. reflexivity.
    + discriminate.
    + intros [_ [=]].
  - split; [discriminate | intros [H _]; lia].
Qed.

Lemma array_set_Ret {A : Type} (arr : list A) (i : Z) (x : A) :
  0 <= i < Z.of_nat (length arr) ->
  array_set arr i x = Ret (<[Z.to_nat i := x]> arr).
Proof.
  intros [H1 H2]. unfold array_set.
  destruct (Z.leb_spec 0 i); [| lia].
  destruct (Z.ltb_spec i (Z.of_nat (length arr))); [reflexivity | lia].
Qed.

Lemma array_set_inv {A : Type} (arr arr' : list A) (i : Z) (x : A) :
  array_set arr i x = Ret arr' -> arr' = <[Z.to_nat i := x]> arr.
Proof.
  unfold array_set.
  destruct ((0 <=? i) && (i <? Z.of_nat (length arr))); [| discriminate].
  intros [= <-]. reflexivity.
Qed.

(** A hit returns the address field of a slot the loop has visited. *)
Lemma cache_scan_hit_entry (n : nat) (i : Z) (arr : list CACHE_ENTRY) (mh fh a : Z) :
  0 <= i ->
  cache_scan n i arr mh fh = Ret (Some a) ->
  exists (j : nat) (e : CACHE_ENTRY),
    (Z.to_nat i <= j < Z.to_nat i + n)%nat /\ arr !! j = Some e /\ address e = a.
Proof.
  revert i. induction n as [| n IH]; intros i Hi; simpl.
  - discriminate.
  - destruct (array_get arr i) as [e | |] eqn:Hget; cbn [bind]; try discriminate.
    apply array_get_Ret in Hget as [_ Hget].
    destruct ((module_hash e =? mh) && (function_hash e =? fh)).
    + intros [= <-]. exists (Z.to_nat i), e. repeat split; [lia | lia | exact Hget].
    + intros Hrest. destruct (IH (i + 1) ltac:(lia) Hrest) as (j & e' & Hj & He' & Ha).
      exists j, e'. repeat split; [lia | lia | exact He' | exact Ha].
Qed.

(** After a miss over [n] slots, writing a matching entry to the next
    slot makes the scan over [n + 1] slots hit it. *)
Lemma cache_scan_append (n : nat) (i : Z) (arr : list CACHE_ENTRY)
    (mh fh : Z) (e : CACHE_ENTRY) :
  0 <= i ->
  (Z.to_nat i + n < length arr)%nat ->
  cache_scan n i arr mh fh = Ret None ->
  module_hash e = mh -> function_hash e = fh ->
  cache_scan (S n) i (<[(Z.to_nat i + n)%nat := e]> arr) mh fh
  = Ret (Some (address e)).
Proof.
  intros Hi Hlen Hmiss Hmh Hfh. revert i Hi Hlen Hmiss.
  induction n as [| n IH]; intros i Hi Hlen Hmiss.
  - cbn [cache_scan]. rewrite Nat.add_0_r in *.
    replace (array_get (<[Z.to_nat i := e]> arr) i) with (Ret e).
    + cbn [bind]. rewrite Hmh, Hfh, !Z.eqb_refl. reflexivity.
    + symmetry. apply array_get_Ret. split; [exact Hi |].
      apply list_lookup_insert_eq. exact Hlen.
  - cbn [cache_scan] in Hmiss.
    destruct (array_get arr i) as [x | |] eqn:Hget; cbn [bind] in Hmiss;
      try discriminate.
    destruct ((module_hash x =? mh) && (function_hash x =? fh)) eqn:Hx;
      [discriminate |].
    change (cache_scan (S (S n)) i ?a mh fh)
      with (do y <- array_get a i ;
            if (module_hash y =? mh) && (function_hash y =? fh)
            then Ret (Some (address y))
            else cache_scan (S n) (i + 1) a mh fh).
    replace (array_get (<[(Z.to_nat i + S n)%nat := e]> arr) i) with (Ret x).
    + cbn [bind]. rewrite Hx.
      replace (Z.to_nat i + S n)%nat with (Z.to_nat (i + 1) + n)%nat by lia.
      apply IH; [lia | lia | exact Hmiss].
    + symmetry. apply array_get_Ret in Hget as [_ Hget].
      apply array_get_Ret. split; [exact Hi |].
      rewrite list_lookup_insert_ne by lia. exact Hget.
Qed.

(** What a returning call of [resolve_cached] has done: either the
    cache answered, or both lookups ran and the result was stored or
    not. *)
Lemma resolve_cached_cases (fuel : nat) (p : process) (mh fh : Z)
    (st st' : cache) (k k' : probe) (a : Z) :
  resolve_cached L fuel p mh fh st k = Ret (a, st', k') ->
  (cache_lookup st mh fh = Ret (Some a) /\ st' = st /\ k' = k) \/
  (cache_lookup st mh fh = Ret None /\
   k' = count_export_scan (count_module_walk k) /\
   exists hModule,
     find_module_by_hash L fuel p mh = Ret hModule /\
     find_function_by_hash L fuel (mem p) hModule fh = Ret a /\
     ((a <> NULL /\ g_cache_count st < MAX_CACHE_ENTRIES /\
       exists arr,
         array_set (g_cache st) (g_cache_count st)
           {| module_hash := mh; function_hash := fh; address := a |} = Ret arr /\
         st' = {| g_cache := arr; g_cache_count := g_cache_count st + 1 |}) \/
      ((a = NULL \/ MAX_CACHE_ENTRIES <= g_cache_count st) /\ st' = st))).
Proof.
  unfold resolve_cached.
  destruct (cache_lookup st mh fh) as [[c |] | |]; cbn [bind]; try discriminate.
  - intros [= -> -> ->]. left. split; [reflexivity | split; reflexivity].
  - destruct (find_module_by_hash L fuel p mh) as [hModule | |] eqn:Hmod;
      cbn [bind]; try discriminate.
    destruct (find_function_by_hash L fuel (mem p) hModule fh) as [addr | |]
      eqn:Hfun; cbn [bind]; try discriminate.
    intros H. right. split; [reflexivity |].
    destruct (Z.eqb_spec addr NULL) as [Hz | Hnz]; cbn [negb andb] in H.
    + injection H as <- <- <-. split; [reflexivity |].
      exists hModule. split; [reflexivity | split; [exact Hfun |]].
      right. split; [left; exact Hz | reflexivity].
    + destruct (Z.ltb_spec (g_cache_count st) MAX_CACHE_ENTRIES) as [Hlt | Hge].
      * destruct (array_set _ _ _) as [arr | |] eqn:Hset; cbn [bind] in H;
          try discriminate.
        injection H as <- <- <-. split; [reflexivity |].
        exists hModule. split; [reflexivity | split; [exact Hfun |]].
        left. split; [exact Hnz | split; [exact Hlt |]].
        exists arr. split; [exact Hset | reflexivity].
      * injection H as <- <- <-. split; [reflexivity |].
        exists hModule. split; [reflexivity | split; [exact Hfun |]].
        right. split; [right; exact Hge | reflexivity].
Qed.

(** Storing into the first free slot appends to the slots in use. *)
Lemma entries_append (st : cache) (e : CACHE_ENTRY) :
  cache_wf st ->
  g_cache_count st < MAX_CACHE_ENTRIES ->
  entries {| g_cache := <[Z.to_nat (g_cache_count st) := e]> (g_cache st);
             g_cache_count := g_cache_count st + 1 |}
  = entries st ++ [e].
Proof.
  intros [Hcount Hlen] Hlt. unfold entries. cbn [g_cache g_cache_count].
  replace (Z.to_nat (g_cache_count st + 1)) with (S (Z.to_nat (g_cache_count st)))
    by lia.
  assert (Hin : (Z.to_nat (g_cache_count st) < length (g_cache st))%nat).
  { rewrite Hlen. unfold MAX_CACHE_ENTRIES in *. lia. }
  rewrite (take_S_r _ _ e) by (apply list_lookup_insert_eq; exact Hin).
  rewrite take_insert_ge by lia. reflexivity.
Qed.

Lemma cache_inv_initial : cache_inv initial_cache.
Proof.
  split; [split |].
  - unfold initial_cache, MAX_CACHE_ENTRIES. simpl. lia.
  - unfold initial_cache. cbn [g_cache]. apply length_replicate.
  - unfold entries, initial_cache. simpl. constructor.
Qed.

Lemma cache_inv_resolve (fuel : nat) (p : process) (mh fh : Z)
    (st st' : cache) (k k' : probe) (a : Z) :
  cache_inv st ->
  resolve_cached L fuel p mh fh st k = Ret (a, st', k') ->
  cache_inv st'.
Proof.
  intros [Hwf Hnn] Hres.
  apply resolve_cached_cases in Hres
    as [(_ & -> & _) | (_ & _ & hModule & _ & _ &
          [(Hnz & Hlt & arr & Hset & ->) | (_ & ->)])];
    try (split; assumption).
  apply array_set_inv in Hset. subst arr.
  split.
  - destruct Hwf as [Hc Hlen]. split; cbn [g_cache g_cache_count].
    + lia.
    + rewrite length_insert. exact Hlen.
  - rewrite entries_append by assumption.
    apply Forall_app. split; [exact Hnn |].
    constructor; [exact Hnz | constructor].
Qed.

Lemma reachable_inv (st : cache) : reachable L st -> cache_inv st.
Proof.
  induction 1 as [| st st' fuel p mh fh a k k' _ IH Hres].
  - apply cache_inv_initial.
  - eapply cache_inv_resolve; eassumption.
Qed.

(** Under the invariant the cache never answers NULL. *)
Lemma cache_lookup_not_null (st : cache) (mh fh a : Z) :
  cache_inv st -> cache_lookup st mh fh = Ret (Some a) -> a <> NULL.
Proof.
  intros [_ Hnn] Hhit. unfold cache_lookup in Hhit.
  apply cache_scan_hit_entry in Hhit as (j & e & Hj & He & <-); [| lia].
  rewrite Forall_forall in Hnn. apply Hnn.
  unfold entries. apply elem_of_take. exists j. split; [exact He | lia].
Qed.

Lemma cache_wf_resolve (fuel : nat) (p : process) (mh fh : Z)
    (st st' : cache) (k k' : probe) (a : Z) :
  cache_wf st ->
  resolve_cached L fuel p mh fh st k = Ret (a, st', k') ->
  cache_wf st' /\
  g_cache_count st <= g_cache_count st' /\
  entries st `prefix_of` entries st' /\
  (g_cache_count st = MAX_CACHE_ENTRIES -> st' = st).
Proof.
  intros Hwf Hres.
  apply resolve_cached_cases in Hres
    as [(_ & -> & _) | (_ & _ & hModule & _ & _ &
          [(Hnz & Hlt & arr & Hset & ->) | (_ & ->)])].
  - repeat split; try apply Hwf; reflexivity.
  - apply array_set_inv in Hset. subst arr.
    rewrite entries_append by assumption.
    destruct Hwf as [Hc Hlen].
    split; [split |]; cbn [g_cache g_cache_count].
    + lia.
    + rewrite length_insert. exact Hlen.
    + split; [lia |]. split; [apply prefix_app_r; reflexivity | lia].
  - repeat split; try apply Hwf; reflexivity.
Qed.

(** C7. If [resolve_cached] returns a non-NULL address [a] for the
    pair [(mh, fh)] from a well-formed cache below capacity, then the
    next call with the same pair returns [a] again, whatever the
    process state and the fuel, leaves the cache as it is and leaves
    both scan counters where they were: it is answered by the cache
    loop alone. *)
Theorem resolve_cached_second_call (fuel : nat) (p : process) (mh fh : Z)
    (st st' : cache) (k k' : probe) (a : Z) :
  cache_wf st ->
  g_cache_count st < MAX_CACHE_ENTRIES ->
  resolve_cached L fuel p mh fh st k = Ret (a, st', k') ->
  a <> NULL ->
  forall (fuel2 : nat) (p2 : process) (k2 : probe),
    resolve_cached L fuel2 p2 mh fh st' k2 = Ret (a, st', k2).
Proof.
  intros [Hc Hlen] Hlt Hres Hnz fuel2 p2 k2.
  assert (Hhit : cache_lookup st' mh fh = Ret (Some a)).
  { apply resolve_cached_cases in Hres
      as [(Hhit & -> & _) | (Hmiss & _ & hModule & _ & _ &
            [(_ & _ & arr & Hset & ->) | ([Hz | Hfull] & _)])];
      [exact Hhit | | contradiction | lia].
    apply array_set_inv in Hset. subst arr.
    unfold cache_lookup in *. cbn [g_cache g_cache_count].
    replace (Z.to_nat (g_cache_count st + 1))
      with (S (Z.to_nat (g_cache_count st))) by lia.
    apply (cache_scan_append (Z.to_nat (g_cache_count st)) 0 (g_cache st) mh fh
             {| module_hash := mh; function_hash := fh; address := a |});
      try reflexivity; try exact Hmiss; lia. }
  unfold resolve_cached. rewrite Hhit. reflexivity.
Qed.

(** C8. A call of [resolve_cached] that returns NULL, whichever of the
    lookups failed, leaves the cache exactly as it found it.  From a
    reachable cache, a later call with the same pair, in a process
    state where the module is now found and the export resolves to
    [a], runs both lookups and returns [a]. *)
Theorem failed_resolve_not_cached (fuel : nat) (p : process) (mh fh : Z)
    (st st' : cache) (k k' : probe) :
  resolve_cached L fuel p mh fh st k = Ret (NULL, st', k') ->
  st' = st /\
  (reachable L st ->
   forall (fuel2 : nat) (p2 : process) (hModule a : Z) (k2 : probe),
     find_module_by_hash L fuel2 p2 mh = Ret hModule ->
     find_function_by_hash L fuel2 (mem p2) hModule fh = Ret a ->
     a <> NULL ->
     exists st2,
       resolve_cached L fuel2 p2 mh fh st' k2
       = Ret (a, st2, count_export_scan (count_module_walk k2))).
Proof.
  intros Hres.
  apply resolve_cached_cases in Hres
    as [(Hhit & -> & _) | (Hmiss & _ & h0 & _ & _ &
          [(Hnz & _) | (_ & ->)])]; [| contradiction |].
  - split; [reflexivity |]. intros Hreach. exfalso.
    apply reachable_inv in Hreach.
    apply (cache_lookup_not_null st mh fh NULL Hreach Hhit). reflexivity.
  - split; [reflexivity |].
    intros Hreach fuel2 p2 hModule a k2 Hmod Hfun Hnz.
    apply reachable_inv in Hreach as [[Hc Hlen] _].
    unfold resolve_cached. rewrite Hmiss. cbn [bind].
    rewrite Hmod. cbn [bind]. rewrite Hfun. cbn [bind].
    destruct (Z.eqb_spec a NULL) as [| _]; [contradiction |]. cbn [negb andb].
    destruct (Z.ltb_spec (g_cache_count st) MAX_CACHE_ENTRIES) as [Hlt | Hge].
    + rewrite array_set_Ret.
      * cbn [bind]. eexists. reflexivity.
      * rewrite Hlen. unfold MAX_CACHE_ENTRIES in *. lia.
    + eexists. reflexivity.
Qed.

(** C9. The count never exceeds [MAX_CACHE_ENTRIES = 256]: every
    reachable cache is well formed, with a count between 0 and 256.
    A returning call from a well-formed cache keeps it well formed,
    never lowers the count, keeps every slot in use as it was (the
    old slots are a prefix of the new ones) and changes nothing at all
    once the count is 256.  Below capacity a newly resolved pair is
    appended as the last slot in use.  On a full cache a pair the
    cache does not hold is still resolved: the call returns the
    address the two lookups produce, and the cache is unchanged. *)
Theorem cache_capacity :
  (forall st : cache,
      reachable L st ->
      cache_wf st /\ g_cache_count st <= MAX_CACHE_ENTRIES) /\
  (forall (fuel : nat) (p : process) (mh fh : Z) (st st' : cache)
          (k k' : probe) (a : Z),
      cache_wf st ->
      resolve_cached L fuel p mh fh st k = Ret (a, st', k') ->
      cache_wf st' /\
      g_cache_count st <= g_cache_count st' <= MAX_CACHE_ENTRIES /\
      entries st `prefix_of` entries st' /\
      (g_cache_count st = MAX_CACHE_ENTRIES -> st' = st)) /\
  (forall (fuel : nat) (p : process) (mh fh : Z) (st : cache) (k : probe)
          (hModule a : Z),
      cache_wf st ->
      g_cache_count st < MAX_CACHE_ENTRIES ->
      cache_lookup st mh fh = Ret None ->
      find_module_by_hash L fuel p mh = Ret hModule ->
      find_function_by_hash L fuel (mem p) hModule fh = Ret a ->
      a <> NULL ->
      exists st',
        resolve_cached L fuel p mh fh st k
        = Ret (a, st', count_export_scan (count_module_walk k)) /\
        g_cache_count st' = g_cache_count st + 1 /\
        entries st'
        = entries st
            ++ [ {| module_hash := mh; function_hash := fh; address := a |} ]) /\
  (forall (fuel : nat) (p : process) (mh fh : Z) (st : cache) (k : probe)
          (hModule a : Z),
      cache_wf st ->
      g_cache_count st = MAX_CACHE_ENTRIES ->
      cache_lookup st mh fh = Ret None ->
      find_module_by_hash L fuel p mh = Ret hModule ->
      find_function_by_hash L fuel (mem p) hModule fh = Ret a ->
      resolve_cached L fuel p mh fh st k
      = Ret (a, st, count_export_scan (count_module_walk k))).
Proof.
  split; [| split; [| split]].
  - intros st Hreach. apply reachable_inv in Hreach as [Hwf _].
    split; [exact Hwf | apply Hwf].
  - intros fuel p mh fh st st' k k' a Hwf Hres.
    destruct (cache_wf_resolve _ _ _ _ _ _ _ _ _ Hwf Hres)
      as (Hwf' & Hmono & Hprefix & Hfull).
    split; [exact Hwf' |]. split; [| split; assumption].
    split; [exact Hmono | apply Hwf'].
  - intros fuel p mh fh st k hModule a Hwf Hlt Hmiss Hmod Hfun Hnz.
    unfold resolve_cached. rewrite Hmiss. cbn [bind].
    rewrite Hmod. cbn [bind]. rewrite Hfun. cbn [bind].
    destruct (Z.eqb_spec a NULL) as [| _]; [contradiction |].
    destruct (Z.ltb_spec (g_cache_count st) MAX_CACHE_ENTRIES) as [_ | Hge];
      [| lia].
    cbn [negb andb]. rewrite array_set_Ret.
    + cbn [bind]. eexists. split; [reflexivity |].
      split; [reflexivity |]. apply entries_append; assumption.
    + destruct Hwf as [Hc Hlen]. rewrite Hlen.
      unfold MAX_CACHE_ENTRIES in *. lia.
  - intros fuel p mh fh st k hModule a Hwf Hfull Hmiss Hmod Hfun.
    unfold resolve_cached. rewrite Hmiss. cbn [bind].
    rewrite Hmod. cbn [bind]. rewrite Hfun. cbn [bind].
    destruct (Z.ltb_spec (g_cache_count st) MAX_CACHE_ENTRIES) as [Hlt | _];
      [lia |].
    rewrite andb_false_r. reflexivity.
Qed.

End CacheFacts.

(** ** The concrete process *)

Lemma demo_loaded_modules :
  loaded_modules win64 Demo.proc [Demo.kernel32; Demo.user32].
Proof.
  exists 0x8020, 0x9010. split.
  - exists 0x8000. repeat split; reflexivity.
  - apply (segment_link win64 _ _ _ 0x9010 0xA010 Demo.kernel32);
      [discriminate | reflexivity | reflexivity | reflexivity |].
    apply (segment_link win64 _ _ _ 0xA010 0x8020 Demo.user32);
      [discriminate | reflexivity | reflexivity | reflexivity |].
    apply segment_end.
Qed.

Lemma demo_export_directory :
  export_directory win64 (mem Demo.proc) 0x10000 Demo.kernel32_exports.
Proof.
  exists 0x200, 0x340, 0x300, 0x360.
  split.
  { exists 0x10080. split; [split; [reflexivity |] | split; reflexivity].
    exists 0x80. split; reflexivity. }
  split; [discriminate |].
  repeat (split; [reflexivity |]).
  unfold Demo.kernel32_exports.
  apply (exports_entry _ _ _ _ _ 0 0x400); try reflexivity.
  { repeat (eapply cstr_char; [reflexivity | discriminate |]).
    eapply cstr_end; reflexivity. }
  apply (exports_entry _ _ _ _ _ 1 0x410); try reflexivity.
  { repeat (eapply cstr_char; [reflexivity | discriminate |]).
    eapply cstr_end; reflexivity. }
  apply exports_end.
Qed.

(** The scenario of two loaded modules: each export is resolved in
    its own module, and a module that is not loaded gives NULL. *)
Example demo_end_to_end :
  let h_advapi32 :=
    unicode_ror13_hash (unicode_string (wide (cstring "ADVAPI32.DLL"))) in
  (exists st k,
      resolve_cached win64 20 Demo.proc Demo.h_kernel32 Demo.h_VirtualAlloc
        initial_cache Demo.probe0 = Ret (0x10000 + 0x5000, st, k)) /\
  (exists st k,
      resolve_cached win64 20 Demo.proc Demo.h_user32 Demo.h_MessageBoxA
        initial_cache Demo.probe0 = Ret (0x20000 + 0x1234, st, k)) /\
  (exists k,
      resolve_cached win64 20 Demo.proc h_advapi32 Demo.h_VirtualAlloc
        initial_cache Demo.probe0 = Ret (NULL, initial_cache, k)).
Proof.
  intros h_advapi32. split; [| split].
  - do 2 eexists. vm_compute. reflexivity.
  - do 2 eexists. vm_compute. reflexivity.
  - eexists. vm_compute. reflexivity.
Qed.

(** On the 32-bit target a pointer sum can wrap around: the one export
    of this image matches the target, its offset added to the module
    base is [2^32], and the lookup returns NULL. *)
Example find_function_by_hash_wraps_win32 :
  export_directory win32 Demo32.image Demo32.base Demo32.exports /\
  Forall (export_matches Demo.h_VirtualAlloc) Demo32.exports /\
  find_function_by_hash win32 20 Demo32.image Demo32.base Demo.h_VirtualAlloc
  = Ret NULL.
Proof.
  split; [| split].
  - exists 0x200, 0x340, 0x300, 0x360.
    split.
    { exists 0x10000080. split; [split; [reflexivity |] | split; reflexivity].
      exists 0x80. split; reflexivity. }
    split; [discriminate |].
    repeat (split; [reflexivity |]).
    apply (exports_entry _ _ _ _ _ 0 0x400); try reflexivity.
    { repeat (eapply cstr_char; [reflexivity | discriminate |]).
      eapply cstr_end; reflexivity. }
    apply exports_end.
  - repeat constructor.
  - vm_compute. reflexivity.
Qed.

(** The second module on the list is found behind the first; the
    constant the source uses for KERNEL32.DLL matches no module, and
    the resolver reports NULL. *)
Lemma find_module_first_match_witness :
  find_module_by_hash win64 3 Demo.proc Demo.h_user32 = Ret 0x20000 /\
  resolve_cached win64 3 Demo.proc HASH_KERNEL32 HASH_VIRTUALALLOC
    initial_cache Demo.probe0
  = Ret (NULL, initial_cache, {| module_walks := 1; export_scans := 1 |}).
Proof.
  split.
  - apply (proj1 (find_module_first_match win64 Demo.proc
                    [Demo.kernel32; Demo.user32] Demo.h_user32 3
                    demo_loaded_modules ltac:(simpl; lia))
             [Demo.kernel32] Demo.user32 []).
    + reflexivity.
    + constructor; [vm_compute; discriminate | constructor].
    + reflexivity.
  - apply (proj2 (find_module_first_match win64 Demo.proc
                    [Demo.kernel32; Demo.user32] HASH_KERNEL32 3
                    demo_loaded_modules ltac:(simpl; lia))).
    + repeat constructor; vm_compute; discriminate.
    + reflexivity.
Defined.

(** C5, as stated, fails when the loader data pointer is null: the
    source computes the address of the list head from it and reads
    there, so the call faults instead of returning NULL. *)
Lemma find_module_null_ldr_counterexample :
  load_ptr win64 (mem Demo.proc_null_ldr)
    (peb Demo.proc_null_ldr + PEB_Ldr win64) = Ret NULL /\
  find_module_by_hash win64 8 Demo.proc_null_ldr HASH_KERNEL32 = Fault /\
  find_module_by_hash win64 8 Demo.proc_null_ldr HASH_KERNEL32 <> Ret NULL.
Proof.
  split; [reflexivity |]. split; [reflexivity |]. vm_compute. discriminate.
Qed.

Lemma find_module_unchecked_reads_witness :
  find_module_by_hash win64 8 {| peb := 0x7000; mem := fun _ => None |} 1 = Fault /\
  find_module_by_hash win64 8 Demo.proc_null_ldr 1 = Fault /\
  find_module_by_hash win64 8 Demo.proc_torn 1 = Fault.
Proof.
  split; [| split].
  - apply (proj1 (find_module_unchecked_reads win64
                    {| peb := 0x7000; mem := fun _ => None |} 1 8)).
    reflexivity.
  - apply (proj1 (proj2 (find_module_unchecked_reads win64
                           Demo.proc_null_ldr 1 8)) NULL); reflexivity.
  - apply (proj2 (proj2 (find_module_unchecked_reads win64 Demo.proc_torn 1 8))
             0x8020 0x9010 0x9010 []).
    + exists 0x8000. repeat split; reflexivity.
    + apply segment_end.
    + constructor.
    + discriminate.
    + reflexivity.
    + simpl. lia.
Defined.

Lemma find_function_by_hash_scan_witness :
  find_function_by_hash win64 20 Demo.bad_dos 0x10000 Demo.h_VirtualAlloc = Ret NULL /\
  find_function_by_hash win64 20 Demo.bad_nt 0x10000 Demo.h_VirtualAlloc = Ret NULL /\
  find_function_by_hash win64 20 Demo.no_exports 0x10000 Demo.h_VirtualAlloc = Ret NULL /\
  find_function_by_hash win64 20 (mem Demo.proc) 0x10000 Demo.h_VirtualAlloc
  = Ret 0x15000 /\
  find_function_by_hash win64 20 (mem Demo.proc) 0x10000 Demo.h_MessageBoxA
  = Ret NULL.
Proof.
  assert (Hnull : 0x10000 <> NULL) by discriminate.
  assert (Hfit : Forall (name_fits 20) Demo.kernel32_exports)
    by (repeat constructor).
  split; [| split; [| split; [| split]]].
  - apply (proj1 (find_function_by_hash_scan win64 Demo.bad_dos 0x10000
                    Demo.h_VirtualAlloc 20 Hnull) 0x4D5A);
      [reflexivity | discriminate].
  - apply (proj1 (proj2 (find_function_by_hash_scan win64 Demo.bad_nt 0x10000
                           Demo.h_VirtualAlloc 20 Hnull)) 0x10080 0x4550FFFF).
    + split; [reflexivity |]. exists 0x80. split; reflexivity.
    + reflexivity.
    + discriminate.
  - apply (proj1 (proj2 (proj2 (find_function_by_hash_scan win64 Demo.no_exports
                                  0x10000 Demo.h_VirtualAlloc 20 Hnull)))).
    exists 0x10080. split; [split; [reflexivity |] | split; reflexivity].
    exists 0x80. split; reflexivity.
  - apply (proj2 (proj1 (proj2 (proj2 (proj2 (find_function_by_hash_scan win64
             (mem Demo.proc) 0x10000 Demo.h_VirtualAlloc 20 Hnull)))
             Demo.kernel32_exports demo_export_directory Hfit)
             [ {| exp_name := cstring "CreateThread"; exp_ordinal := 1;
                  exp_rva := 0x6000 |} ]
             {| exp_name := cstring "VirtualAlloc"; exp_ordinal := 0;
                exp_rva := 0x5000 |} []
             eq_refl
             ltac:(constructor; [vm_compute; discriminate | constructor])
             eq_refl)).
    vm_compute. split; [discriminate | reflexivity].
  - apply (proj2 (proj2 (proj2 (proj2 (find_function_by_hash_scan win64
             (mem Demo.proc) 0x10000 Demo.h_MessageBoxA 20 Hnull)))
             Demo.kernel32_exports demo_export_directory Hfit)).
    repeat constructor; vm_compute; discriminate.
Defined.

(** The first call resolves VirtualAlloc and stores it; the second is
    made with no fuel in a process where nothing can be enumerated. *)
Lemma resolve_cached_second_call_witness :
  resolve_cached win64 0 Demo.proc_null_ldr Demo.h_kernel32 Demo.h_VirtualAlloc
    {| g_cache :=
         <[0%nat := {| module_hash := Demo.h_kernel32;
                       function_hash := Demo.h_VirtualAlloc;
                       address := 0x15000 |}]> (g_cache initial_cache);
       g_cache_count := 1 |}
    Demo.probe0
  = Ret (0x15000,
         {| g_cache :=
              <[0%nat := {| module_hash := Demo.h_kernel32;
                            function_hash := Demo.h_VirtualAlloc;
                            address := 0x15000 |}]> (g_cache initial_cache);
            g_cache_count := 1 |},
         Demo.probe0).
Proof.
  apply (resolve_cached_second_call win64 20 Demo.proc
           Demo.h_kernel32 Demo.h_VirtualAlloc initial_cache _
           Demo.probe0 {| module_walks := 1; export_scans := 1 |} 0x15000).
  - apply cache_inv_initial.
  - reflexivity.
  - reflexivity.
  - discriminate.
Defined.

(** USER32 is not loaded yet, the call fails and caches nothing; once
    it is loaded the same call resolves MessageBoxA. *)
Lemma failed_resolve_not_cached_witness :
  exists st2,
    resolve_cached win64 20 Demo.proc Demo.h_user32 Demo.h_MessageBoxA
      initial_cache Demo.probe0
    = Ret (0x21234, st2, {| module_walks := 1; export_scans := 1 |}).
Proof.
  destruct (failed_resolve_not_cached win64 20 Demo.proc_early
              Demo.h_user32 Demo.h_MessageBoxA initial_cache initial_cache
              Demo.probe0 {| module_walks := 1; export_scans := 1 |}
              ltac:(reflexivity)) as [_ Hlater].
  apply (Hlater (reach_initial win64) 20%nat Demo.proc 0x20000 0x21234 Demo.probe0).
  - reflexivity.
  - reflexivity.
  - discriminate.
Defined.

(** From the empty cache VirtualAlloc is resolved and stored in slot 0;
    on the full cache it is still resolved and nothing is stored. *)
Lemma cache_capacity_witness :
  g_cache_count initial_cache <= MAX_CACHE_ENTRIES /\
  (exists st',
      resolve_cached win64 20 Demo.proc Demo.h_kernel32 Demo.h_VirtualAlloc
        initial_cache Demo.probe0
      = Ret (0x15000, st', {| module_walks := 1; export_scans := 1 |}) /\
      g_cache_count st' = g_cache_count initial_cache + 1 /\
      entries st'
      = entries initial_cache
          ++ [ {| module_hash := Demo.h_kernel32;
                  function_hash := Demo.h_VirtualAlloc;
                  address := 0x15000 |} ]) /\
  resolve_cached win64 20 Demo.proc Demo.h_kernel32 Demo.h_VirtualAlloc
    Demo.full_cache Demo.probe0
  = Ret (0x15000, Demo.full_cache, {| module_walks := 1; export_scans := 1 |}).
Proof.
  split; [| split].
  - apply (proj1 (cache_capacity win64) initial_cache (reach_initial win64)).
  - apply (proj1 (proj2 (proj2 (cache_capacity win64))) 20%nat Demo.proc
             Demo.h_kernel32 Demo.h_VirtualAlloc initial_cache Demo.probe0
             0x10000 0x15000).
    + apply cache_inv_initial.
    + reflexivity.
    + reflexivity.
    + reflexivity.
    + reflexivity.
    + discriminate.
  - apply (proj2 (proj2 (proj2 (cache_capacity win64))) 20%nat Demo.proc
             Demo.h_kernel32 Demo.h_VirtualAlloc Demo.full_cache Demo.probe0
             0x10000 0x15000).
    + split; [split; vm_compute; discriminate | reflexivity].
    + reflexivity.
    + reflexivity.
    + reflexivity.
    + reflexivity.
Defined.

(** * Further properties of the code *)

(** ** Hash engine: terminator, prefixes and single-character changes *)

Section HashStructure.

Lemma ror13_loop_stops_at_nul (s t : list byte) (hash : Z) :
  ror13_loop hash (s ++ x00 :: t) = ror13_loop hash s.
Proof.
  revert hash. induction s as [| c s IH]; intros hash; simpl.
  - reflexivity.
  - destruct (char_value c =? 0); [reflexivity | apply IH].
Qed.

(** X1. Nothing after the first NUL takes part in the hash. *)
Theorem ror13_hash_stops_at_nul (s t : list byte) :
  ror13_hash (s ++ x00 :: t) = ror13_hash s.
Proof. apply ror13_loop_stops_at_nul. Qed.

(** The loop over a concatenation continues from where the loop over
    the first part stopped. *)
Lemma ror13_loop_app (s t : list byte) (hash : Z) :
  Forall (fun c => byte_value c <> 0) s ->
  ror13_loop hash (s ++ t) = ror13_loop (ror13_loop hash s) t.
Proof.
  intros H. revert hash.
  induction H as [| c s Hc _ IH]; intros hash; simpl; [reflexivity |].
  rewrite char_value_zero.
  destruct (Z.eqb_spec (byte_value c) 0); [contradiction | apply IH].
Qed.

Lemma ror13_loop_range (s : list byte) (hash : Z) :
  0 <= hash < 2 ^ 32 -> 0 <= ror13_loop hash s < 2 ^ 32.
Proof.
  revert hash. induction s as [| c s IH]; intros hash Hh; simpl.
  - exact Hh.
  - destruct (char_value c =? 0); [exact Hh |]. apply IH, DWORD_range.
Qed.

(** The rotation loses nothing. *)
Lemma rotr32_13_inj (x y : Z) :
  0 <= x < 2 ^ 32 -> 0 <= y < 2 ^ 32 ->
  rotr32 x 13 = rotr32 y 13 -> x = y.
Proof.
  intros Hx Hy. unfold rotr32.
  pose proof (Z.div_mod x (2 ^ 13) ltac:(lia)) as Ex.
  pose proof (Z.div_mod y (2 ^ 13) ltac:(lia)) as Ey.
  pose proof (Z.mod_pos_bound x (2 ^ 13) ltac:(lia)) as Rx.
  pose proof (Z.mod_pos_bound y (2 ^ 13) ltac:(lia)) as Ry.
  assert (0 <= x / 2 ^ 13 < 2 ^ 19)
    by (split; [apply Z.div_pos; lia | apply Z.div_lt_upper_bound; lia]).
  assert (0 <= y / 2 ^ 13 < 2 ^ 19)
    by (split; [apply Z.div_pos; lia | apply Z.div_lt_upper_bound; lia]).
  change (2 ^ (32 - 13)) with 524288. change (2 ^ 19) with 524288 in *.
  change (2 ^ 13) with 8192 in *. change (2 ^ 32) with 4294967296 in *.
  lia.
Qed.

(** Adding a 32-bit value with wraparound loses nothing either. *)
Lemma DWORD_add_inj (a b d : Z) :
  0 <= a < 2 ^ 32 -> 0 <= b < 2 ^ 32 ->
  DWORD (a + d) = DWORD (b + d) -> a = b.
Proof.
  intros Ha Hb. unfold DWORD.
  pose proof (Z.div_mod (a + d) (2 ^ 32) ltac:(lia)) as Ea.
  pose proof (Z.div_mod (b + d) (2 ^ 32) ltac:(lia)) as Eb.
  change (2 ^ 32) with 4294967296 in *. lia.
Qed.

Lemma DWORD_add_diff (h c d : Z) :
  0 <= c < 2 ^ 32 -> 0 <= d < 2 ^ 32 -> c <> d ->
  DWORD (h + c) <> DWORD (h + d).
Proof.
  intros Hc Hd Hne. unfold DWORD.
  pose proof (Z.div_mod (h + c) (2 ^ 32) ltac:(lia)) as Ea.
  pose proof (Z.div_mod (h + d) (2 ^ 32) ltac:(lia)) as Eb.
  change (2 ^ 32) with 4294967296 in *. lia.
Qed.

Lemma ror13_inj (x y : Z) :
  0 <= x < 2 ^ 32 -> 0 <= y < 2 ^ 32 -> ror13 x = ror13 y -> x = y.
Proof.
  intros Hx Hy. rewrite !ror13_rotr32 by assumption.
  apply rotr32_13_inj; assumption.
Qed.

Lemma ror13_range (x : Z) : 0 <= x < 2 ^ 32 -> 0 <= ror13 x < 2 ^ 32.
Proof.
  intros Hx. rewrite ror13_rotr32 by exact Hx. apply rotr32_range. exact Hx.
Qed.

(** Two accumulators that differ still differ after the same suffix. *)
Lemma ror13_loop_inj (t : list byte) (h1 h2 : Z) :
  0 <= h1 < 2 ^ 32 -> 0 <= h2 < 2 ^ 32 ->
  ror13_loop h1 t = ror13_loop h2 t -> h1 = h2.
Proof.
  revert h1 h2. induction t as [| c t IH]; intros h1 h2 H1 H2; simpl.
  - auto.
  - destruct (char_value c =? 0); [auto |].
    intros Heq. apply IH in Heq; try apply DWORD_range.
    apply DWORD_add_inj in Heq; try (apply ror13_range; assumption).
    apply ror13_inj; assumption.
Qed.

Lemma byte_value_inj (c d : byte) : byte_value c = byte_value d -> c = d.
Proof.
  unfold byte_value. intros H. apply N2Z.inj in H.
  pose proof (Byte.of_to_N c) as Hc. pose proof (Byte.of_to_N d) as Hd.
  rewrite H in Hc. rewrite Hc in Hd. congruence.
Qed.

Lemma sign_extended_range (c : byte) : 0 <= sign_extended c < 2 ^ 32.
Proof.
  pose proof (byte_value_range c). unfold sign_extended.
  destruct (byte_value c <? 128); lia.
Qed.

Lemma sign_extended_inj (c d : byte) : sign_extended c = sign_extended d -> c = d.
Proof.
  pose proof (byte_value_range c). pose proof (byte_value_range d).
  unfold sign_extended. intros H1. apply byte_value_inj.
  destruct (Z.ltb_spec (byte_value c) 128), (Z.ltb_spec (byte_value d) 128); lia.
Qed.

(** X2. Two names that differ in exactly one character never collide. *)
Theorem ror13_hash_one_char_apart (pre post : list byte) (c d : byte) :
  Forall (fun x => byte_value x <> 0) pre ->
  byte_value c <> 0 -> byte_value d <> 0 -> c <> d ->
  ror13_hash (pre ++ c :: post) <> ror13_hash (pre ++ d :: post).
Proof.
  intros Hpre Hc Hd Hne. unfold ror13_hash.
  rewrite !ror13_loop_app by exact Hpre.
  assert (Hh : 0 <= ror13_loop 0 pre < 2 ^ 32)
    by (apply ror13_loop_range; lia).
  revert Hh. generalize (ror13_loop 0 pre). intros h Hh.
  simpl. rewrite !char_value_zero.
  destruct (Z.eqb_spec (byte_value c) 0); [contradiction |].
  destruct (Z.eqb_spec (byte_value d) 0); [contradiction |].
  intros Heq. apply ror13_loop_inj in Heq; try apply DWORD_range.
  rewrite !DWORD_char_value in Heq.
  revert Heq. apply DWORD_add_diff; try apply sign_extended_range.
  intros E. apply Hne, sign_extended_inj, E.
Qed.

Lemma ror13_hash_one_char_apart_witness :
  ror13_hash (cstring "ReadFile") <> ror13_hash (cstring "ReadFilf").
Proof.
  apply (ror13_hash_one_char_apart (cstring "ReadFil") [] "e"%byte "f"%byte).
  - repeat constructor; vm_compute; discriminate.
  - vm_compute; discriminate.
  - vm_compute; discriminate.
  - discriminate.
Defined.

(** The wide loop, cut at any point of the buffer it covers. *)
Lemma unicode_ror13_loop_app (pre rest : list Z) (n : nat) (hash : Z) :
  unicode_ror13_loop (length pre + n) (pre ++ rest) hash
  = unicode_ror13_loop n rest (unicode_ror13_loop (length pre) pre hash).
Proof.
  revert hash. induction pre as [| c pre IH]; intros hash; simpl.
  - destruct n; reflexivity.
  - apply IH.
Qed.

Lemma unicode_ror13_loop_inj (n : nat) (t : list Z) (h1 h2 : Z) :
  0 <= h1 < 2 ^ 32 -> 0 <= h2 < 2 ^ 32 ->
  unicode_ror13_loop n t h1 = unicode_ror13_loop n t h2 -> h1 = h2.
Proof.
  revert t h1 h2. induction n as [| n IH]; intros t h1 h2 H1 H2; simpl.
  - destruct t; auto.
  - destruct t as [| c t]; [auto |].
    intros Heq. apply IH in Heq; try apply DWORD_range.
    apply DWORD_add_inj in Heq; try (apply ror13_range; assumption).
    apply ror13_inj; assumption.
Qed.

Lemma unicode_ror13_loop_range (n : nat) (t : list Z) (h : Z) :
  0 <= h < 2 ^ 32 -> 0 <= unicode_ror13_loop n t h < 2 ^ 32.
Proof.
  revert t h. induction n as [| n IH]; intros t h Hh; simpl.
  - destruct t; exact Hh.
  - destruct t as [| c t]; [exact Hh |]. apply IH, DWORD_range.
Qed.

(** X3. Two wide names that differ in exactly one code unit, inside
    the counted part, collide only when the two units are the same
    letter in different case. *)
Theorem unicode_ror13_hash_one_unit_apart (len : Z) (pre post : list Z) (c d : Z) :
  Z.of_nat (length pre) < len / 2 ->
  0 <= c < 2 ^ 16 -> 0 <= d < 2 ^ 16 ->
  (unicode_ror13_hash {| Length := len; Buffer := pre ++ c :: post |}
   = unicode_ror13_hash {| Length := len; Buffer := pre ++ d :: post |}
   <-> to_upper c = to_upper d).
Proof.
  intros Hlen Hc Hd. unfold unicode_ror13_hash. cbn [Length Buffer].
  replace (Z.to_nat (len / 2))
    with (length pre + S (Z.to_nat (len / 2) - S (length pre)))%nat by lia.
  rewrite !unicode_ror13_loop_app.
  assert (Hh : 0 <= unicode_ror13_loop (length pre) pre 0 < 2 ^ 32)
    by (apply unicode_ror13_loop_range; lia).
  revert Hh. generalize (unicode_ror13_loop (length pre) pre 0). intros h Hh.
  cbn [unicode_ror13_loop].
  assert (Hup : forall x, 0 <= x < 2 ^ 16 -> 0 <= to_upper x < 2 ^ 32).
  { intros x Hx. unfold to_upper.
    destruct (Z.leb_spec 97 x), (Z.leb_spec x 122); simpl;
      change (2 ^ 16) with 65536 in *; change (2 ^ 32) with 4294967296; lia. }
  split.
  - intros Heq. apply unicode_ror13_loop_inj in Heq; try apply DWORD_range.
    destruct (Z.eq_dec (to_upper c) (to_upper d)) as [E | E]; [exact E |].
    exfalso. revert Heq. apply DWORD_add_diff; auto.
  - intros ->. reflexivity.
Qed.

Lemma unicode_ror13_hash_one_unit_apart_witness :
  unicode_ror13_hash (unicode_string (wide (cstring "NTDLL.DLL")))
  = unicode_ror13_hash (unicode_string (wide (cstring "NTDLl.DLL"))).
Proof.
  apply (unicode_ror13_hash_one_unit_apart 18
           (wide (cstring "NTDL")) (wide (cstring ".DLL")) 76 108).
  - vm_compute. reflexivity.
  - lia.
  - lia.
  - reflexivity.
Defined.

Lemma unicode_ror13_loop_beyond (n : nat) (ws extra : list Z) (hash : Z) :
  (length ws <= n)%nat ->
  unicode_ror13_loop (length ws) (ws ++ extra) hash
  = unicode_ror13_loop n ws hash.
Proof.
  revert n hash. induction ws as [| c ws IH]; intros n hash Hn; simpl.
  - destruct extra, n; reflexivity.
  - destruct n as [| n]; [simpl in Hn; lia |].
    simpl. apply IH. simpl in Hn. lia.
Qed.

(** X4. Only the [Length / 2] counted units are hashed: what the
    buffer holds after them (a terminator, say) and an odd trailing
    byte of [Length] change nothing. *)
Theorem unicode_ror13_hash_counted_units (len : Z) (ws extra : list Z) :
  len / 2 = Z.of_nat (length ws) ->
  unicode_ror13_hash {| Length := len; Buffer := ws ++ extra |}
  = unicode_ror13_hash (unicode_string ws).
Proof.
  intros Hlen. unfold unicode_ror13_hash, unicode_string. cbn [Length Buffer].
  rewrite Hlen, Nat2Z.id.
  replace (Z.to_nat (2 * Z.of_nat (length ws) / 2)) with (length ws)
    by (rewrite Z.mul_comm, Z.div_mul by lia; lia).
  apply unicode_ror13_loop_beyond. lia.
Qed.

Lemma unicode_ror13_hash_counted_units_witness :
  unicode_ror13_hash
    {| Length := 25; Buffer := wide (cstring "KERNEL32.DLL") ++ [0; 65] |}
  = unicode_ror13_hash (unicode_string (wide (cstring "KERNEL32.DLL"))).
Proof.
  apply (unicode_ror13_hash_counted_units 25 (wide (cstring "KERNEL32.DLL")) [0; 65]).
  reflexivity.
Defined.

End HashStructure.

(** ** Module enumerator: a list that does not close *)

Section ModuleDivergence.

Variable L : layout.

(** Fuel that does not outlast a run of entries that do not match is
    used up inside the run. *)
Lemma module_walk_short (m : memory) (pListHead stop first target : Z)
    (pre : list ModuleRecord) :
  module_segment L m pListHead stop first pre ->
  Forall (fun md => ~ module_matches target md) pre ->
  forall fuel : nat,
    (fuel <= length pre)%nat ->
    module_walk L fuel m pListHead first target = OutOfFuel.
Proof.
  induction 1 as [| e next md mods Hne Hname Hbase Hnext _ IH];
    intros Hpre fuel Hfuel.
  - simpl in Hfuel. replace fuel with 0%nat by lia. reflexivity.
  - destruct fuel as [| fuel]; [reflexivity |].
    inversion Hpre as [| ? ? Hmd Hrest]; subst.
    cbn [module_walk].
    destruct (Z.eqb_spec e pListHead) as [| _]; [contradiction |].
    rewrite Hname. cbn [bind].
    destruct (Z.eqb_spec (unicode_ror13_hash (BaseDllName md)) target) as [Heq | _].
    + exfalso. apply Hmd. exact Heq.
    + rewrite Hnext. cbn [bind]. apply IH; [exact Hrest |].
      simpl in Hfuel. lia.
Qed.

Lemma module_walk_cycle (m : memory) (pListHead e target : Z)
    (md : ModuleRecord) (cyc : list ModuleRecord) :
  module_segment L m pListHead e e (md :: cyc) ->
  Forall (fun x => ~ module_matches target x) (md :: cyc) ->
  forall fuel : nat, module_walk L fuel m pListHead e target = OutOfFuel.
Proof.
  intros Hcyc Hnone fuel.
  induction fuel as [fuel IH] using lt_wf_ind.
  destruct (Nat.le_gt_cases fuel (length (md :: cyc))) as [Hle | Hgt].
  - eapply module_walk_short; eassumption.
  - replace fuel
      with (length (md :: cyc) + (fuel - length (md :: cyc)))%nat by lia.
    rewrite (module_walk_skip L _ _ _ _ _ _ Hcyc Hnone).
    apply IH. simpl length in *. lia.
Qed.

(** X5. When the links, followed from the list anchor, run into a
    cycle that does not pass through the list head and no entry on
    the way matches, [find_module_by_hash] does not return: whatever
    the fuel, the walk is still going when it runs out. *)
Theorem find_module_by_hash_cycle_diverges (p : process) (target : Z)
    (pListHead first e : Z) (pre cyc : list ModuleRecord) (md : ModuleRecord) :
  list_anchor L p pListHead first ->
  module_segment L (mem p) pListHead e first pre ->
  module_segment L (mem p) pListHead e e (md :: cyc) ->
  Forall (fun x => ~ module_matches target x) (pre ++ md :: cyc) ->
  forall fuel : nat, find_module_by_hash L fuel p target = OutOfFuel.
Proof.
  intros Hanchor Hpre Hcyc Hnone fuel.
  apply Forall_app in Hnone as [Hn1 Hn2].
  rewrite (find_module_by_hash_anchor L _ _ _ _ _ Hanchor).
  destruct (Nat.le_gt_cases fuel (length pre)) as [Hle | Hgt].
  - eapply module_walk_short; eassumption.
  - replace fuel with (length pre + (fuel - length pre))%nat by lia.
    rewrite (module_walk_skip L _ _ _ _ _ _ Hpre Hn1).
    eapply module_walk_cycle; eassumption.
Qed.

End ModuleDivergence.

Lemma find_module_by_hash_cycle_diverges_witness :
  find_module_by_hash win64 1000 Demo2.proc_cycle HASH_KERNEL32 = OutOfFuel.
Proof.
  refine (find_module_by_hash_cycle_diverges win64 Demo2.proc_cycle HASH_KERNEL32
            0x8020 0x9010 0x9010 [] [] Demo.kernel32 _ _ _ _ 1000%nat).
  - exists 0x8000. repeat split; reflexivity.
  - apply segment_end.
  - apply (segment_link win64 _ _ _ 0x9010 0x9010 Demo.kernel32);
      [discriminate | reflexivity | reflexivity | reflexivity |].
    apply segment_end.
  - repeat constructor. vm_compute. discriminate.
Defined.

(** ** Export scanner: NULL means no match *)

Section ExportResult.

Variable L : layout.

Lemma load_le_range (n : nat) (m : memory) (a v : Z) :
  load_le n m a = Ret v -> 0 <= v < 256 ^ Z.of_nat n.
Proof.
  revert a v. induction n as [| n IH]; intros a v; simpl load_le.
  - intros [= <-]. simpl. lia.
  - unfold load8. destruct (m a) as [b |]; cbn [bind]; [| discriminate].
    destruct (load_le n m (a + 1)) as [hi | |] eqn:Hhi; cbn [bind];
      try discriminate.
    intros [= <-]. apply IH in Hhi. pose proof (byte_value_range b).
    rewrite Nat2Z.inj_succ, Z.pow_succ_r by lia. lia.
Qed.

Lemma load32_range (m : memory) (a v : Z) :
  load32 m a = Ret v -> 0 <= v < 2 ^ 32.
Proof. intros H. apply load_le_range in H. exact H. Qed.

Lemma export_entries_rva_range (m : memory)
    (hModule pNames pFunctions pOrdinals i : Z) (exps : list ExportEntry) :
  export_entries m hModule pNames pFunctions pOrdinals i exps ->
  Forall (fun e => 0 <= exp_rva e < 2 ^ 32) exps.
Proof.
  induction 1 as [| i name_rva e exps Hn Hs Ho Hf _ IH]; constructor.
  - eapply load32_range. exact Hf.
  - exact IH.
Qed.

(** A list either has no element with a decidable property or splits
    at its first element with it. *)
Lemma first_split {A : Type} (P : A -> Prop) (dec : forall x, {P x} + {~ P x})
    (l : list A) :
  Forall (fun x => ~ P x) l \/
  exists pre x post, l = pre ++ x :: post /\ Forall (fun y => ~ P y) pre /\ P x.
Proof.
  induction l as [| x l IH].
  - left. constructor.
  - destruct (dec x) as [Hx | Hx].
    + right. exists [], x, l. split; [reflexivity | split; [constructor | exact Hx]].
    + destruct IH as [Hnone | (pre & y & post & -> & Hpre & Hy)].
      * left. constructor; assumption.
      * right. exists (x :: pre), y, post.
        split; [reflexivity | split; [constructor; assumption | exact Hy]].
Qed.

Lemma find_function_by_hash_first (fuel : nat) (m : memory) (hModule target : Z)
    (pre post : list ExportEntry) (e : ExportEntry) :
  hModule <> NULL ->
  export_directory L m hModule (pre ++ e :: post) ->
  Forall (name_fits fuel) (pre ++ e :: post) ->
  Forall (fun x => ~ export_matches target x) pre ->
  export_matches target e ->
  find_function_by_hash L fuel m hModule target
  = Ret (FARPROC L (hModule + exp_rva e)).
Proof.
  intros Hnull Hdir Hfit Hpre He.
  destruct (find_function_by_hash_directory L fuel m hModule target _ Hnull Hdir)
    as (pN & pF & pO & Hentries & ->).
  apply export_entries_split in Hentries as [Hs1 Hs2].
  apply Forall_app in Hfit as [Hfit1 Hfit2].
  rewrite length_app. cbn [length].
  rewrite (export_scan_skip _ _ _ _ _ _ _ _ _ _ Hs1 Hpre Hfit1).
  eapply export_scan_match; [exact Hs2 | exact He |].
  inversion Hfit2; assumption.
Qed.

Lemma find_function_by_hash_none (fuel : nat) (m : memory) (hModule target : Z)
    (exps : list ExportEntry) :
  hModule <> NULL ->
  export_directory L m hModule exps ->
  Forall (name_fits fuel) exps ->
  Forall (fun x => ~ export_matches target x) exps ->
  find_function_by_hash L fuel m hModule target = Ret NULL.
Proof.
  intros Hnull Hdir Hfit Hnone.
  destruct (find_function_by_hash_directory L fuel m hModule target _ Hnull Hdir)
    as (pN & pF & pO & Hentries & ->).
  rewrite <- (Nat.add_0_r (length exps)).
  rewrite (export_scan_skip _ _ _ _ _ _ _ _ _ _ Hentries Hnone Hfit).
  reflexivity.
Qed.

Lemma export_directory_rva_range (m : memory) (hModule : Z)
    (exps : list ExportEntry) :
  export_directory L m hModule exps ->
  Forall (fun e => 0 <= exp_rva e < 2 ^ 32) exps.
Proof.
  intros (rva & names & functions & ordinals & _ & _ & _ & _ & _ & _ & Hentries).
  eapply export_entries_rva_range. exact Hentries.
Qed.

(** X6. On a mapped image with a positive base, all of whose
    exported functions lie inside the address space (no pointer sum
    wraps around), the NULL return is exact: [find_function_by_hash]
    returns NULL if and only if no exported name hashes to the
    target, and an address it returns otherwise lies in the 4 GiB
    that start at the module base. *)
Theorem find_function_by_hash_null_iff (fuel : nat) (m : memory)
    (hModule target : Z) (exps : list ExportEntry) :
  0 < hModule ->
  export_directory L m hModule exps ->
  Forall (name_fits fuel) exps ->
  Forall (fun e => hModule + exp_rva e < 2 ^ (8 * Z.of_nat (pointer_bytes L)))
    exps ->
  (find_function_by_hash L fuel m hModule target = Ret NULL
   <-> Forall (fun e => ~ export_matches target e) exps) /\
  (exists a,
      find_function_by_hash L fuel m hModule target = Ret a /\
      (a = NULL \/ hModule <= a < hModule + 2 ^ 32)).
Proof.
  intros Hpos Hdir Hfit Hspace.
  assert (Hnull : hModule <> NULL) by (unfold NULL; lia).
  pose proof (export_directory_rva_range _ _ _ Hdir) as Hrva.
  destruct (first_split (export_matches target)
              (fun e => Z.eq_dec (ror13_hash (exp_name e)) target) exps)
    as [Hnone | (pre & e & post & -> & Hpre & He)].
  - pose proof (find_function_by_hash_none fuel m hModule target exps
                  Hnull Hdir Hfit Hnone) as Hres.
    split; [split; intros _; assumption |].
    exists NULL. split; [exact Hres | left; reflexivity].
  - pose proof (find_function_by_hash_first fuel m hModule target pre post e
                  Hnull Hdir Hfit Hpre He) as Hres.
    apply Forall_app in Hrva as [_ Hrva].
    inversion Hrva as [| ? ? Hr _]; subst.
    apply Forall_app in Hspace as [_ Hspace].
    inversion Hspace as [| ? ? Hin _]; subst.
    unfold FARPROC in Hres. rewrite Z.mod_small in Hres by lia.
    split.
    + split.
      * rewrite Hres. intros [= E]. unfold NULL in E. lia.
      * intros Hnone. apply Forall_app in Hnone as [_ Hnone].
        inversion Hnone as [| ? ? Hx _]; subst. contradiction.
    + exists (hModule + exp_rva e). split; [exact Hres | right; lia].
Qed.

End ExportResult.

Lemma find_function_by_hash_null_iff_witness :
  (find_function_by_hash win64 20 (mem Demo.proc) 0x10000 Demo.h_MessageBoxA
   = Ret NULL
   <-> Forall (fun e => ~ export_matches Demo.h_MessageBoxA e)
         Demo.kernel32_exports) /\
  (exists a,
      find_function_by_hash win64 20 (mem Demo.proc) 0x10000 Demo.h_MessageBoxA
      = Ret a /\ (a = NULL \/ 0x10000 <= a < 0x10000 + 2 ^ 32)).
Proof.
  apply (find_function_by_hash_null_iff win64 20 (mem Demo.proc) 0x10000
           Demo.h_MessageBoxA Demo.kernel32_exports).
  - reflexivity.
  - exact demo_export_directory.
  - repeat constructor.
  - repeat constructor.
Defined.

(** ** Resolution cache: what is stored and what is answered *)

Section CacheContents.

Variable L : layout.

(** A hit comes from a slot filed under the pair asked for. *)
Lemma cache_scan_hit_key (n : nat) (i : Z) (arr : list CACHE_ENTRY) (mh fh a : Z) :
  0 <= i ->
  cache_scan n i arr mh fh = Ret (Some a) ->
  exists (j : nat) (e : CACHE_ENTRY),
    (Z.to_nat i <= j < Z.to_nat i + n)%nat /\ arr !! j = Some e /\
    cache_key e = (mh, fh) /\ address e = a.
Proof.
  revert i. induction n as [| n IH]; intros i Hi; simpl.
  - discriminate.
  - destruct (array_get arr i) as [e | |] eqn:Hget; cbn [bind]; try discriminate.
    apply array_get_Ret in Hget as [_ Hget].
    destruct (Z.eqb_spec (module_hash e) mh) as [Em | _];
      [destruct (Z.eqb_spec (function_hash e) fh) as [Ef | _] |]; cbn [andb].
    + intros [= <-]. exists (Z.to_nat i), e.
      split; [lia |]. split; [exact Hget |].
      split; [unfold cache_key; congruence | reflexivity].
    + intros Hrest. destruct (IH (i + 1) ltac:(lia) Hrest)
        as (j & e' & Hj & He' & Hk & Ha).
      exists j, e'. split; [lia | auto].
    + intros Hrest. destruct (IH (i + 1) ltac:(lia) Hrest)
        as (j & e' & Hj & He' & Hk & Ha).
      exists j, e'. split; [lia | auto].
Qed.

(** A miss has looked at every slot of its range. *)
Lemma cache_scan_miss_keys (n : nat) (i : Z) (arr : list CACHE_ENTRY) (mh fh : Z) :
  0 <= i ->
  cache_scan n i arr mh fh = Ret None ->
  forall (j : nat) (e : CACHE_ENTRY),
    (Z.to_nat i <= j < Z.to_nat i + n)%nat -> arr !! j = Some e ->
    cache_key e <> (mh, fh).
Proof.
  revert i. induction n as [| n IH]; intros i Hi; simpl.
  - intros _ j e Hj. lia.
  - destruct (array_get arr i) as [x | |] eqn:Hget; cbn [bind]; try discriminate.
    apply array_get_Ret in Hget as [_ Hget].
    destruct ((module_hash x =? mh) && (function_hash x =? fh)) eqn:Hx;
      [discriminate |].
    intros Hrest j e Hj He.
    destruct (Nat.eq_dec j (Z.to_nat i)) as [-> | Hne].
    + rewrite Hget in He. injection He as <-.
      unfold cache_key. intros [= Em Ef].
      rewrite Em, Ef, !Z.eqb_refl in Hx. discriminate.
    + apply (IH (i + 1) ltac:(lia) Hrest j e); [lia | exact He].
Qed.

(** A slot filed under another pair, written just after the range of
    a scan, does not change what the scan answers. *)
Lemma cache_scan_append_other (n : nat) (i : Z) (arr : list CACHE_ENTRY)
    (mh fh : Z) (e : CACHE_ENTRY) :
  0 <= i ->
  (Z.to_nat i + n < length arr)%nat ->
  cache_key e <> (mh, fh) ->
  cache_scan (S n) i (<[(Z.to_nat i + n)%nat := e]> arr) mh fh
  = cache_scan n i arr mh fh.
Proof.
  intros Hi Hlen Hkey. revert i Hi Hlen.
  induction n as [| n IH]; intros i Hi Hlen.
  - cbn [cache_scan]. rewrite Nat.add_0_r in *.
    replace (array_get (<[Z.to_nat i := e]> arr) i) with (Ret e).
    + cbn [bind].
      destruct (Z.eqb_spec (module_hash e) mh) as [Em | _];
        [destruct (Z.eqb_spec (function_hash e) fh) as [Ef | _] |];
        cbn [andb]; try reflexivity.
      exfalso. apply Hkey. unfold cache_key. congruence.
    + symmetry. apply array_get_Ret. split; [exact Hi |].
      apply list_lookup_insert_eq. exact Hlen.
  - change (cache_scan (S (S n)) i ?a mh fh)
      with (do y <- array_get a i ;
            if (module_hash y =? mh) && (function_hash y =? fh)
            then Ret (Some (address y))
            else cache_scan (S n) (i + 1) a mh fh).
    change (cache_scan (S n) i arr mh fh)
      with (do y <- array_get arr i ;
            if (module_hash y =? mh) && (function_hash y =? fh)
            then Ret (Some (address y))
            else cache_scan n (i + 1) arr mh fh).
    destruct (lookup_lt_is_Some_2 arr (Z.to_nat i) ltac:(lia)) as [x Hx].
    assert (Hget : array_get arr i = Ret x)
      by (apply array_get_Ret; split; [exact Hi | exact Hx]).
    replace (array_get (<[(Z.to_nat i + S n)%nat := e]> arr) i) with (Ret x).
    + rewrite Hget. cbn [bind].
      destruct ((module_hash x =? mh) && (function_hash x =? fh));
        [reflexivity |].
      replace (Z.to_nat i + S n)%nat with (Z.to_nat (i + 1) + n)%nat by lia.
      apply IH; lia.
    + symmetry. apply array_get_Ret. split; [exact Hi |].
      rewrite list_lookup_insert_ne by lia. exact Hx.
Qed.

(** X7. From a reachable cache a NULL result is never served by the
    cache: the call has run both lookups and the export lookup has
    returned NULL. *)
Theorem resolve_cached_null_is_fresh (fuel : nat) (p : process) (mh fh : Z)
    (st st' : cache) (k k' : probe) :
  reachable L st ->
  resolve_cached L fuel p mh fh st k = Ret (NULL, st', k') ->
  cache_lookup st mh fh = Ret None /\
  k' = count_export_scan (count_module_walk k) /\
  exists hModule,
    find_module_by_hash L fuel p mh = Ret hModule /\
    find_function_by_hash L fuel (mem p) hModule fh = Ret NULL.
Proof.
  intros Hreach Hres. apply reachable_inv in Hreach.
  apply resolve_cached_cases in Hres
    as [(Hhit & _ & _) | (Hmiss & Hk & hModule & Hmod & Hfun & _)].
  - exfalso. apply (cache_lookup_not_null st mh fh NULL Hreach Hhit). reflexivity.
  - split; [exact Hmiss |]. split; [exact Hk |].
    exists hModule. split; assumption.
Qed.

Lemma cache_lookup_miss_fresh (st : cache) (mh fh : Z) :
  cache_lookup st mh fh = Ret None ->
  (mh, fh) ∉ map cache_key (entries st).
Proof.
  intros Hmiss Hin. unfold cache_lookup in Hmiss.
  apply list_elem_of_fmap in Hin as (e & Hk & He).
  unfold entries in He. apply elem_of_take in He as (j & Hj & Hlt).
  apply (cache_scan_miss_keys _ 0 _ _ _ ltac:(lia) Hmiss j e); [lia | exact Hj |].
  symmetry. exact Hk.
Qed.

Lemma keys_unique_resolve (fuel : nat) (p : process) (mh fh : Z)
    (st st' : cache) (k k' : probe) (a : Z) :
  cache_wf st -> NoDup (map cache_key (entries st)) ->
  resolve_cached L fuel p mh fh st k = Ret (a, st', k') ->
  NoDup (map cache_key (entries st')).
Proof.
  intros Hwf Huniq Hres.
  apply resolve_cached_cases in Hres
    as [(_ & -> & _) | (Hmiss & _ & hModule & _ & _ &
          [(Hnz & Hlt & arr & Hset & ->) | (_ & ->)])]; try assumption.
  apply array_set_inv in Hset. subst arr.
  rewrite entries_append by assumption.
  rewrite map_app. apply NoDup_app. split; [exact Huniq |]. split.
  - intros x Hx Hx'. apply list_elem_of_singleton in Hx'. subst x.
    apply (cache_lookup_miss_fresh st mh fh Hmiss). exact Hx.
  - apply NoDup_singleton.
Qed.

(** X8. No pair is ever stored twice: in every reachable cache the
    slots in use are filed under pairwise different pairs of module
    hash and function hash. *)
Theorem reachable_keys_unique (st : cache) :
  reachable L st -> NoDup (map cache_key (entries st)).
Proof.
  induction 1 as [| st st' fuel p mh fh a k k' Hreach IH Hres].
  - unfold entries, initial_cache. simpl. constructor.
  - apply reachable_inv in Hreach as [Hwf _].
    eapply keys_unique_resolve; eassumption.
Qed.

(** X9. A call leaves every other pair's cached answer as it was, and
    an answer the cache gives once it gives for good: later calls,
    for this pair or any other, never change or drop it. *)
Theorem resolve_cached_keeps_answers (fuel : nat) (p : process) (mh fh : Z)
    (st st' : cache) (k k' : probe) (a : Z) :
  cache_wf st ->
  resolve_cached L fuel p mh fh st k = Ret (a, st', k') ->
  (forall mh2 fh2 : Z,
      (mh2, fh2) <> (mh, fh) ->
      cache_lookup st' mh2 fh2 = cache_lookup st mh2 fh2) /\
  (forall mh2 fh2 b : Z,
      cache_lookup st mh2 fh2 = Ret (Some b) ->
      cache_lookup st' mh2 fh2 = Ret (Some b)).
Proof.
  intros Hwf Hres.
  assert (Hother : forall mh2 fh2 : Z,
             (mh2, fh2) <> (mh, fh) ->
             cache_lookup st' mh2 fh2 = cache_lookup st mh2 fh2).
  { intros mh2 fh2 Hne.
    apply resolve_cached_cases in Hres
      as [(_ & -> & _) | (_ & _ & hModule & _ & _ &
            [(Hnz & Hlt & arr & Hset & ->) | (_ & ->)])]; try reflexivity.
    apply array_set_inv in Hset. subst arr.
    destruct Hwf as [Hc Hlen].
    unfold cache_lookup. cbn [g_cache g_cache_count].
    replace (Z.to_nat (g_cache_count st + 1))
      with (S (Z.to_nat (g_cache_count st))) by lia.
    apply (cache_scan_append_other (Z.to_nat (g_cache_count st)) 0 (g_cache st)
             mh2 fh2 {| module_hash := mh; function_hash := fh; address := a |}).
    - lia.
    - rewrite Hlen. unfold MAX_CACHE_ENTRIES in *. lia.
    - unfold cache_key. cbn. congruence. }
  split; [exact Hother |].
  intros mh2 fh2 b Hhit.
  destruct (Z.eq_dec mh2 mh) as [-> | Hm];
    [destruct (Z.eq_dec fh2 fh) as [-> | Hf] |].
  - apply resolve_cached_cases in Hres
      as [(_ & -> & _) | (Hmiss & _)]; [exact Hhit | congruence].
  - rewrite Hother by congruence. exact Hhit.
  - rewrite Hother by congruence. exact Hhit.
Qed.

End CacheContents.

Lemma demo_reachable_one : reachable win64 Demo2.cache_one.
Proof.
  apply (reach_resolve win64 initial_cache Demo2.cache_one 20 Demo.proc
           Demo.h_kernel32 Demo.h_VirtualAlloc 0x15000 Demo.probe0 Demo2.probe1).
  - apply reach_initial.
  - vm_compute. reflexivity.
Qed.

Lemma resolve_cached_null_is_fresh_witness :
  cache_lookup Demo2.cache_one Demo.h_user32 Demo.h_VirtualAlloc = Ret None /\
  Demo2.probe2 = count_export_scan (count_module_walk Demo2.probe1) /\
  exists hModule,
    find_module_by_hash win64 20 Demo.proc Demo.h_user32 = Ret hModule /\
    find_function_by_hash win64 20 (mem Demo.proc) hModule Demo.h_VirtualAlloc
    = Ret NULL.
Proof.
  apply (resolve_cached_null_is_fresh win64 20 Demo.proc Demo.h_user32
           Demo.h_VirtualAlloc Demo2.cache_one Demo2.cache_one
           Demo2.probe1 Demo2.probe2 demo_reachable_one).
  vm_compute. reflexivity.
Defined.

Lemma reachable_keys_unique_witness :
  NoDup (map cache_key (entries Demo2.cache_one)).
Proof.
  apply (reachable_keys_unique win64 Demo2.cache_one demo_reachable_one).
Defined.

Lemma resolve_cached_keeps_answers_witness :
  cache_lookup Demo2.cache_two Demo.h_kernel32 Demo.h_VirtualAlloc
  = Ret (Some 0x15000).
Proof.
  apply (proj2 (resolve_cached_keeps_answers win64 20 Demo.proc
                  Demo.h_kernel32 Demo.h_CreateThread
                  Demo2.cache_one Demo2.cache_two Demo2.probe1 Demo2.probe2
                  0x16000
                  ltac:(split; [split; vm_compute; discriminate | reflexivity])
                  ltac:(vm_compute; reflexivity))).
  vm_compute. reflexivity.
Defined.

(** ** The cache is transparent while the process does not change *)

Section CacheTransparency.

Variable L : layout.

(** More fuel never changes a result. *)
Lemma load_cstr_mono (f f' : nat) (m : memory) (a : Z) (s : list byte) :
  load_cstr f m a = Ret s -> (f <= f')%nat -> load_cstr f' m a = Ret s.
Proof.
  revert f' a s. induction f as [| f IH]; intros f' a s H Hle; simpl in H.
  - discriminate.
  - destruct f' as [| f']; [lia |]. simpl.
    destruct (m a) as [c |]; [| discriminate].
    destruct (byte_value c =? 0); [exact H |].
    destruct (load_cstr f m (a + 1)) as [r | |] eqn:E; cbn [bind] in H;
      try discriminate.
    rewrite (IH f' _ _ E) by lia. exact H.
Qed.

Lemma export_scan_mono (f f' : nat) (m : memory)
    (hModule pNames pFunctions pOrdinals target : Z) (n : nat) (i v : Z) :
  export_scan L f m hModule pNames pFunctions pOrdinals target n i = Ret v ->
  (f <= f')%nat ->
  export_scan L f' m hModule pNames pFunctions pOrdinals target n i = Ret v.
Proof.
  intros H Hle. revert i H. induction n as [| n IH]; intros i H.
  - exact H.
  - cbn [export_scan] in *.
    destruct (load32 m (pNames + 4 * i)) as [name_rva | |]; cbn [bind] in *;
      try discriminate.
    destruct (load_cstr f m (hModule + name_rva)) as [s | |] eqn:E;
      cbn [bind] in H; try discriminate.
    rewrite (load_cstr_mono _ _ _ _ _ E Hle). cbn [bind].
    destruct (ror13_hash s =? target); [exact H | apply IH; exact H].
Qed.

Lemma find_function_by_hash_mono (f f' : nat) (m : memory) (hModule target v : Z) :
  find_function_by_hash L f m hModule target = Ret v ->
  (f <= f')%nat ->
  find_function_by_hash L f' m hModule target = Ret v.
Proof.
  unfold find_function_by_hash. intros H Hle.
  repeat (match type of H with
          | context [if ?b then _ else _] => destruct b
          | context [bind ?c _] => destruct c; cbn [bind] in *
          end; try discriminate; try exact H).
  eapply export_scan_mono; eassumption.
Qed.

Lemma module_walk_mono (f f' : nat) (m : memory) (pListHead e target v : Z) :
  module_walk L f m pListHead e target = Ret v ->
  (f <= f')%nat ->
  module_walk L f' m pListHead e target = Ret v.
Proof.
  revert f' e. induction f as [| f IH]; intros f' e H Hle; simpl in H.
  - discriminate.
  - destruct f' as [| f']; [lia |]. simpl.
    destruct (e =? pListHead); [exact H |].
    destruct (load_unicode_string L m _) as [name | |]; cbn [bind] in *;
      try discriminate.
    destruct (unicode_ror13_hash name =? target); [exact H |].
    destruct (load_ptr L m (e + LIST_Flink)) as [next | |]; cbn [bind] in *;
      try discriminate.
    apply IH; [exact H | lia].
Qed.

Lemma find_module_by_hash_mono (f f' : nat) (p : process) (target v : Z) :
  find_module_by_hash L f p target = Ret v ->
  (f <= f')%nat ->
  find_module_by_hash L f' p target = Ret v.
Proof.
  unfold find_module_by_hash. intros H Hle.
  destruct (load_ptr L (mem p) (peb p + PEB_Ldr L)) as [pLdr | |];
    cbn [bind] in *; try discriminate.
  destruct (load_ptr L (mem p) _) as [first | |]; cbn [bind] in *;
    try discriminate.
  eapply module_walk_mono; eassumption.
Qed.

Lemma resolve_uncached_mono (f f' : nat) (p : process) (mh fh v : Z) :
  resolve_uncached L f p mh fh = Ret v ->
  (f <= f')%nat ->
  resolve_uncached L f' p mh fh = Ret v.
Proof.
  unfold resolve_uncached. intros H Hle.
  destruct (find_module_by_hash L f p mh) as [h | |] eqn:E; cbn [bind] in H;
    try discriminate.
  rewrite (find_module_by_hash_mono _ _ _ _ _ E Hle). cbn [bind].
  eapply find_function_by_hash_mono; eassumption.
Qed.

Lemma reachable_in_wf (p : process) (st : cache) :
  reachable_in L p st -> cache_wf st.
Proof.
  induction 1 as [| st st' fuel mh fh a k k' _ IH Hres].
  - apply cache_inv_initial.
  - apply (cache_wf_resolve L _ _ _ _ _ _ _ _ _ IH Hres).
Qed.

Lemma reachable_in_agrees (p : process) (st : cache) :
  reachable_in L p st -> Forall (agrees_with L p) (entries st).
Proof.
  induction 1 as [| st st' fuel mh fh a k k' Hreach IH Hres].
  - unfold entries, initial_cache. simpl. constructor.
  - pose proof (reachable_in_wf _ _ Hreach) as Hwf.
    apply resolve_cached_cases in Hres
      as [(_ & -> & _) | (_ & _ & hModule & Hmod & Hfun &
            [(Hnz & Hlt & arr & Hset & ->) | (_ & ->)])]; try assumption.
    apply array_set_inv in Hset. subst arr.
    rewrite entries_append by assumption.
    apply Forall_app. split; [exact IH |].
    constructor; [| constructor].
    exists fuel. intros fuel' Hle. cbn [module_hash function_hash address].
    apply (resolve_uncached_mono fuel); [| exact Hle].
    unfold resolve_uncached. rewrite Hmod. cbn [bind]. exact Hfun.
Qed.

(** X10. As long as every call is made in the same process state, the
    cache is transparent: whatever [resolve_cached] returns, from the
    cache or not, is what the two lookups return in that state, for
    every fuel from some point on. *)
Theorem resolve_cached_transparent (p : process) (st st' : cache)
    (fuel : nat) (mh fh a : Z) (k k' : probe) :
  reachable_in L p st ->
  resolve_cached L fuel p mh fh st k = Ret (a, st', k') ->
  exists fuel0 : nat,
    forall fuel' : nat,
      (fuel0 <= fuel')%nat -> resolve_uncached L fuel' p mh fh = Ret a.
Proof.
  intros Hreach Hres.
  pose proof (reachable_in_agrees _ _ Hreach) as Hagree.
  apply resolve_cached_cases in Hres
    as [(Hhit & _ & _) | (_ & _ & hModule & Hmod & Hfun & _)].
  - unfold cache_lookup in Hhit.
    apply cache_scan_hit_key in Hhit as (j & e & Hj & He & Hk & <-); [| lia].
    rewrite Forall_forall in Hagree.
    destruct (Hagree e) as (fuel0 & Hfuel0).
    + unfold entries. apply elem_of_take. exists j. split; [exact He | lia].
    + injection Hk as <- <-. exists fuel0. exact Hfuel0.
  - exists fuel. intros fuel' Hle.
    apply (resolve_uncached_mono fuel); [| exact Hle].
    unfold resolve_uncached. rewrite Hmod. cbn [bind]. exact Hfun.
Qed.

End CacheTransparency.

Lemma resolve_cached_transparent_witness :
  exists fuel0 : nat,
    forall fuel' : nat,
      (fuel0 <= fuel')%nat ->
      resolve_uncached win64 fuel' Demo.proc Demo.h_kernel32 Demo.h_VirtualAlloc
      = Ret 0x15000.
Proof.
  apply (resolve_cached_transparent win64 Demo.proc Demo2.cache_one
           Demo2.cache_one 0 Demo.h_kernel32 Demo.h_VirtualAlloc 0x15000
           Demo.probe0 Demo.probe0).
  - apply (reach_in_resolve win64 Demo.proc initial_cache Demo2.cache_one 20
             Demo.h_kernel32 Demo.h_VirtualAlloc 0x15000 Demo.probe0 Demo2.probe1).
    + apply reach_in_initial.
    + vm_compute. reflexivity.
  - vm_compute. reflexivity.
Defined.

(** ** The position-independent example *)

Section PicMessageBoxFacts.

Variable L : layout.

(** X11. [get_kernel32] picks by position, not by name: on a list of
    two modules or more it returns the base of the second one,
    whatever it is called.  It is what [find_module_by_hash] returns
    exactly when the second module is the first whose name hashes to
    the target. *)
Theorem get_kernel32_second (p : process) (m1 m2 : ModuleRecord)
    (rest : list ModuleRecord) :
  loaded_modules L p (m1 :: m2 :: rest) ->
  get_kernel32 L p = Ret (DllBase m2) /\
  (forall (fuel : nat) (target : Z),
      (2 <= fuel)%nat ->
      ~ module_matches target m1 -> module_matches target m2 ->
      find_module_by_hash L fuel p target = get_kernel32 L p).
Proof.
  intros Hmods.
  assert (Hget : get_kernel32 L p = Ret (DllBase m2)).
  { destruct Hmods as (pListHead & first & (pLdr & HLdr & -> & Hfirst) & Hseg).
    inversion Hseg as [| ? next ? ? Hne1 Hname1 Hbase1 Hnext1 Hrest]; subst.
    inversion Hrest as [| ? next2 ? ? Hne2 Hname2 Hbase2 Hnext2 _]; subst.
    unfold get_kernel32. rewrite HLdr. cbn [bind].
    rewrite Hfirst. cbn [bind]. rewrite Hnext1. cbn [bind]. exact Hbase2. }
  split; [exact Hget |].
  intros fuel target Hfuel Hn1 Hm2. rewrite Hget.
  apply (find_module_by_hash_found L fuel p target [m1] rest m2);
    [exact Hmods | simpl; lia | constructor; [exact Hn1 | constructor] | exact Hm2].
Qed.

(** X12. [get_kernel32] does not look for the end of the list: when
    the list holds one module or none, the second link is the list
    head itself, and the function returns whatever pointer lies where
    an entry containing the head would keep its base. *)
Theorem get_kernel32_short_list (p : process) (pListHead first : Z)
    (mods : list ModuleRecord) :
  list_anchor L p pListHead first ->
  module_segment L (mem p) pListHead pListHead first mods ->
  (length mods <= 1)%nat ->
  get_kernel32 L p
  = load_ptr L (mem p)
      (pListHead - ENTRY_InMemoryOrderLinks L + ENTRY_DllBase L).
Proof.
  intros (pLdr & HLdr & -> & Hfirst) Hseg Hlen.
  unfold get_kernel32. rewrite HLdr. cbn [bind]. rewrite Hfirst. cbn [bind].
  inversion Hseg as [| ? next ? ? Hne1 Hname1 Hbase1 Hnext1 Hrest]; subst.
  - rewrite Hfirst. reflexivity.
  - inversion Hrest as [| ? ? ? ? _ _ _ _ _]; subst.
    + rewrite Hnext1. reflexivity.
    + simpl in Hlen. lia.
Qed.

(** X13. [resolve_by_hash] is [find_function_by_hash] without its
    checks: on an image other than NULL whose two signatures are in
    place and whose export directory offset is not zero the two
    return the same, for every target; on NULL the resolver returns
    NULL, while [resolve_by_hash] reads the header field at address
    [0x3C] and faults when nothing is mapped there. *)
Theorem resolve_by_hash_unchecked (fuel : nat) (m : memory) (target : Z) :
  (forall hModule export_rva : Z,
      hModule <> NULL ->
      pe_headers L m hModule export_rva ->
      export_rva <> 0 ->
      resolve_by_hash L fuel m hModule target
      = find_function_by_hash L fuel m hModule target) /\
  (load32 m (NULL + DOS_e_lfanew) = Fault ->
   resolve_by_hash L fuel m NULL target = Fault /\
   find_function_by_hash L fuel m NULL target = Ret NULL).
Proof.
  split.
  - intros hModule rva Hnull Hhdr Hrva.
    rewrite (find_function_by_hash_headers L _ _ _ _ _ Hnull Hhdr).
    destruct Hhdr as (pNt & (_ & e_lfanew & Hlfanew & ->) & _ & Hexp).
    unfold resolve_by_hash. rewrite Hlfanew. cbn [bind].
    rewrite Hexp. cbn [bind].
    destruct (Z.eqb_spec rva 0) as [| _]; [contradiction | reflexivity].
  - intros Hfault. split; [| reflexivity].
    unfold resolve_by_hash. rewrite Hfault. reflexivity.
Qed.

End PicMessageBoxFacts.

Lemma get_kernel32_second_witness :
  get_kernel32 win64 Demo.proc = Ret 0x20000 /\
  find_module_by_hash win64 2 Demo.proc Demo.h_user32
  = get_kernel32 win64 Demo.proc.
Proof.
  destruct (get_kernel32_second win64 Demo.proc Demo.kernel32 Demo.user32 []
              demo_loaded_modules) as [Hget Hfind].
  split; [exact Hget |].
  apply Hfind.
  - lia.
  - vm_compute. discriminate.
  - reflexivity.
Defined.

Lemma get_kernel32_short_list_witness :
  get_kernel32 win64 Demo.proc_early
  = load_ptr win64 (mem Demo.proc_early) 0x8040.
Proof.
  apply (get_kernel32_short_list win64 Demo.proc_early 0x8020 0x9010
           [Demo.kernel32]).
  - exists 0x8000. repeat split; reflexivity.
  - apply (segment_link win64 _ _ _ 0x9010 0x8020 Demo.kernel32);
      [discriminate | reflexivity | reflexivity | reflexivity |].
    apply segment_end.
  - simpl. lia.
Defined.

Lemma resolve_by_hash_unchecked_witness :
  resolve_by_hash win64 20 (mem Demo.proc) 0x10000 Demo.h_CreateThread
  = find_function_by_hash win64 20 (mem Demo.proc) 0x10000 Demo.h_CreateThread /\
  resolve_by_hash win64 20 (mem Demo.proc) NULL Demo.h_CreateThread = Fault.
Proof.
  destruct (resolve_by_hash_unchecked win64 20 (mem Demo.proc)
              Demo.h_CreateThread) as [Hsame Hnull].
  split.
  - apply (Hsame 0x10000 0x200).
    + discriminate.
    + exists 0x10080. split; [split; [reflexivity |] | split; reflexivity].
      exists 0x80. split; reflexivity.
    + discriminate.
  - apply Hnull. reflexivity.
Defined.

(** ** Writing memory *)

Section MemoryWrites.

Lemma update_eq (m : memory) (a : Z) (b : byte) : update m a b a = Some b.
Proof. unfold update. rewrite Z.eqb_refl. reflexivity. Qed.

Lemma update_neq (m : memory) (a x : Z) (b : byte) :
  x <> a -> update m a b x = m x.
Proof.
  intros H. unfold update. destruct (Z.eqb_spec x a); [contradiction | reflexivity].
Qed.

Lemma update_mapped (m : memory) (a x : Z) (b : byte) :
  m x <> None -> update m a b x <> None.
Proof.
  intros H. unfold update. destruct (x =? a); [discriminate | exact H].
Qed.

Lemma store_byte_mapped (m : memory) (a : Z) (b : byte) :
  m a <> None -> store_byte m a b = Ret (update m a b).
Proof.
  intros H. unfold store_byte. destruct (m a); [reflexivity | contradiction].
Qed.

Lemma check_bytes_sound (m : memory) (a : Z) (bs : list byte) :
  check_bytes m a bs = true -> bytes_at m a bs.
Proof.
  revert a. induction bs as [| b bs IH]; intros a; simpl; [trivial |].
  destruct (m a) as [c |]; [| discriminate].
  intros H. apply andb_true_iff in H as [Hc Hrest].
  apply Byte.byte_dec_bl in Hc. subst c. split; [reflexivity | apply IH, Hrest].
Qed.

Lemma check_writable_sound (m : memory) (a : Z) (n : nat) :
  check_writable m a n = true -> writable m a n.
Proof.
  revert a. induction n as [| n IH]; intros a; simpl; [trivial |].
  destruct (m a) as [c |]; [| discriminate].
  intros H. split; [discriminate | apply IH, H].
Qed.

Lemma bytes_at_frame (m m' : memory) (a : Z) (bs : list byte) :
  (forall x, a <= x < a + Z.of_nat (length bs) -> m' x = m x) ->
  bytes_at m a bs -> bytes_at m' a bs.
Proof.
  revert a. induction bs as [| b bs IH]; intros a Hsame; simpl; [trivial |].
  intros [Hb Hrest]. split.
  - rewrite Hsame; [exact Hb | simpl length; lia].
  - apply IH; [| exact Hrest].
    intros x Hx. apply Hsame. simpl length. lia.
Qed.

Lemma writable_frame (m m' : memory) (a : Z) (n : nat) :
  (forall x, m x <> None -> m' x <> None) ->
  writable m a n -> writable m' a n.
Proof.
  intros Hmap. revert a. induction n as [| n IH]; intros a; simpl; [trivial |].
  intros [Ha Hrest]. split; [apply Hmap, Ha | apply IH, Hrest].
Qed.

Lemma bytes_at_app (m : memory) (a : Z) (bs cs : list byte) :
  bytes_at m a (bs ++ cs)
  <-> bytes_at m a bs /\ bytes_at m (a + Z.of_nat (length bs)) cs.
Proof.
  revert a. induction bs as [| b bs IH]; intros a; simpl.
  - rewrite Z.add_0_r. tauto.
  - rewrite IH.
    replace (a + 1 + Z.of_nat (length bs))
      with (a + Z.pos (Pos.of_succ_nat (length bs))) by lia.
    tauto.
Qed.

Lemma writable_split (m : memory) (a : Z) (n k : nat) :
  writable m a (n + k) <-> writable m a n /\ writable m (a + Z.of_nat n) k.
Proof.
  revert a. induction n as [| n IH]; intros a; simpl.
  - rewrite Z.add_0_r. tauto.
  - rewrite IH.
    replace (a + 1 + Z.of_nat n) with (a + Z.pos (Pos.of_succ_nat n)) by lia.
    tauto.
Qed.

(** The copy loop from index [i] on: the source bytes arrive, and
    nothing else changes, provided no write lands on a source byte
    that is still to be read. *)
Lemma my_memcpy_loop_copies (d s : Z) (bs : list byte) :
  forall (m : memory) (i : Z),
    bytes_at m (s + i) bs ->
    writable m (d + i) (length bs) ->
    d <= s \/ s + i + Z.of_nat (length bs) <= d + i ->
    exists m',
      my_memcpy_loop (length bs) m d s i = Ret m' /\
      bytes_at m' (d + i) bs /\
      (forall x, ~ (d + i <= x < d + i + Z.of_nat (length bs)) -> m' x = m x) /\
      (forall x, m x <> None -> m' x <> None).
Proof.
  induction bs as [| b bs IH]; intros m i Hsrc Hdst Hsafe.
  - exists m. simpl. repeat split; auto.
  - destruct Hsrc as [Hb Hsrc]. destruct Hdst as [Hd Hdst].
    cbn [length my_memcpy_loop]. unfold load_byte. rewrite Hb. cbn [bind].
    rewrite (store_byte_mapped _ _ _ Hd). cbn [bind].
    destruct (IH (update m (d + i) b) (i + 1)) as (m' & Hrun & Hcopied & Hframe & Hmap).
    + replace (s + (i + 1)) with (s + i + 1) by lia.
      apply (bytes_at_frame m); [| exact Hsrc].
      intros x Hx. apply update_neq. simpl length in Hsafe. lia.
    + replace (d + (i + 1)) with (d + i + 1) by lia.
      apply (writable_frame m); [| exact Hdst].
      intros x. apply update_mapped.
    + simpl length in Hsafe. lia.
    + exists m'. split; [exact Hrun |]. split; [| split].
      * split.
        -- rewrite Hframe by lia. apply update_eq.
        -- replace (d + i + 1) with (d + (i + 1)) by lia. exact Hcopied.
      * intros x Hx. rewrite Hframe by (simpl length in Hx; lia).
        apply update_neq. simpl length in Hx. lia.
      * intros x Hx. apply Hmap, update_mapped, Hx.
Qed.

(** The copy loop faults as soon as one source byte is not mapped. *)
Lemma my_memcpy_loop_faults (d s : Z) (n : nat) :
  forall (m : memory) (i : Z),
    (exists j, i <= j < i + Z.of_nat n /\ m (s + j) = None) ->
    my_memcpy_loop n m d s i = Fault.
Proof.
  induction n as [| n IH]; intros m i (j & Hj & Hnone).
  - lia.
  - cbn [my_memcpy_loop]. unfold load_byte.
    destruct (m (s + i)) as [c |] eqn:Hc; cbn [bind]; [| reflexivity].
    unfold store_byte. destruct (m (d + i)) as [c0 |] eqn:Hd; cbn [bind];
      [| reflexivity].
    apply IH. exists j. split.
    + assert (j <> i) by (intros ->; congruence). lia.
    + unfold update. destruct (Z.eqb_spec (s + j) (d + i)) as [E | _];
        [| exact Hnone].
      rewrite E in Hnone. congruence.
Qed.

Lemma my_memcpy_copy (m : memory) (dest src : Z) (bs : list byte) :
  bytes_at m src bs ->
  writable m dest (length bs) ->
  dest <= src \/ src + Z.of_nat (length bs) <= dest ->
  exists m',
    my_memcpy m dest src (Z.of_nat (length bs)) = Ret (dest, m') /\
    bytes_at m' dest bs /\
    (forall x, ~ (dest <= x < dest + Z.of_nat (length bs)) -> m' x = m x) /\
    (forall x, m x <> None -> m' x <> None).
Proof.
  intros Hsrc Hdst Hsafe.
  destruct (my_memcpy_loop_copies dest src bs m 0) as (m' & Hrun & Hc & Hf & Hm).
  - rewrite Z.add_0_r. exact Hsrc.
  - rewrite Z.add_0_r. exact Hdst.
  - lia.
  - exists m'. unfold my_memcpy. rewrite Nat2Z.id, Hrun. cbn [bind].
    rewrite Z.add_0_r in *. repeat split; auto.
Qed.

(** X14. [my_memcpy] copies forward, one byte at a time.  When the
    destination does not lie inside the source above its start the
    [n] source bytes arrive at the destination, every other byte of
    memory keeps its value, and the destination pointer is returned;
    when one of the [n] source bytes is not mapped the call faults. *)
Theorem my_memcpy_forward (m : memory) (dest src : Z) (bs : list byte) :
  (bytes_at m src bs ->
   writable m dest (length bs) ->
   dest <= src \/ src + Z.of_nat (length bs) <= dest ->
   exists m',
     my_memcpy m dest src (Z.of_nat (length bs)) = Ret (dest, m') /\
     bytes_at m' dest bs /\
     (forall x, ~ (dest <= x < dest + Z.of_nat (length bs)) -> m' x = m x)) /\
  (forall n j : Z,
      0 <= j < n -> m (src + j) = None ->
      my_memcpy m dest src n = Fault).
Proof.
  split.
  - intros Hsrc Hdst Hsafe.
    destruct (my_memcpy_copy m dest src bs Hsrc Hdst Hsafe)
      as (m' & Hrun & Hc & Hf & _).
    exists m'. auto.
  - intros n j Hj Hnone. unfold my_memcpy.
    rewrite (my_memcpy_loop_faults dest src (Z.to_nat n) m 0); [reflexivity |].
    exists j. split; [lia | exact Hnone].
Qed.

(** With the destination one byte above the source every write lands
    on the byte that is read next. *)
Lemma my_memcpy_loop_smear (s : Z) (b : byte) (n : nat) :
  forall (m : memory) (i : Z),
    m (s + i) = Some b ->
    writable m (s + 1 + i) n ->
    exists m',
      my_memcpy_loop n m (s + 1) s i = Ret m' /\
      bytes_at m' (s + 1 + i) (repeat b n).
Proof.
  induction n as [| n IH]; intros m i Hb Hdst.
  - exists m. split; [reflexivity | exact I].
  - destruct Hdst as [Hd Hdst].
    cbn [my_memcpy_loop]. unfold load_byte. rewrite Hb. cbn [bind].
    rewrite (store_byte_mapped _ _ _ Hd). cbn [bind].
    destruct (IH (update m (s + 1 + i) b) (i + 1)) as (m' & Hrun & Hc).
    + replace (s + (i + 1)) with (s + 1 + i) by lia. apply update_eq.
    + replace (s + 1 + (i + 1)) with (s + 1 + i + 1) by lia.
      apply (writable_frame m); [| exact Hdst].
      intros x. apply update_mapped.
    + exists m'. split; [exact Hrun |]. cbn [repeat bytes_at]. split.
      * assert (Hkeep : forall k (m0 m1 : memory) (j : Z),
                   my_memcpy_loop k m0 (s + 1) s j = Ret m1 ->
                   forall x, x < s + 1 + j -> m1 x = m0 x).
        { clear. induction k as [| k IHk]; intros m0 m1 j; cbn [my_memcpy_loop].
          - intros [= <-] x _. reflexivity.
          - unfold load_byte, store_byte.
            destruct (m0 (s + j)); cbn [bind]; [| discriminate].
            destruct (m0 (s + 1 + j)); cbn [bind]; [| discriminate].
            intros Hrun x Hx. rewrite (IHk _ _ _ Hrun) by lia.
            apply update_neq. lia. }
        rewrite (Hkeep _ _ _ _ Hrun) by lia. apply update_eq.
      * replace (s + 1 + i + 1) with (s + 1 + (i + 1)) by lia. exact Hc.
Qed.

(** X15. [my_memcpy] is not [memmove]: with the destination one byte
    above the source, the first source byte is what every one of the
    [n] destination bytes ends up holding. *)
Theorem my_memcpy_overlap_smears (m : memory) (src : Z) (b : byte) (n : nat) :
  m src = Some b ->
  writable m (src + 1) n ->
  exists m',
    my_memcpy m (src + 1) src (Z.of_nat n) = Ret (src + 1, m') /\
    bytes_at m' (src + 1) (repeat b n).
Proof.
  intros Hb Hdst.
  destruct (my_memcpy_loop_smear src b n m 0) as (m' & Hrun & Hc).
  - rewrite Z.add_0_r. exact Hb.
  - rewrite Z.add_0_r. exact Hdst.
  - exists m'. unfold my_memcpy. rewrite Nat2Z.id, Hrun. cbn [bind].
    rewrite Z.add_0_r in Hc. auto.
Qed.

End MemoryWrites.

Lemma my_memcpy_forward_witness :
  (exists m',
      my_memcpy PicoDemo.memory_blob 0x4000 0x6000 264 = Ret (0x4000, m') /\
      bytes_at m' 0x4000 PicoDemo.blob /\
      (forall x, ~ (0x4000 <= x < 0x4000 + 264) -> m' x = PicoDemo.memory_blob x)) /\
  my_memcpy PicoDemo.memory_blob 0x4000 0x6000 265 = Fault.
Proof.
  destruct (my_memcpy_forward PicoDemo.memory_blob 0x4000 0x6000 PicoDemo.blob)
    as [Hcopy Hfault].
  split.
  - apply Hcopy.
    + apply check_bytes_sound. vm_compute. reflexivity.
    + apply check_writable_sound. vm_compute. reflexivity.
    + left. vm_compute. discriminate.
  - apply (Hfault 265 264); [lia | reflexivity].
Defined.

Lemma my_memcpy_overlap_smears_witness :
  exists m',
    my_memcpy PicoDemo.memory0 0x5003 0x5002 12 = Ret (0x5003, m') /\
    bytes_at m' 0x5003 (repeat "e"%byte 12).
Proof.
  apply (my_memcpy_overlap_smears PicoDemo.memory0 0x5002 "e"%byte 12).
  - reflexivity.
  - apply check_writable_sound. vm_compute. reflexivity.
Defined.

(** ** The capability example: strings *)

Section PicoStrings.

Lemma char_value_inj (c d : byte) : char_value c = char_value d -> c = d.
Proof.
  pose proof (byte_value_range c). pose proof (byte_value_range d).
  unfold char_value. intros H1. apply byte_value_inj.
  destruct (Z.leb_spec 128 (byte_value c)), (Z.leb_spec 128 (byte_value d)); lia.
Qed.

Lemma char_value_nul (c : byte) : char_value c = 0 <-> byte_value c = 0.
Proof.
  pose proof (char_value_zero c) as H.
  destruct (Z.eqb_spec (char_value c) 0), (Z.eqb_spec (byte_value c) 0);
    try discriminate; tauto.
Qed.

Lemma char_at_nul (s : list byte) : char_at s = 0 <-> c_chars s = [].
Proof.
  destruct s as [| c s]; simpl; [tauto |].
  rewrite char_value_nul.
  destruct (Z.eqb_spec (byte_value c) 0); split; intros; try tauto; discriminate.
Qed.

(** One step of the loop of [my_strcmp]. *)
Lemma my_strcmp_step (a b : list byte) :
  my_strcmp a b
  = if negb (char_at a =? 0) && (char_at a =? char_at b)
    then my_strcmp (tail a) (tail b)
    else char_at a - char_at b.
Proof. destruct a; reflexivity. Qed.

Lemma my_strcmp_stop (a b : list byte) :
  char_at a = 0 -> my_strcmp a b = - char_at b.
Proof.
  intros H. rewrite my_strcmp_step, H. simpl. lia.
Qed.

Lemma my_strcmp_zero_iff (a b : list byte) :
  my_strcmp a b = 0 <-> c_chars a = c_chars b.
Proof.
  revert b. induction a as [| c a IH]; intros b.
  - rewrite my_strcmp_stop by reflexivity. simpl c_chars.
    split.
    + intros H. symmetry. apply char_at_nul. lia.
    + intros H. symmetry in H. apply char_at_nul in H. lia.
  - destruct (Z.eq_dec (byte_value c) 0) as [Hz | Hnz].
    + rewrite my_strcmp_stop by (apply char_value_nul, Hz).
      simpl c_chars. destruct (Z.eqb_spec (byte_value c) 0); [| contradiction].
      split.
      * intros H. symmetry. apply char_at_nul. lia.
      * intros H. symmetry in H. apply char_at_nul in H. lia.
    + assert (Hc : char_value c <> 0) by (rewrite char_value_nul; exact Hnz).
      rewrite my_strcmp_step. cbn [char_at tail c_chars].
      destruct (Z.eqb_spec (char_value c) 0) as [| _]; [contradiction |].
      destruct (Z.eqb_spec (byte_value c) 0) as [| _]; [contradiction |].
      cbn [negb andb].
      destruct (Z.eqb_spec (char_value c) (char_at b)) as [Heq | Hne].
      * destruct b as [| d b]; [simpl in Heq; contradiction |].
        simpl in Heq. apply char_value_inj in Heq. subst d.
        cbn [tail c_chars].
        destruct (Z.eqb_spec (byte_value c) 0) as [| _]; [contradiction |].
        rewrite IH. split; [intros ->; reflexivity | intros [= E]; exact E].
      * split; [lia |].
        destruct b as [| d b]; [discriminate |]. cbn [c_chars].
        destruct (byte_value d =? 0); [discriminate |].
        intros [= -> _]. exfalso. apply Hne. reflexivity.
Qed.

Lemma my_strcmp_swap (a b : list byte) : my_strcmp b a = - my_strcmp a b.
Proof.
  revert b. induction a as [| c a IH]; intros b.
  - rewrite (my_strcmp_stop [] b) by reflexivity.
    rewrite my_strcmp_step. cbn [char_at].
    destruct (Z.eqb_spec (char_at b) 0) as [Hb | Hb]; cbn [negb andb]; [lia |].
    destruct (Z.eqb_spec (char_at b) 0); [contradiction | lia].
  - destruct (Z.eq_dec (char_value c) 0) as [Hz | Hnz].
    + rewrite (my_strcmp_stop (c :: a) b) by exact Hz.
      rewrite my_strcmp_step. cbn [char_at]. rewrite Hz.
      destruct (Z.eqb_spec (char_at b) 0) as [Hb | Hb]; cbn [negb andb]; [lia |].
      destruct (Z.eqb_spec (char_at b) 0); [contradiction | lia].
    + rewrite (my_strcmp_step (c :: a) b), (my_strcmp_step b (c :: a)).
      cbn [char_at tail].
      destruct (Z.eqb_spec (char_value c) 0) as [| _]; [contradiction |].
      cbn [negb andb].
      destruct (Z.eqb_spec (char_value c) (char_at b)) as [Heq | Hne].
      * rewrite <- Heq.
        destruct (Z.eqb_spec (char_value c) 0) as [| _]; [contradiction |].
        rewrite Z.eqb_refl. cbn [negb andb]. apply IH.
      * destruct (Z.eqb_spec (char_at b) (char_value c)) as [E | _];
          [exfalso; apply Hne; symmetry; exact E |].
        rewrite andb_false_r. lia.
Qed.

(** X16. [my_strcmp] returns 0 exactly when the two strings have the
    same characters up to their terminators, and exchanging the
    arguments changes the sign of the result. *)
Theorem my_strcmp_equality (a b : list byte) :
  (my_strcmp a b = 0 <-> c_chars a = c_chars b) /\
  my_strcmp b a = - my_strcmp a b.
Proof.
  split; [apply my_strcmp_zero_iff | apply my_strcmp_swap].
Qed.

(** X17. The result of [my_strcmp] is the difference of the two
    characters at the first position where the strings differ, both
    taken as signed [char]s: a byte of 128 or more sorts before every
    ASCII character. *)
Theorem my_strcmp_first_difference (pre ra rb : list byte) (ca cb : byte) :
  Forall (fun c => byte_value c <> 0) pre ->
  ca <> cb ->
  my_strcmp (pre ++ ca :: ra) (pre ++ cb :: rb) = char_value ca - char_value cb /\
  -255 <= my_strcmp (pre ++ ca :: ra) (pre ++ cb :: rb) <= 255.
Proof.
  intros Hpre Hne.
  assert (Hres : my_strcmp (pre ++ ca :: ra) (pre ++ cb :: rb)
                 = char_value ca - char_value cb).
  { induction Hpre as [| c pre Hc _ IH].
    - rewrite my_strcmp_step. cbn [app char_at].
      destruct (Z.eqb_spec (char_value ca) (char_value cb)) as [E | _].
      + exfalso. apply Hne, char_value_inj, E.
      + rewrite andb_false_r. reflexivity.
    - rewrite my_strcmp_step. cbn [app char_at tail].
      destruct (Z.eqb_spec (char_value c) 0) as [E | _].
      + exfalso. apply Hc, char_value_nul, E.
      + rewrite Z.eqb_refl. cbn [negb andb]. exact IH. }
  split; [exact Hres |]. rewrite Hres.
  pose proof (byte_value_range ca). pose proof (byte_value_range cb).
  unfold char_value.
  destruct (Z.leb_spec 128 (byte_value ca)), (Z.leb_spec 128 (byte_value cb)); lia.
Qed.

End PicoStrings.

Lemma my_strcmp_first_difference_witness :
  my_strcmp (cstring "explorer.exe") (cstring "explor" ++ [xe9] ++ cstring "r.exe")
  = 101 - (-23).
Proof.
  apply (my_strcmp_first_difference (cstring "explor") (cstring "r.exe")
           (cstring "r.exe") "e"%byte xe9).
  - repeat constructor; vm_compute; discriminate.
  - discriminate.
Defined.

(** ** The capability example: configuration life cycle *)

Section PicoCapability.

Lemma byte_value_byte_of_Z (v : Z) : byte_value (byte_of_Z v) = v mod 256.
Proof.
  unfold byte_of_Z, byte_value.
  pose proof (Z.mod_pos_bound v 256 ltac:(lia)) as Hr.
  destruct (Byte.of_N (Z.to_N (v mod 256))) as [b |] eqn:E.
  - apply Byte.to_of_N in E. rewrite E. lia.
  - apply Byte.of_N_None_iff in E. lia.
Qed.

Lemma store_le_writes (n : nat) :
  forall (m : memory) (a v : Z),
    writable m a n ->
    exists m',
      store_le n m a v = Ret m' /\
      bytes_at m' a (le_bytes n v) /\
      (forall x, ~ (a <= x < a + Z.of_nat n) -> m' x = m x) /\
      (forall x, m x <> None -> m' x <> None).
Proof.
  induction n as [| n IH]; intros m a v Hw.
  - exists m. simpl. auto.
  - destruct Hw as [Ha Hw]. cbn [store_le le_bytes].
    rewrite (store_byte_mapped _ _ _ Ha). cbn [bind].
    destruct (IH (update m a (byte_of_Z v)) (a + 1) (v / 256))
      as (m' & Hrun & Hb & Hf & Hm).
    + apply (writable_frame m); [| exact Hw]. intros x. apply update_mapped.
    + exists m'. split; [exact Hrun |]. split; [| split].
      * split; [| exact Hb]. rewrite Hf by lia. apply update_eq.
      * intros x Hx. rewrite Hf by lia. apply update_neq. lia.
      * intros x Hx. apply Hm, update_mapped, Hx.
Qed.

Lemma load_le_le_bytes (n : nat) :
  forall (m : memory) (a v : Z),
    bytes_at m a (le_bytes n v) ->
    load_le n m a = Ret (v mod 256 ^ Z.of_nat n).
Proof.
  induction n as [| n IH]; intros m a v Hb.
  - simpl. rewrite Z.mod_1_r. reflexivity.
  - destruct Hb as [Hb Hrest]. cbn [load_le]. unfold load8. rewrite Hb.
    cbn [bind]. rewrite (IH _ _ _ Hrest). cbn [bind].
    rewrite byte_value_byte_of_Z.
    rewrite Nat2Z.inj_succ, Z.pow_succ_r by lia.
    rewrite Z.rem_mul_r by lia. reflexivity.
Qed.

Lemma load_le_frame (n : nat) :
  forall (m m' : memory) (a : Z),
    (forall x, a <= x < a + Z.of_nat n -> m' x = m x) ->
    load_le n m' a = load_le n m a.
Proof.
  induction n as [| n IH]; intros m m' a Hsame; [reflexivity |].
  cbn [load_le]. unfold load8. rewrite Hsame by lia.
  rewrite (IH m m' (a + 1)); [reflexivity |].
  intros x Hx. apply Hsame. lia.
Qed.

(** The defaults [capability_init] falls back to. *)
Lemma capability_init_default (img : pico_image) (m : memory) (size : Z) :
  load32 m (config_bin_size img) = Ret size ->
  size < sizeof_CONFIG ->
  writable m (g_config img) 21 ->
  bytes_at m (str_explorer img) lit_explorer ->
  str_explorer img + 13 <= g_config img \/ g_config img + 21 <= str_explorer img ->
  exists m',
    capability_init img m = Ret (1, m') /\
    load32 m' (g_config img + CONFIG_sleep_time) = Ret 1000 /\
    load32 m' (g_config img + CONFIG_max_iterations) = Ret 10 /\
    bytes_at m' (g_config img + CONFIG_target_process) lit_explorer /\
    (forall x, ~ (g_config img <= x < g_config img + 21) -> m' x = m x) /\
    (forall x, m x <> None -> m' x <> None).
Proof.
  intros Hsize Hsmall Hw Hlit Hapart.
  unfold CONFIG_sleep_time, CONFIG_max_iterations, CONFIG_target_process.
  set (g := g_config img) in *.
  apply (writable_split m g 4 17) in Hw as [Hw1 Hw].
  apply (writable_split m (g + Z.of_nat 4) 4 13) in Hw as [Hw2 Hw3].
  replace (g + Z.of_nat 4 + Z.of_nat 4) with (g + 8) in Hw3 by lia.
  replace (g + Z.of_nat 4) with (g + 4) in Hw2 by lia.
  destruct (store_le_writes 4 m (g + 0) 1000) as (m1 & Hrun1 & Hb1 & Hf1 & Hm1).
  { rewrite Z.add_0_r. exact Hw1. }
  destruct (store_le_writes 4 m1 (g + 4) 10) as (m2 & Hrun2 & Hb2 & Hf2 & Hm2).
  { apply (writable_frame m); assumption. }
  destruct (my_memcpy_copy m2 (g + 8) (str_explorer img) lit_explorer)
    as (m3 & Hrun3 & Hb3 & Hf3 & Hm3).
  { apply (bytes_at_frame m); [| exact Hlit].
    intros x Hx. change (Z.of_nat (length lit_explorer)) with 13 in Hx.
    rewrite Hf2, Hf1 by lia. reflexivity. }
  { apply (writable_frame m); [| exact Hw3]. auto. }
  { change (Z.of_nat (length lit_explorer)) with 13. lia. }
  change (Z.of_nat (length lit_explorer)) with 13 in *.
  exists m3. unfold capability_init. rewrite Hsize. cbn [bind].
  destruct (Z.leb_spec sizeof_CONFIG size) as [| _]; [lia |].
  unfold CONFIG_sleep_time, CONFIG_max_iterations, CONFIG_target_process.
  fold g. unfold store32. rewrite Hrun1. cbn [bind]. rewrite Hrun2. cbn [bind].
  rewrite Hrun3. cbn [bind snd].
  split; [reflexivity |]. split; [| split; [| split; [| split]]].
  - unfold load32.
    rewrite (load_le_frame 4 m1 m3)
      by (intros x Hx; rewrite Hf3, Hf2 by lia; reflexivity).
    apply (load_le_le_bytes 4 m1 (g + 0) 1000). exact Hb1.
  - unfold load32.
    rewrite (load_le_frame 4 m2 m3) by (intros x Hx; rewrite Hf3 by lia; reflexivity).
    apply (load_le_le_bytes 4 m2 (g + 4) 10). exact Hb2.
  - exact Hb3.
  - intros x Hx. rewrite Hf3, Hf2, Hf1 by lia. reflexivity.
  - auto.
Qed.

(** X18. [capability_init] takes a configuration blob of at least
    [sizeof(CONFIG)] bytes verbatim (its first 264 bytes become the
    configuration, unexamined), and ignores a shorter one altogether:
    then the sleep time is 1000, the iteration count 10, the target
    name ["explorer.exe"], and the rest of the name field is left as
    it was.  It returns 1 in both cases. *)
Theorem capability_init_config (img : pico_image) (m : memory) (size : Z) :
  load32 m (config_bin_size img) = Ret size ->
  (forall blob : list byte,
      sizeof_CONFIG <= size ->
      length blob = Z.to_nat sizeof_CONFIG ->
      bytes_at m (config_bin_start img) blob ->
      writable m (g_config img) (Z.to_nat sizeof_CONFIG) ->
      g_config img <= config_bin_start img
      \/ config_bin_start img + sizeof_CONFIG <= g_config img ->
      exists m',
        capability_init img m = Ret (1, m') /\
        bytes_at m' (g_config img) blob /\
        (forall x, ~ (g_config img <= x < g_config img + sizeof_CONFIG) ->
                   m' x = m x)) /\
  (size < sizeof_CONFIG ->
   writable m (g_config img) 21 ->
   bytes_at m (str_explorer img) lit_explorer ->
   str_explorer img + 13 <= g_config img \/ g_config img + 21 <= str_explorer img ->
   exists m',
     capability_init img m = Ret (1, m') /\
     load32 m' (g_config img + CONFIG_sleep_time) = Ret 1000 /\
     load32 m' (g_config img + CONFIG_max_iterations) = Ret 10 /\
     bytes_at m' (g_config img + CONFIG_target_process) lit_explorer /\
     (forall x, ~ (g_config img <= x < g_config img + 21) -> m' x = m x)).
Proof.
  intros Hsize. split.
  - intros blob Hbig Hlen Hblob Hw Hapart.
    assert (Hn : Z.of_nat (length blob) = sizeof_CONFIG)
      by (rewrite Hlen; reflexivity).
    destruct (my_memcpy_copy m (g_config img) (config_bin_start img) blob)
      as (m' & Hrun & Hb & Hf & _).
    + exact Hblob.
    + rewrite Hlen. exact Hw.
    + rewrite Hn. exact Hapart.
    + exists m'. unfold capability_init. rewrite Hsize. cbn [bind].
      destruct (Z.leb_spec sizeof_CONFIG size) as [_ |]; [| lia].
      rewrite <- Hn at 1. rewrite Hrun. cbn [bind snd].
      split; [reflexivity |]. split; [exact Hb |].
      rewrite <- Hn. exact Hf.
  - intros Hsmall Hw Hlit Hapart.
    destruct (capability_init_default img m size Hsize Hsmall Hw Hlit Hapart)
      as (m' & H1 & H2 & H3 & H4 & H5 & _).
    exists m'. auto.
Qed.

Lemma capability_cleanup_copy (img : pico_image) (m : memory) (bs : list byte) :
  length bs = Z.to_nat sizeof_CONFIG ->
  bytes_at m (str_nul img) bs ->
  writable m (g_config img) (Z.to_nat sizeof_CONFIG) ->
  g_config img <= str_nul img \/ str_nul img + sizeof_CONFIG <= g_config img ->
  exists m',
    capability_cleanup img m = Ret (1, m') /\
    bytes_at m' (g_config img) bs /\
    (forall x, ~ (g_config img <= x < g_config img + sizeof_CONFIG) -> m' x = m x).
Proof.
  intros Hlen Hsrc Hw Hapart.
  assert (Hn : Z.of_nat (length bs) = sizeof_CONFIG) by (rewrite Hlen; reflexivity).
  destruct (my_memcpy_copy m (g_config img) (str_nul img) bs)
    as (m' & Hrun & Hb & Hf & _).
  - exact Hsrc.
  - rewrite Hlen. exact Hw.
  - rewrite Hn. exact Hapart.
  - exists m'. unfold capability_cleanup. rewrite <- Hn at 1. rewrite Hrun.
    cbn [bind snd]. split; [reflexivity |]. split; [exact Hb |].
    rewrite <- Hn. exact Hf.
Qed.

(** X19. [capability_cleanup] does not zero the configuration: it
    copies [sizeof(CONFIG)] bytes starting at the two-byte literal
    ["\x00"], so the configuration ends up holding the 264 bytes of
    memory found there, the 262 bytes that follow the literal
    included.  When one of these bytes is not mapped the call
    faults. *)
Theorem capability_cleanup_copies_literal (img : pico_image) (m : memory) :
  (forall bs : list byte,
      length bs = Z.to_nat sizeof_CONFIG ->
      bytes_at m (str_nul img) bs ->
      writable m (g_config img) (Z.to_nat sizeof_CONFIG) ->
      g_config img <= str_nul img \/ str_nul img + sizeof_CONFIG <= g_config img ->
      exists m',
        capability_cleanup img m = Ret (1, m') /\
        bytes_at m' (g_config img) bs /\
        (forall x, ~ (g_config img <= x < g_config img + sizeof_CONFIG) ->
                   m' x = m x)) /\
  (forall j : Z,
      0 <= j < sizeof_CONFIG -> m (str_nul img + j) = None ->
      capability_cleanup img m = Fault).
Proof.
  split.
  - intros bs. apply capability_cleanup_copy.
  - intros j Hj Hnone. unfold capability_cleanup, my_memcpy.
    rewrite (my_memcpy_loop_faults (g_config img) (str_nul img)
               (Z.to_nat sizeof_CONFIG) m 0); [reflexivity |].
    exists j. split; [unfold sizeof_CONFIG in *; lia | exact Hnone].
Qed.

(** The loop of [capability_execute] from iteration [i] on. *)
Lemma execute_loop_sleeps (img : pico_image) (m : memory) (max t : Z) :
  load32 m (g_config img + CONFIG_max_iterations) = Ret max ->
  load32 m (g_config img + CONFIG_sleep_time) = Ret t ->
  forall (fuel : nat) (i : Z) (sleeps : list Z),
    0 <= i <= max ->
    (Z.to_nat (max - i) < fuel)%nat ->
    execute_loop fuel img m i sleeps
    = Ret (sleeps ++ repeat t (Z.to_nat (max - i))).
Proof.
  intros Hmax Ht.
  pose proof (load_le_range 4 _ _ _ Hmax) as Hrange.
  change (256 ^ Z.of_nat 4) with (2 ^ 32) in Hrange.
  induction fuel as [| fuel IH]; intros i sleeps Hi Hfuel; [lia |].
  cbn [execute_loop]. rewrite Hmax. cbn [bind].
  destruct (Z.ltb_spec i max) as [Hlt | Hge].
  - rewrite Ht. cbn [bind].
    assert (Hd : DWORD (max - 1) = max - 1) by (apply DWORD_small; lia).
    rewrite Hd.
    destruct (Z.leb_spec (max - 1) i) as [Hlast | Hmore].
    + replace (Z.to_nat (max - i)) with 1%nat by lia. reflexivity.
    + rewrite (DWORD_small (i + 1)) by lia.
      rewrite IH by lia. rewrite <- app_assoc. cbn [app].
      replace (Z.to_nat (max - i)) with (S (Z.to_nat (max - (i + 1)))) by lia.
      reflexivity.
  - replace (Z.to_nat (max - i)) with 0%nat by lia.
    rewrite app_nil_r. reflexivity.
Qed.

(** X20. [capability_execute] sleeps exactly [max_iterations] times,
    each time for [sleep_time], and returns 1; the early [break] never
    changes the count, and with [max_iterations = 0] nothing is slept
    at all. *)
Theorem capability_execute_sleeps (fuel : nat) (img : pico_image)
    (m : memory) (max t : Z) :
  load32 m (g_config img + CONFIG_max_iterations) = Ret max ->
  load32 m (g_config img + CONFIG_sleep_time) = Ret t ->
  (Z.to_nat max < fuel)%nat ->
  capability_execute fuel img m = Ret (1, repeat t (Z.to_nat max)).
Proof.
  intros Hmax Ht Hfuel.
  pose proof (load_le_range 4 _ _ _ Hmax) as Hrange.
  unfold capability_execute.
  rewrite (execute_loop_sleeps img m max t Hmax Ht fuel 0 [])
    by (rewrite ?Z.sub_0_r; lia).
  cbn [bind app]. rewrite Z.sub_0_r. reflexivity.
Qed.

(** X21. The life cycle [go] without a usable configuration blob:
    ten sleeps of 1000 ms, after which the configuration holds the
    264 bytes found at the literal ["\x00"]. *)
Theorem go_default_life_cycle (fuel : nat) (img : pico_image) (m : memory)
    (size : Z) (bs : list byte) :
  load32 m (config_bin_size img) = Ret size ->
  size < sizeof_CONFIG ->
  writable m (g_config img) (Z.to_nat sizeof_CONFIG) ->
  bytes_at m (str_explorer img) lit_explorer ->
  length bs = Z.to_nat sizeof_CONFIG ->
  bytes_at m (str_nul img) bs ->
  str_explorer img + 13 <= g_config img
  \/ g_config img + sizeof_CONFIG <= str_explorer img ->
  str_nul img + sizeof_CONFIG <= g_config img
  \/ g_config img + sizeof_CONFIG <= str_nul img ->
  (10 < fuel)%nat ->
  exists m',
    go fuel img m = Ret (m', repeat 1000 10) /\
    bytes_at m' (g_config img) bs.
Proof.
  intros Hsize Hsmall Hw Hlit Hlen Hbs Hapart1 Hapart2 Hfuel.
  unfold sizeof_CONFIG in *.
  destruct (capability_init_default img m size Hsize) as
    (m1 & Hinit & Hsleep & Hmax & _ & Hf1 & Hm1).
  { unfold sizeof_CONFIG. exact Hsmall. }
  { apply (writable_split m (g_config img) 21 243). exact Hw. }
  { exact Hlit. }
  { lia. }
  destruct (capability_cleanup_copy img m1 bs) as (m2 & Hclean & Hb2 & _).
  { exact Hlen. }
  { apply (bytes_at_frame m); [| exact Hbs].
    intros x Hx. rewrite Hlen in Hx. apply Hf1. lia. }
  { apply (writable_frame m); assumption. }
  { unfold sizeof_CONFIG. lia. }
  exists m2. unfold go. rewrite Hinit. cbn [bind fst snd].
  change (1 =? 0) with false. cbv iota.
  unfold capability_execute.
  rewrite (execute_loop_sleeps img m1 10 1000 Hmax Hsleep fuel 0 [])
    by (simpl; lia).
  cbn [bind snd]. rewrite Hclean. cbn [bind snd].
  split; [reflexivity | exact Hb2].
Qed.

End PicoCapability.

Lemma capability_init_config_witness :
  (exists m',
      capability_init PicoDemo.img PicoDemo.memory0 = Ret (1, m') /\
      load32 m' 0x4000 = Ret 1000 /\ load32 m' 0x4004 = Ret 10 /\
      bytes_at m' 0x4008 lit_explorer /\
      (forall x, ~ (0x4000 <= x < 0x4000 + 21) -> m' x = PicoDemo.memory0 x)) /\
  (exists m',
      capability_init PicoDemo.img PicoDemo.memory_blob = Ret (1, m') /\
      bytes_at m' 0x4000 PicoDemo.blob /\
      (forall x, ~ (0x4000 <= x < 0x4000 + 264) -> m' x = PicoDemo.memory_blob x)).
Proof.
  split.
  - apply (proj2 (capability_init_config PicoDemo.img PicoDemo.memory0 0
                    ltac:(reflexivity))).
    + reflexivity.
    + apply check_writable_sound. vm_compute. reflexivity.
    + apply check_bytes_sound. vm_compute. reflexivity.
    + right. vm_compute. discriminate.
  - apply (proj1 (capability_init_config PicoDemo.img PicoDemo.memory_blob 264
                    ltac:(reflexivity)) PicoDemo.blob).
    + vm_compute. discriminate.
    + reflexivity.
    + apply check_bytes_sound. vm_compute. reflexivity.
    + apply check_writable_sound. vm_compute. reflexivity.
    + left. vm_compute. discriminate.
Defined.

Lemma capability_cleanup_copies_literal_witness :
  (exists m',
      capability_cleanup PicoDemo.img PicoDemo.memory0 = Ret (1, m') /\
      bytes_at m' 0x4000 PicoDemo.rodata /\
      (forall x, ~ (0x4000 <= x < 0x4000 + 264) -> m' x = PicoDemo.memory0 x)) /\
  capability_cleanup PicoDemo.img (Demo.mapped [ (0x4000, repeat x00 264);
                                                 (0x5000, lit_nul) ])
  = Fault.
Proof.
  split.
  - apply (proj1 (capability_cleanup_copies_literal PicoDemo.img PicoDemo.memory0)
             PicoDemo.rodata).
    + reflexivity.
    + apply check_bytes_sound. vm_compute. reflexivity.
    + apply check_writable_sound. vm_compute. reflexivity.
    + left. vm_compute. discriminate.
  - apply (proj2 (capability_cleanup_copies_literal PicoDemo.img
                    (Demo.mapped [ (0x4000, repeat x00 264); (0x5000, lit_nul) ]))
             2).
    + split; vm_compute; [discriminate | reflexivity].
    + reflexivity.
Defined.

Lemma capability_execute_sleeps_witness :
  capability_execute 4 PicoDemo.img
    (Demo.mapped [ (0x4000, PicoDemo.blob) ])
  = Ret (1, [250; 250; 250]).
Proof.
  apply (capability_execute_sleeps 4 PicoDemo.img
           (Demo.mapped [ (0x4000, PicoDemo.blob) ]) 3 250).
  - reflexivity.
  - reflexivity.
  - simpl. lia.
Defined.

Lemma go_default_life_cycle_witness :
  exists m',
    go 11 PicoDemo.img PicoDemo.memory0 = Ret (m', repeat 1000 10) /\
    bytes_at m' 0x4000 PicoDemo.rodata.
Proof.
  apply (go_default_life_cycle 11 PicoDemo.img PicoDemo.memory0 0 PicoDemo.rodata).
  - reflexivity.
  - reflexivity.
  - apply check_writable_sound. vm_compute. reflexivity.
  - apply check_bytes_sound. vm_compute. reflexivity.
  - reflexivity.
  - apply check_bytes_sound. vm_compute. reflexivity.
  - right. vm_compute. discriminate.
  - right. vm_compute. discriminate.
  - lia.
Defined.

(** ** The gadget finder *)

Section GadgetFacts.

Variable L : layout.

Import Gadget.

Lemma bytes_at_drop (m : memory) (k : nat) :
  forall (a : Z) (bs : list byte),
    bytes_at m a bs -> bytes_at m (a + Z.of_nat k) (drop k bs).
Proof.
  induction k as [| k IH]; intros a bs H.
  - rewrite Z.add_0_r, drop_0. exact H.
  - destruct bs as [| b bs]; [exact I |].
    destruct H as [_ H]. cbn [drop].
    replace (a + Z.of_nat (S k)) with (a + 1 + Z.of_nat k) by lia.
    apply IH, H.
Qed.

Lemma bytes_at_take (m : memory) (n : nat) :
  forall (a : Z) (bs : list byte),
    bytes_at m a bs -> bytes_at m a (take n bs).
Proof.
  induction n as [| n IH]; intros a bs H; destruct bs as [| b bs];
    try exact I.
  destruct H as [Hb H]. split; [exact Hb | apply IH, H].
Qed.

Lemma memcmp_equal_true (m : memory) (pat : list byte) :
  forall a : Z, bytes_at m a pat -> memcmp_equal m a pat = Ret true.
Proof.
  induction pat as [| p pat IH]; intros a H; [reflexivity |].
  destruct H as [Hb H]. cbn [memcmp_equal]. unfold load_byte.
  rewrite Hb. cbn [bind]. rewrite (Byte.byte_dec_lb eq_refl). apply IH, H.
Qed.

Lemma memcmp_equal_false (m : memory) (pat : list byte) :
  forall (a : Z) (bs : list byte),
    bytes_at m a bs -> length bs = length pat -> bs <> pat ->
    memcmp_equal m a pat = Ret false.
Proof.
  induction pat as [| p pat IH]; intros a bs H Hlen Hne.
  - destruct bs; [contradiction | discriminate].
  - destruct bs as [| b bs]; [discriminate |].
    destruct H as [Hb H]. cbn [memcmp_equal]. unfold load_byte.
    rewrite Hb. cbn [bind].
    destruct (Byte.eqb b p) eqn:E; [| reflexivity].
    apply Byte.byte_dec_bl in E. subst p.
    apply (IH _ bs); [exact H | simpl in Hlen; lia |].
    intros ->. apply Hne. reflexivity.
Qed.

(** What the comparison at offset [k] of a region answers. *)
Lemma memcmp_equal_at (m : memory) (start : Z) (region pat : list byte) (k : nat) :
  bytes_at m start region ->
  (k + length pat <= length region)%nat ->
  (occurs_at region pat k ->
   memcmp_equal m (start + Z.of_nat k) pat = Ret true) /\
  (~ occurs_at region pat k ->
   memcmp_equal m (start + Z.of_nat k) pat = Ret false).
Proof.
  intros Hreg Hlen.
  assert (Hat : bytes_at m (start + Z.of_nat k) (take (length pat) (drop k region)))
    by (apply bytes_at_take, bytes_at_drop, Hreg).
  unfold occurs_at. split.
  - intros Hocc. rewrite Hocc in Hat. apply memcmp_equal_true, Hat.
  - intros Hno. apply (memcmp_equal_false _ _ _ _ Hat); [| exact Hno].
    rewrite length_take, length_drop. lia.
Qed.

Lemma section_table_split (m : memory) (section : Z)
    (pre post : list SectionHeader) :
  forall i : Z,
    section_table m section i (pre ++ post) ->
    section_table m section i pre /\
    section_table m section (i + Z.of_nat (length pre)) post.
Proof.
  induction pre as [| s pre IH]; intros i H.
  - simpl. rewrite Z.add_0_r. split; [constructor | exact H].
  - inversion H as [| ? ? ? Hlen Hname Hsize Hrva Hrest]; subst.
    destruct (IH _ Hrest) as [Hpre Hpost]. split.
    + constructor; assumption.
    + replace (i + Z.of_nat (length (s :: pre)))
        with (i + 1 + Z.of_nat (length pre)) by (simpl length; lia).
      exact Hpost.
Qed.

Lemma section_name_test (m : memory) (entry : Z) (s : SectionHeader) :
  length (sec_name s) = 8%nat ->
  bytes_at m (entry + SECTION_Name) (sec_name s) ->
  (is_text s -> memcmp_equal m (entry + SECTION_Name) text_name = Ret true) /\
  (~ is_text s -> memcmp_equal m (entry + SECTION_Name) text_name = Ret false).
Proof.
  intros Hlen Hname.
  destruct (memcmp_equal_at m (entry + SECTION_Name) (sec_name s) text_name 0
              Hname) as [Hyes Hno].
  - rewrite Hlen. simpl. lia.
  - change (Z.of_nat 0) with 0 in Hyes, Hno.
    rewrite Z.add_0_r in Hyes, Hno. unfold occurs_at in Hyes, Hno.
    rewrite drop_0 in Hyes, Hno. split; assumption.
Qed.

Lemma find_text_section_skip (m : memory) (section : Z)
    (pre : list SectionHeader) :
  forall i : Z,
    section_table m section i pre ->
    Forall (fun s => ~ is_text s) pre ->
    forall n : nat,
      find_text_section (length pre + n) m section i
      = find_text_section n m section (i + Z.of_nat (length pre)).
Proof.
  induction pre as [| s pre IH]; intros i Htab Hpre n.
  - simpl. rewrite Z.add_0_r. reflexivity.
  - inversion Htab as [| ? ? ? Hlen Hname Hsize Hrva Hrest]; subst.
    inversion Hpre as [| ? ? Hs Hpre']; subst.
    cbn [length Nat.add find_text_section].
    rewrite (proj2 (section_name_test m _ s Hlen Hname) Hs). cbn [bind].
    rewrite (IH _ Hrest Hpre'). f_equal. lia.
Qed.

Lemma find_text_section_hit (m : memory) (section i : Z) (s : SectionHeader)
    (post : list SectionHeader) (n : nat) :
  section_table m section i (s :: post) ->
  is_text s ->
  find_text_section (S n) m section i
  = Ret (section + sizeof_SECTION_HEADER * i).
Proof.
  intros Htab Hs.
  inversion Htab as [| ? ? ? Hlen Hname Hsize Hrva Hrest]; subst.
  cbn [find_text_section].
  rewrite (proj1 (section_name_test m _ s Hlen Hname) Hs). reflexivity.
Qed.

Lemma first_bytes_all (pattern : list byte) :
  first_bytes pattern (Z.of_nat (length pattern)) = Ret pattern.
Proof.
  unfold first_bytes.
  destruct (Z.leb_spec 0 (Z.of_nat (length pattern))); [| lia].
  rewrite Z.leb_refl. cbn [andb]. rewrite Nat2Z.id, firstn_all. reflexivity.
Qed.

Lemma SIZE_T_small (z : Z) :
  0 <= z < 2 ^ (8 * Z.of_nat (pointer_bytes L)) -> SIZE_T L z = z.
Proof. intros H. unfold SIZE_T. apply Z.mod_small, H. Qed.

(** The scan passes over offsets where the pattern does not lie. *)
Lemma gadget_scan_skip (m : memory) (start bound : Z) (pattern region : list byte) :
  bytes_at m start region ->
  forall (n : nat) (i : nat) (fuel : nat),
    Z.of_nat (i + n) <= bound ->
    Z.of_nat (i + n) < 2 ^ (8 * Z.of_nat (pointer_bytes L)) ->
    (forall k : nat,
        (i <= k < i + n)%nat ->
        (k + length pattern <= length region)%nat /\
        ~ occurs_at region pattern k) ->
    gadget_scan L (n + fuel) m start bound pattern
      (Z.of_nat (length pattern)) (Z.of_nat i)
    = gadget_scan L fuel m start bound pattern
        (Z.of_nat (length pattern)) (Z.of_nat (i + n)).
Proof.
  intros Hreg. induction n as [| n IH]; intros i fuel Hbound Hword Hno.
  - rewrite Nat.add_0_r. reflexivity.
  - cbn [Nat.add gadget_scan].
    destruct (Z.ltb_spec (Z.of_nat i) bound) as [_ |]; [| lia].
    rewrite first_bytes_all. cbn [bind].
    destruct (Hno i ltac:(lia)) as [Hin Hmiss].
    rewrite (proj2 (memcmp_equal_at m start region pattern i Hreg Hin) Hmiss).
    cbn [bind]. rewrite SIZE_T_small by lia.
    replace (Z.of_nat i + 1) with (Z.of_nat (S i)) by lia.
    rewrite IH.
    + f_equal. lia.
    + lia.
    + lia.
    + intros k Hk. apply Hno. lia.
Qed.

Lemma gadget_scan_found (m : memory) (start bound : Z)
    (pattern region : list byte) (j fuel : nat) :
  bytes_at m start region ->
  occurs_at region pattern j ->
  (j + length pattern <= length region)%nat ->
  (forall k : nat, (k < j)%nat -> ~ occurs_at region pattern k) ->
  Z.of_nat j < bound ->
  Z.of_nat j < 2 ^ (8 * Z.of_nat (pointer_bytes L)) ->
  (j < fuel)%nat ->
  gadget_scan L fuel m start bound pattern (Z.of_nat (length pattern)) 0
  = Ret (Some (start + Z.of_nat j)).
Proof.
  intros Hreg Hocc Hin Hfirst Hbound Hword Hfuel.
  replace fuel with (j + S (fuel - S j))%nat by lia.
  rewrite (gadget_scan_skip m start bound pattern region Hreg j 0);
    try lia.
  - cbn [Nat.add gadget_scan].
    destruct (Z.ltb_spec (Z.of_nat j) bound) as [_ |]; [| lia].
    rewrite first_bytes_all. cbn [bind].
    rewrite (proj1 (memcmp_equal_at m start region pattern j Hreg Hin) Hocc).
    reflexivity.
  - intros k Hk. split; [lia | apply Hfirst; lia].
Qed.

Lemma gadget_scan_none (m : memory) (start : Z)
    (pattern region : list byte) (bound fuel : nat) :
  bytes_at m start region ->
  (forall k : nat,
      (k < bound)%nat ->
      (k + length pattern <= length region)%nat /\ ~ occurs_at region pattern k) ->
  Z.of_nat bound < 2 ^ (8 * Z.of_nat (pointer_bytes L)) ->
  (bound < fuel)%nat ->
  gadget_scan L fuel m start (Z.of_nat bound) pattern
    (Z.of_nat (length pattern)) 0
  = Ret None.
Proof.
  intros Hreg Hno Hword Hfuel.
  replace fuel with (bound + S (fuel - S bound))%nat by lia.
  rewrite (gadget_scan_skip m start (Z.of_nat bound) pattern region Hreg bound 0);
    try lia.
  - cbn [Nat.add gadget_scan].
    destruct (Z.ltb_spec (Z.of_nat bound) (Z.of_nat bound)); [lia | reflexivity].
  - intros k Hk. apply Hno. lia.
Qed.

(** From the headers to the scan of the first section whose name
    begins with [".text"]. *)
Lemma scan_text_section (fuel : nat) (m : memory) (hModule : Z)
    (pre post : list SectionHeader) (s : SectionHeader)
    (pattern : list byte) (pattern_len : Z) :
  sectioned_image m hModule (pre ++ s :: post) ->
  Forall (fun x => ~ is_text x) pre ->
  is_text s ->
  scan_text L fuel m hModule pattern pattern_len
  = gadget_scan L fuel m (hModule + sec_rva s)
      (SIZE_T L (sec_size s - pattern_len)) pattern pattern_len 0.
Proof.
  intros (e_lfanew & osize & Hlfanew & Hosize & Hcount & Hpos & Htab) Hpre Hs.
  unfold scan_text. rewrite Hlfanew. cbn [bind]. rewrite Hosize. cbn [bind].
  rewrite Hcount. cbn [bind]. rewrite Nat2Z.id.
  apply section_table_split in Htab as [Htab1 Htab2].
  rewrite length_app. cbn [length].
  rewrite (find_text_section_skip m _ pre 0 Htab1 Hpre).
  rewrite (find_text_section_hit m _ _ s post _ Htab2 Hs). cbn [bind].
  inversion Htab2 as [| ? ? ? Hlen Hname Hsize Hrva Hrest]; subst.
  set (entry := _ + sizeof_SECTION_HEADER * _) in *.
  destruct (Z.eqb_spec entry NULL) as [E | _].
  - exfalso. unfold entry, NULL, sizeof_SECTION_HEADER in E. lia.
  - rewrite Hrva. cbn [bind]. rewrite Hsize. reflexivity.
Qed.

Lemma scan_text_no_section (fuel : nat) (m : memory) (hModule : Z)
    (secs : list SectionHeader) (pattern : list byte) (pattern_len : Z) :
  sectioned_image m hModule secs ->
  Forall (fun x => ~ is_text x) secs ->
  scan_text L fuel m hModule pattern pattern_len = Ret None.
Proof.
  intros (e_lfanew & osize & Hlfanew & Hosize & Hcount & Hpos & Htab) Hnone.
  unfold scan_text. rewrite Hlfanew. cbn [bind]. rewrite Hosize. cbn [bind].
  rewrite Hcount. cbn [bind]. rewrite Nat2Z.id.
  rewrite <- (Nat.add_0_r (length secs)).
  rewrite (find_text_section_skip m _ secs 0 Htab Hnone). reflexivity.
Qed.

Lemma drop_repeat {A : Type} (x : A) (n k : nat) :
  drop n (repeat x k) = repeat x (k - n).
Proof.
  revert k. induction n as [| n IH]; intros k.
  - rewrite Nat.sub_0_r. reflexivity.
  - destruct k as [| k]; [reflexivity |]. simpl. apply IH.
Qed.

Lemma overlay_nil (dst : list byte) : overlay [] dst = dst.
Proof. unfold overlay. simpl. apply firstn_all. Qed.

Lemma le_value_le_bytes (n : nat) :
  forall v : Z, le_value (le_bytes n v) = v mod 256 ^ Z.of_nat n.
Proof.
  induction n as [| n IH]; intros v.
  - simpl. rewrite Z.mod_1_r. reflexivity.
  - cbn [le_bytes le_value fold_right]. fold (le_value (le_bytes n (v / 256))).
    rewrite IH, byte_value_byte_of_Z.
    rewrite Nat2Z.inj_succ, Z.pow_succ_r by lia.
    rewrite Z.rem_mul_r by lia. reflexivity.
Qed.

(** A copy that stays inside the 16-byte field leaves the other fields
    alone. *)
Lemma copy_pattern_all (a cleanup : Z) (pat : list byte) :
  (1 <= pointer_bytes L)%nat ->
  (length pat <= 16)%nat ->
  0 <= cleanup < 2 ^ 32 ->
  copy_pattern L
    {| address := a; pattern := repeat x00 16;
       pattern_length := Z.of_nat (length pat); stack_cleanup := cleanup |}
    pat (Z.of_nat (length pat))
  = Ret {| address := a; pattern := pat ++ repeat x00 (16 - length pat);
           pattern_length := Z.of_nat (length pat);
           stack_cleanup := cleanup |}.
Proof.
  intros Hw Hlen Hc. unfold copy_pattern. rewrite first_bytes_all. cbn [bind].
  destruct (Nat.leb_spec (length pat)
              (16 + pointer_bytes L + 4 + GADGET_padding L)); [| lia].
  cbn [address Gadget.pattern pattern_length stack_cleanup].
  rewrite !drop_ge by lia. rewrite !overlay_nil, !le_value_le_bytes.
  assert (Hpow : 256 ^ 1 <= 256 ^ Z.of_nat (pointer_bytes L))
    by (apply Z.pow_le_mono_r; lia).
  rewrite (Z.mod_small (Z.of_nat (length pat))) by lia.
  rewrite (Z.mod_small cleanup) by (change (256 ^ Z.of_nat 4) with (2 ^ 32); lia).
  unfold overlay. rewrite repeat_length, drop_repeat.
  rewrite firstn_all2 by (rewrite length_app, repeat_length; lia).
  reflexivity.
Qed.

Lemma pointer_word (z : Z) :
  (4 <= pointer_bytes L)%nat -> 0 <= z < 2 ^ 32 ->
  0 <= z < 2 ^ (8 * Z.of_nat (pointer_bytes L)).
Proof.
  intros Hp Hz. split; [lia |].
  apply Z.lt_le_trans with (2 ^ 32); [lia |].
  apply Z.pow_le_mono_r; lia.
Qed.

(** X22. In the first section whose name begins with [".text"] the
    finder returns the lowest address at which the pattern lies, as
    long as the pattern ends before the last byte of the section; it
    reports the pattern and its length, and [find_call_r10_gadget]
    reports a stack cleanup of [0x28] as well. *)
Theorem find_gadget_first_occurrence (fuel : nat) (m : memory) (hModule : Z)
    (pre post : list SectionHeader) (s : SectionHeader)
    (code pattern : list byte) (j : nat) :
  (4 <= pointer_bytes L)%nat ->
  hModule <> NULL ->
  sectioned_image m hModule (pre ++ s :: post) ->
  Forall (fun x => ~ is_text x) pre ->
  is_text s ->
  bytes_at m (hModule + sec_rva s) code ->
  Z.of_nat (length code) = sec_size s ->
  (length pattern <= 16)%nat ->
  occurs_at code pattern j ->
  (forall k : nat, (k < j)%nat -> ~ occurs_at code pattern k) ->
  Z.of_nat j < sec_size s - Z.of_nat (length pattern) ->
  (j < fuel)%nat ->
  find_gadget_by_pattern L fuel m hModule (Some pattern)
    (Z.of_nat (length pattern))
  = Ret {| address := hModule + sec_rva s + Z.of_nat j;
           pattern := pattern ++ repeat x00 (16 - length pattern);
           pattern_length := Z.of_nat (length pattern);
           stack_cleanup := 0 |} /\
  (pattern = call_r10_pattern ->
   find_call_r10_gadget L fuel m hModule
   = Ret {| address := hModule + sec_rva s + Z.of_nat j;
            pattern := pattern ++ repeat x00 (16 - length pattern);
            pattern_length := Z.of_nat (length pattern);
            stack_cleanup := 0x28 |}).
Proof.
  intros Hp Hnull Himg Hpre Hs Hcode Hsize Hlen Hocc Hfirst Hj Hfuel.
  assert (Hscan : scan_text L fuel m hModule pattern (Z.of_nat (length pattern))
                  = Ret (Some (hModule + sec_rva s + Z.of_nat j))).
  { rewrite (scan_text_section _ _ _ _ _ _ _ _ Himg Hpre Hs).
    apply (gadget_scan_found m _ _ pattern code j fuel); try assumption.
    - lia.
    - rewrite SIZE_T_small; [exact Hj |]. apply pointer_word; [exact Hp |].
      assert (Z.of_nat (length code) < 2 ^ 32); [| lia].
      destruct Himg as (? & ? & _ & _ & _ & _ & Htab).
      apply section_table_split in Htab as [_ Htab].
      inversion Htab as [| ? ? ? _ _ Hsz _ _]; subst.
      rewrite Hsize. apply (load_le_range 4 _ _ _ Hsz).
    - apply pointer_word; [exact Hp |].
      destruct Himg as (? & ? & _ & _ & _ & _ & Htab).
      apply section_table_split in Htab as [_ Htab].
      inversion Htab as [| ? ? ? _ _ Hsz _ _]; subst.
      pose proof (load_le_range 4 _ _ _ Hsz) as Hr.
      change (256 ^ Z.of_nat 4) with (2 ^ 32) in Hr. lia. }
  split.
  - unfold find_gadget_by_pattern.
    destruct (Z.eqb_spec hModule NULL) as [| _]; [contradiction |].
    rewrite Hscan. cbn [bind].
    rewrite copy_pattern_all; [reflexivity | lia | exact Hlen | lia].
  - intros Hpat. unfold find_call_r10_gadget.
    destruct (Z.eqb_spec hModule NULL) as [| _]; [contradiction |].
    rewrite <- Hpat. rewrite Hscan. cbn [bind].
    rewrite copy_pattern_all; [reflexivity | lia | exact Hlen | lia].
Qed.

(** X23. The scan stops one position early: a pattern that lies
    nowhere before the last [pattern_len] bytes of the section is not
    found, even when these last bytes are the pattern; both finders
    return the zeroed [GADGET_INFO]. *)
Theorem find_gadget_misses_section_end (fuel : nat) (m : memory) (hModule : Z)
    (pre post : list SectionHeader) (s : SectionHeader)
    (code pattern : list byte) :
  (4 <= pointer_bytes L)%nat ->
  hModule <> NULL ->
  sectioned_image m hModule (pre ++ s :: post) ->
  Forall (fun x => ~ is_text x) pre ->
  is_text s ->
  bytes_at m (hModule + sec_rva s) code ->
  Z.of_nat (length code) = sec_size s ->
  (length pattern <= length code)%nat ->
  (forall k : nat,
      (k + length pattern < length code)%nat -> ~ occurs_at code pattern k) ->
  (length code - length pattern < fuel)%nat ->
  find_gadget_by_pattern L fuel m hModule (Some pattern)
    (Z.of_nat (length pattern))
  = Ret zero_gadget /\
  (pattern = call_r10_pattern ->
   find_call_r10_gadget L fuel m hModule = Ret zero_gadget).
Proof.
  intros Hp Hnull Himg Hpre Hs Hcode Hsize Hlen Hno Hfuel.
  assert (Hr : 0 <= sec_size s < 2 ^ 32).
  { destruct Himg as (? & ? & _ & _ & _ & _ & Htab).
    apply section_table_split in Htab as [_ Htab].
    inversion Htab as [| ? ? ? _ _ Hsz _ _]; subst.
    apply (load_le_range 4 _ _ _ Hsz). }
  assert (Hscan : scan_text L fuel m hModule pattern (Z.of_nat (length pattern))
                  = Ret None).
  { rewrite (scan_text_section _ _ _ _ _ _ _ _ Himg Hpre Hs).
    replace (SIZE_T L (sec_size s - Z.of_nat (length pattern)))
      with (Z.of_nat (length code - length pattern)).
    - apply (gadget_scan_none m _ pattern code); [exact Hcode | | | exact Hfuel].
      + intros k Hk. split; [lia | apply Hno; lia].
      + apply pointer_word; [exact Hp | lia].
    - rewrite SIZE_T_small; [lia |]. apply pointer_word; [exact Hp | lia]. }
  split.
  - unfold find_gadget_by_pattern.
    destruct (Z.eqb_spec hModule NULL) as [| _]; [contradiction |].
    rewrite Hscan. reflexivity.
  - intros Hpat. unfold find_call_r10_gadget.
    destruct (Z.eqb_spec hModule NULL) as [| _]; [contradiction |].
    rewrite <- Hpat. rewrite Hscan. reflexivity.
Qed.

(** X24. When the section is shorter than the pattern the bound
    [size - pattern_len] wraps around and the scan runs on past the
    end of the section: both finders return the first place at which
    the pattern lies in the memory from the section start on, inside
    the section or not. *)
Theorem find_gadget_short_section_overrun (fuel : nat) (m : memory) (hModule : Z)
    (pre post : list SectionHeader) (s : SectionHeader)
    (region pattern : list byte) (j : nat) :
  (4 <= pointer_bytes L)%nat ->
  hModule <> NULL ->
  sectioned_image m hModule (pre ++ s :: post) ->
  Forall (fun x => ~ is_text x) pre ->
  is_text s ->
  sec_size s < Z.of_nat (length pattern) ->
  (length pattern <= 16)%nat ->
  bytes_at m (hModule + sec_rva s) region ->
  occurs_at region pattern j ->
  (j + length pattern <= length region)%nat ->
  (forall k : nat, (k < j)%nat -> ~ occurs_at region pattern k) ->
  Z.of_nat j < 2 ^ 31 ->
  (j < fuel)%nat ->
  find_gadget_by_pattern L fuel m hModule (Some pattern)
    (Z.of_nat (length pattern))
  = Ret {| address := hModule + sec_rva s + Z.of_nat j;
           pattern := pattern ++ repeat x00 (16 - length pattern);
           pattern_length := Z.of_nat (length pattern);
           stack_cleanup := 0 |} /\
  (pattern = call_r10_pattern ->
   find_call_r10_gadget L fuel m hModule
   = Ret {| address := hModule + sec_rva s + Z.of_nat j;
            pattern := pattern ++ repeat x00 (16 - length pattern);
            pattern_length := Z.of_nat (length pattern);
            stack_cleanup := 0x28 |}).
Proof.
  intros Hp Hnull Himg Hpre Hs Hshort Hlen Hreg Hocc Hin Hfirst Hj Hfuel.
  assert (Hsz : 0 <= sec_size s).
  { destruct Himg as (? & ? & _ & _ & _ & _ & Htab).
    apply section_table_split in Htab as [_ Htab].
    inversion Htab as [| ? ? ? _ _ Hld _ _]; subst.
    apply (load_le_range 4 _ _ _ Hld). }
  assert (Hw : 2 ^ 32 <= 2 ^ (8 * Z.of_nat (pointer_bytes L)))
    by (apply Z.pow_le_mono_r; lia).
  assert (Hscan : scan_text L fuel m hModule pattern (Z.of_nat (length pattern))
                  = Ret (Some (hModule + sec_rva s + Z.of_nat j))).
  { rewrite (scan_text_section _ _ _ _ _ _ _ _ Himg Hpre Hs).
    apply (gadget_scan_found m _ _ pattern region j fuel); try assumption.
    - unfold SIZE_T.
      replace (sec_size s - Z.of_nat (length pattern))
        with (2 ^ (8 * Z.of_nat (pointer_bytes L))
              - (Z.of_nat (length pattern) - sec_size s)
              + (-1) * 2 ^ (8 * Z.of_nat (pointer_bytes L))) by lia.
      rewrite Z.mod_add by lia. rewrite Z.mod_small; lia.
    - lia. }
  split.
  - unfold find_gadget_by_pattern.
    destruct (Z.eqb_spec hModule NULL) as [| _]; [contradiction |].
    rewrite Hscan. cbn [bind].
    rewrite copy_pattern_all; [reflexivity | lia | exact Hlen | lia].
  - intros Hpat. unfold find_call_r10_gadget.
    destruct (Z.eqb_spec hModule NULL) as [| _]; [contradiction |].
    rewrite <- Hpat. rewrite Hscan. cbn [bind].
    rewrite copy_pattern_all; [reflexivity | lia | exact Hlen | lia].
Qed.

(** X25. An image without a section whose name begins with [".text"]
    has no gadget: both finders return the zeroed [GADGET_INFO]
    whatever the pattern, and never start the scan. *)
Theorem find_gadget_no_text_section (fuel : nat) (m : memory) (hModule : Z)
    (secs : list SectionHeader) (pattern : option (list byte)) (pattern_len : Z) :
  sectioned_image m hModule secs ->
  Forall (fun x => ~ is_text x) secs ->
  find_gadget_by_pattern L fuel m hModule pattern pattern_len = Ret zero_gadget /\
  find_call_r10_gadget L fuel m hModule = Ret zero_gadget.
Proof.
  intros Himg Hnone. split.
  - unfold find_gadget_by_pattern. destruct pattern as [pat |]; [| reflexivity].
    destruct (hModule =? NULL); [reflexivity |].
    rewrite (scan_text_no_section _ _ _ _ _ _ Himg Hnone). reflexivity.
  - unfold find_call_r10_gadget.
    destruct (hModule =? NULL); [reflexivity |].
    rewrite (scan_text_no_section _ _ _ _ _ _ Himg Hnone). reflexivity.
Qed.

End GadgetFacts.

Lemma demo_sectioned_image (m : memory) (name : string) (size : Z) :
  load32 m (GadgetDemo.base + DOS_e_lfanew) = Ret 0x80 ->
  load16 m (GadgetDemo.base + 0x80 + Gadget.NT_SizeOfOptionalHeader) = Ret 0xF0 ->
  load16 m (GadgetDemo.base + 0x80 + Gadget.NT_NumberOfSections) = Ret 2 ->
  check_bytes m 0x30188 (GadgetDemo.name8 ".rdata") = true ->
  load32 m 0x30190 = Ret 0x100 ->
  load32 m 0x30194 = Ret 0x2000 ->
  length (GadgetDemo.name8 name) = 8%nat ->
  check_bytes m 0x301B0 (GadgetDemo.name8 name) = true ->
  load32 m 0x301B8 = Ret size ->
  load32 m 0x301BC = Ret 0x1000 ->
  Gadget.sectioned_image m GadgetDemo.base
    ([GadgetDemo.sec_rdata] ++ GadgetDemo.sec_text name size :: []).
Proof.
  intros H1 H2 H3 H4 H5 H6 H7 H8 H9 H10.
  exists 0x80, 0xF0. repeat split; try assumption; try reflexivity.
  constructor; try assumption.
  - reflexivity.
  - apply check_bytes_sound. exact H4.
  - constructor; try assumption.
    + apply check_bytes_sound. exact H8.
    + constructor.
Qed.

Lemma demo_rdata_not_text :
  Forall (fun x => ~ Gadget.is_text x) [GadgetDemo.sec_rdata].
Proof. constructor; [| constructor]. vm_compute. discriminate. Qed.

Lemma find_gadget_first_occurrence_witness :
  Gadget.find_gadget_by_pattern win64 100 GadgetDemo.image_two GadgetDemo.base
    (Some Gadget.call_r10_pattern) 10
  = Ret {| Gadget.address := 0x31005;
           Gadget.pattern := Gadget.call_r10_pattern ++ repeat x00 6;
           Gadget.pattern_length := 10;
           Gadget.stack_cleanup := 0 |} /\
  Gadget.find_call_r10_gadget win64 100 GadgetDemo.image_two GadgetDemo.base
  = Ret {| Gadget.address := 0x31005;
           Gadget.pattern := Gadget.call_r10_pattern ++ repeat x00 6;
           Gadget.pattern_length := 10;
           Gadget.stack_cleanup := 0x28 |}.
Proof.
  assert (H := fun Hp Hn Hi Ht Hc Hocc Hfirst =>
    find_gadget_first_occurrence win64 100 GadgetDemo.image_two GadgetDemo.base
      [GadgetDemo.sec_rdata] [] (GadgetDemo.sec_text ".text" 32)
      GadgetDemo.code_two Gadget.call_r10_pattern 5
      Hp Hn Hi demo_rdata_not_text Ht Hc eq_refl ltac:(simpl; lia) Hocc Hfirst
      ltac:(simpl; lia) ltac:(lia)).
  destruct H as [H1 H2].
  - simpl. lia.
  - discriminate.
  - apply demo_sectioned_image; vm_compute; reflexivity.
  - vm_compute. reflexivity.
  - apply check_bytes_sound. vm_compute. reflexivity.
  - vm_compute. reflexivity.
  - intros k Hk. do 5 (destruct k as [| k]; [vm_compute; discriminate |]). lia.
  - split; [exact H1 | exact (H2 eq_refl)].
Defined.

Lemma find_gadget_misses_section_end_witness :
  Gadget.occurs_at GadgetDemo.code_last Gadget.call_r10_pattern 22 /\
  Gadget.find_gadget_by_pattern win64 100 GadgetDemo.image_last GadgetDemo.base
    (Some Gadget.call_r10_pattern) 10
  = Ret Gadget.zero_gadget /\
  Gadget.find_call_r10_gadget win64 100 GadgetDemo.image_last GadgetDemo.base
  = Ret Gadget.zero_gadget.
Proof.
  split; [vm_compute; reflexivity |].
  assert (H := fun Hp Hn Hi Ht Hc Hno =>
    find_gadget_misses_section_end win64 100 GadgetDemo.image_last GadgetDemo.base
      [GadgetDemo.sec_rdata] [] (GadgetDemo.sec_text ".textbss" 32)
      GadgetDemo.code_last Gadget.call_r10_pattern
      Hp Hn Hi demo_rdata_not_text Ht Hc eq_refl ltac:(simpl; lia) Hno
      ltac:(simpl; lia)).
  destruct H as [H1 H2].
  - simpl. lia.
  - discriminate.
  - apply demo_sectioned_image; vm_compute; reflexivity.
  - vm_compute. reflexivity.
  - apply check_bytes_sound. vm_compute. reflexivity.
  - intros k Hk. do 22 (destruct k as [| k]; [vm_compute; discriminate |]).
    simpl in Hk. lia.
  - split; [exact H1 | exact (H2 eq_refl)].
Defined.

Lemma find_gadget_short_section_overrun_witness :
  Gadget.sec_size (GadgetDemo.sec_text ".text" 4) = 4 /\
  Gadget.find_gadget_by_pattern win64 100 GadgetDemo.image_short GadgetDemo.base
    (Some Gadget.call_r10_pattern) 10
  = Ret {| Gadget.address := 0x31008;
           Gadget.pattern := Gadget.call_r10_pattern ++ repeat x00 6;
           Gadget.pattern_length := 10;
           Gadget.stack_cleanup := 0 |} /\
  Gadget.find_call_r10_gadget win64 100 GadgetDemo.image_short GadgetDemo.base
  = Ret {| Gadget.address := 0x31008;
           Gadget.pattern := Gadget.call_r10_pattern ++ repeat x00 6;
           Gadget.pattern_length := 10;
           Gadget.stack_cleanup := 0x28 |}.
Proof.
  split; [reflexivity |].
  assert (H := fun Hp Hn Hi Ht Hc Hocc Hfirst =>
    find_gadget_short_section_overrun win64 100 GadgetDemo.image_short
      GadgetDemo.base
      [GadgetDemo.sec_rdata] [] (GadgetDemo.sec_text ".text" 4)
      GadgetDemo.code_short Gadget.call_r10_pattern 8
      Hp Hn Hi demo_rdata_not_text Ht ltac:(simpl; lia) ltac:(simpl; lia)
      Hc Hocc ltac:(simpl; lia) Hfirst ltac:(lia) ltac:(lia)).
  destruct H as [H1 H2].
  - simpl. lia.
  - discriminate.
  - apply demo_sectioned_image; vm_compute; reflexivity.
  - vm_compute. reflexivity.
  - apply check_bytes_sound. vm_compute. reflexivity.
  - vm_compute. reflexivity.
  - intros k Hk. do 8 (destruct k as [| k]; [vm_compute; discriminate |]). lia.
  - split; [exact H1 | exact (H2 eq_refl)].
Defined.

Lemma find_gadget_no_text_section_witness :
  Gadget.find_gadget_by_pattern win64 0 GadgetDemo.image_none GadgetDemo.base
    (Some Gadget.call_r10_pattern) 10
  = Ret Gadget.zero_gadget /\
  Gadget.find_call_r10_gadget win64 0 GadgetDemo.image_none GadgetDemo.base
  = Ret Gadget.zero_gadget.
Proof.
  apply (find_gadget_no_text_section win64 0 GadgetDemo.image_none GadgetDemo.base
           ([GadgetDemo.sec_rdata] ++ GadgetDemo.sec_text ".code" 32 :: [])).
  - apply demo_sectioned_image; vm_compute; reflexivity.
  - constructor; [| constructor; [| constructor]]; vm_compute; discriminate.
Defined.

(** A pattern of more than 16 bytes overruns the field: with the 20
    bytes that open the section as the pattern, the copy leaves four
    bytes [0x90] in the low half of [pattern_length]. *)
Example find_gadget_long_pattern_overruns :
  Gadget.find_gadget_by_pattern win64 100 GadgetDemo.image_two GadgetDemo.base
    (Some (take 20 GadgetDemo.code_two)) 20
  = Ret {| Gadget.address := 0x31000;
           Gadget.pattern := take 16 GadgetDemo.code_two;
           Gadget.pattern_length := 0x90909090;
           Gadget.stack_cleanup := 0 |}.
Proof. vm_compute. reflexivity. Qed.
